(** * simple-webdav-client: path algebra, listing classifier and action planners

    A shallow embedding of [simple_dav_client.py] and the properties of its
    path-component algebra, listing classifier, directory-creation planner and
    put/get action planners.

    Conventions of the embedding.
    - A Python [str] is a [string] of bytes (the UTF-8 encoding of the text).
    - A [COWList] of path segments is a [list string]; its persistent
      operations are spelled out in module [COWList].
    - A function that can raise returns a [result]; a generator is the list of
      the values it yields together with the way it ends ([stream]).
    - The platform is POSIX: [os.path] is [posixpath]. *)

From Stdlib Require Import ZArith Ascii String DecimalString.
From stdpp Require Import base option list strings gmap.

Local Open Scope stdpp_scope.
#[local] Set Warnings "-clear-no-such-hyp".

(** ** Exceptions and results *)

Inductive exn : Type :=
| ValueError (msg : string)
| IndexError.

Inductive result (A : Type) : Type :=
| Ok (a : A)
| Raise (e : exn).
Arguments Ok {A} a.
Arguments Raise {A} e.

Definition bind {A B} (r : result A) (k : A → result B) : result B :=
  match r with
  | Ok a => k a
  | Raise e => Raise e
  end.

Notation "x ←r c ; k" := (bind c (λ x, k))
  (at level 20, c at level 100, k at level 200, right associativity,
   format "x  ←r  c ;  '/' k").

(** A [for] loop whose body may raise, threading the loop-carried value. *)
Fixpoint for_each {A S} (body : S → A → result S) (xs : list A) (s : S) : result S :=
  match xs with
  | [] => Ok s
  | x :: xs' => s' ←r body s x; for_each body xs' s'
  end.

Definition is_ok {A} (r : result A) : bool :=
  match r with Ok _ => true | Raise _ => false end.

(** ** Python [str] methods *)

Module Str.

Definition nonempty (s : string) : bool :=
  match s with EmptyString => false | String _ _ => true end.

(** [s.startswith(p)] *)
Fixpoint startswith (s p : string) {struct p} : bool :=
  match p with
  | EmptyString => true
  | String c p' =>
      match s with
      | EmptyString => false
      | String d s' => if decide (c = d) then startswith s' p' else false
      end
  end.

(** [s.endswith('/')] (the only suffix test the client's libraries make) *)
Fixpoint endswith_slash (s : string) : bool :=
  match s with
  | EmptyString => false
  | String c EmptyString => bool_decide (c = "/"%char)
  | String _ s' => endswith_slash s'
  end.

(** [s.split('/')] *)
Fixpoint split (s : string) : list string :=
  match s with
  | EmptyString => [EmptyString]
  | String c s' =>
      if decide (c = "/"%char) then EmptyString :: split s'
      else match split s' with
           | [] => [String c EmptyString]
           | w :: ws => String c w :: ws
           end
  end.

(** ['/'.join(l)] *)
Fixpoint join (l : list string) : string :=
  match l with
  | [] => EmptyString
  | [x] => x
  | x :: l' => x +:+ "/" +:+ join l'
  end.

(** [s[1:]] *)
Definition drop1 (s : string) : string :=
  match s with EmptyString => EmptyString | String _ s' => s' end.

(** membership of a character in a string, [c in s] *)
Fixpoint mem (c : ascii) (s : string) : bool :=
  match s with
  | EmptyString => false
  | String d s' => if decide (c = d) then true else mem c s'
  end.

End Str.

(** ** [COWList]: the persistent list of path segments *)

Module COWList.

Abbreviation t := (list string).

Definition empty : t := [].
Definition append (l : t) (x : string) : t := l ++ [x].
Definition extend (l r : t) : t := l ++ r.
Definition clear (l : t) : t := [].
(** [l.pop()] returns the list without its last element (and that element) *)
Definition pop (l : t) : t := removelast l.
(** truthiness, [if l:] *)
Definition truthy (l : t) : bool :=
  match l with [] => false | _ :: _ => true end.
(** [l[-1]] *)
Definition last_item (l : t) : result string :=
  match last l with
  | Some x => Ok x
  | None => Raise IndexError
  end.
(** [l[:-1]] *)
Definition but_last (l : t) : t := removelast l.

End COWList.

Abbreviation path := (list string).

(** ** [posixpath] *)

Module posixpath.

Definition isabs (s : string) : bool := Str.startswith s "/".

(** [basename(p)]: what follows the last slash *)
Definition basename (p : string) : string :=
  default EmptyString (last (Str.split p)).

(** one step of [join(a, *p)] *)
Definition join2 (a b : string) : string :=
  if Str.startswith b "/" then b
  else if negb (Str.nonempty a) || Str.endswith_slash a then a +:+ b
  else a +:+ "/" +:+ b.

Definition join (a : string) (p : list string) : string := foldl join2 a p.

(** the number [initial_slashes] of [normpath]: 0, 1 or 2 *)
Definition initial_slashes (p : string) : nat :=
  if Str.startswith p "/" then
    if Str.startswith p "//" && negb (Str.startswith p "///") then 2 else 1
  else 0.

(** the body of the loop of [normpath] over the components *)
Definition normpath_step (slashes : nat) (new_comps : list string) (comp : string)
  : list string :=
  if bool_decide (comp = "") || bool_decide (comp = ".") then new_comps
  else if negb (bool_decide (comp = ".."))
          || (bool_decide (slashes = 0) && negb (COWList.truthy new_comps))
          || (COWList.truthy new_comps && bool_decide (last new_comps = Some ".."))
  then new_comps ++ [comp]
  else removelast new_comps.

Definition normcomps (p : string) : list string :=
  foldl (normpath_step (initial_slashes p)) [] (Str.split p).

Definition slashes_string (n : nat) : string :=
  match n with 0 => "" | 1 => "/" | _ => "//" end.

Definition normpath (p : string) : string :=
  if negb (Str.nonempty p) then "."
  else
    let r := slashes_string (initial_slashes p) +:+ Str.join (normcomps p) in
    if Str.nonempty r then r else ".".

(** [abspath(p)], with the process's working directory [cwd] *)
Definition abspath (cwd p : string) : string :=
  if isabs p then normpath p else normpath (join2 cwd p).

(** [len(commonprefix([l1, l2]))] for two lists of components *)
Fixpoint commonprefix_len (l1 l2 : list string) : nat :=
  match l1, l2 with
  | x :: l1', y :: l2' => if decide (x = y) then S (commonprefix_len l1' l2') else 0
  | _, _ => 0
  end.

Definition path_list (abs : string) : list string :=
  filter (λ x, Str.nonempty x = true) (Str.split abs).

(** [relpath(p, start)] *)
Definition relpath (cwd p start : string) : result string :=
  if negb (Str.nonempty p) then Raise (ValueError "no path specified")
  else
    let start_list := path_list (abspath cwd start) in
    let p_list := path_list (abspath cwd p) in
    let i := commonprefix_len start_list p_list in
    let rel_list := replicate (length start_list - i) ".." ++ drop i p_list in
    match rel_list with
    | [] => Ok "."
    | a :: rest => Ok (join a rest)
    end.

End posixpath.

(** ** [urllib]: percent-encoding *)

Module urllib.

(** [_ALWAYS_SAFE]: the unreserved characters *)
Definition always_safe : string :=
  "ABCDEFGHIJKLMNOPQRSTUVWXYZabcdefghijklmnopqrstuvwxyz0123456789_.-~".

(** the characters [quote(s)] keeps, with its default [safe='/'] *)
Definition is_safe (c : ascii) : bool :=
  Str.mem c always_safe || bool_decide (c = "/"%char).

(** the hexadecimal digits, as [quote] writes them and as [unquote] also
    accepts them *)
Definition upper_hex : string := "0123456789ABCDEF".
Definition lower_hex : string := "0123456789abcdef".

(** [s.find(c)] *)
Fixpoint find (c : ascii) (s : string) : option N :=
  match s with
  | EmptyString => None
  | String d s' => if decide (c = d) then Some 0%N else N.succ <$> find c s'
  end.

Definition hex_digit (n : N) : ascii :=
  default "F"%char (String.get (N.to_nat n) upper_hex).

Definition hex_value (c : ascii) : option N :=
  match find c upper_hex with
  | Some n => Some n
  | None => find c lower_hex
  end.

(** ['%{:02X}'.format(byte)] for a byte that is not safe *)
Definition quote_char (c : ascii) : string :=
  if is_safe c then String c EmptyString
  else String "%" (String (hex_digit (N_of_ascii c / 16))
                     (String (hex_digit (N_of_ascii c mod 16)) EmptyString)).

Fixpoint quote (s : string) : string :=
  match s with
  | EmptyString => EmptyString
  | String c s' => quote_char c +:+ quote s'
  end.

(** [unquote(s)]: a percent sign followed by two hexadecimal digits is the
    byte they denote, any other percent sign stands for itself *)
Fixpoint unquote (s : string) : string :=
  match s with
  | EmptyString => EmptyString
  | String c s1 =>
      if decide (c = "%"%char) then
        match s1 with
        | String h (String l s3) =>
            match hex_value h, hex_value l with
            | Some a, Some b => String (ascii_of_N (16 * a + b)) (unquote s3)
            | _, _ => String c (unquote s1)
            end
        | _ => String c (unquote s1)
        end
      else String c (unquote s1)
  end.

End urllib.

(** ** [fspathverbs] *)

Inductive verb : Type :=
| Root (root : string)
| Parent
| Current
| Child (child : string).

Module fspathverbs.

Fixpoint leading_slashes (s : string) : string :=
  match s with
  | String c s' => if decide (c = "/"%char) then String c (leading_slashes s') else EmptyString
  | EmptyString => EmptyString
  end.

Definition segment_verb (seg : string) : list verb :=
  if decide (seg = "") then []
  else if decide (seg = ".") then [Current]
  else if decide (seg = "..") then [Parent]
  else [Child seg].

(** Modelled from the spec: [compile_to_fspathverbs] belongs to the package
    [fspathverbs], which is imported by the client and is not part of its
    source.  With [split = posixpath.split] (also [os.path.split] on POSIX) it
    reads a path from left to right: a leading root marker (the leading run
    of slashes) gives [Root], a segment [.] gives [Current], a segment [..]
    gives [Parent], any other non-empty segment gives [Child], and empty
    segments (repeated or trailing slashes) give nothing. *)
Definition compile_to_fspathverbs (p : string) : list verb :=
  (if Str.startswith p "/" then [Root (leading_slashes p)] else [])
    ++ flat_map segment_verb (Str.split p).

End fspathverbs.

(** ** The path-component algebra of the client *)

(** the loop body of [relative_local_path_to_relative_local_path_components] *)
Definition local_verb (relative_local_path : string) (components : path) (v : verb)
  : result path :=
  match v with
  | Parent =>
      if COWList.truthy components then Ok (COWList.pop components)
      else Raise (ValueError ("Invalid relative local path: " +:+ relative_local_path))
  | Current => Ok components
  | Child child => Ok (COWList.append components child)
  | Root _ => Raise (ValueError ("Invalid relative local path: " +:+ relative_local_path))
  end.

Definition local_components_of_verbs (relative_local_path : string) (verbs : list verb)
  : result path :=
  for_each (local_verb relative_local_path) verbs COWList.empty.

Definition relative_local_path_to_relative_local_path_components
  (relative_local_path : string) : result path :=
  local_components_of_verbs relative_local_path
    (fspathverbs.compile_to_fspathverbs relative_local_path).

(** the loop body of [remote_path_to_remote_path_components] *)
Definition remote_verb (remote_path : string) (components : path) (v : verb)
  : result path :=
  match v with
  | Root _ => Ok (COWList.clear components)
  | Parent =>
      if COWList.truthy components then Ok (COWList.pop components)
      else Raise (ValueError ("Invalid remote path: " +:+ remote_path))
  | Current => Ok components
  | Child child => Ok (COWList.append components child)
  end.

Definition remote_components_of_verbs (remote_path : string) (verbs : list verb)
  : result path :=
  for_each (remote_verb remote_path) verbs COWList.empty.

Definition remote_path_to_remote_path_components (remote_path : string) : result path :=
  remote_components_of_verbs remote_path (fspathverbs.compile_to_fspathverbs remote_path).

(** ['%d' % port] *)
Definition format_d (port : Z) : string := NilZero.string_of_int (Z.to_int port).

(** ['http://%s:%d' % (host, port)] *)
Definition href_base (host : string) (port : Z) : string :=
  "http://" +:+ host +:+ ":" +:+ format_d port.

Definition remote_path_components_to_href (host : string) (port : Z)
  (remote_path_components : path) : string :=
  href_base host port +:+ "/" +:+ Str.join (urllib.quote <$> remote_path_components).

(** the loop body of [href_to_remote_path_components] *)
Definition href_verb (href : string) (components : path) (v : verb) : result path :=
  match v with
  | Root _ => Raise (ValueError ("Invalid href: " +:+ href))
  | Parent =>
      if COWList.truthy components then Ok (COWList.pop components)
      else Raise (ValueError ("Invalid href: " +:+ href))
  | Current => Ok components
  | Child child => Ok (COWList.append components (urllib.unquote child))
  end.

Definition href_to_remote_path_components (cwd host : string) (port : Z) (href : string)
  : result path :=
  let base := href_base host port in
  relative_path ←r
    (if Str.startswith href base then posixpath.relpath cwd href base
     else if Str.startswith href "/" then Ok (Str.drop1 href)
     else Raise (ValueError ("Invalid href: " +:+ href)));
  for_each (href_verb href) (fspathverbs.compile_to_fspathverbs relative_path)
    COWList.empty.

(** ** Generators

    A generator is modelled by the list of the values it yields and the way it
    ends: it returns, it raises, or (for the recursion of the get planner, which
    follows the listings of the remote store) it is cut off by the fuel. *)

Inductive ending : Type :=
| Returned
| Raised (e : exn)
| Unfinished.

Definition stream (A : Type) : Type := (list A * ending)%type.

(** a generator that runs [s1] and then, if [s1] returns, [s2] *)
Definition and_then {A} (s1 s2 : stream A) : stream A :=
  match s1.2 with
  | Returned => (s1.1 ++ s2.1, s2.2)
  | _ => s1
  end.

Definition yields {A} (xs : list A) : stream A := (xs, Returned).
Definition raises {A} (e : exn) : stream A := ([], Raised e).

(** [for x in xs: <body x>], where the body is itself a generator *)
Definition for_yield {A B} (body : A → stream B) (xs : list A) : stream B :=
  foldr (λ x rest, and_then (body x) rest) (yields []) xs.

(** ** The local file system, as the put planner observes it *)

(** what [stat] finds at a name: a regular file, a directory (possibly reached
    through a symbolic link, which [os.walk] lists but does not enter), or
    anything else: a device, a socket, a dangling link *)
#[warnings="-register-all"] Inductive inode : Type :=
| RegularFile
| Directory (via_symlink : bool) (entries : list (string * inode))
| Special.

(** a file system is the content of its root directory *)
Abbreviation filesystem := (list (string * inode)).

Module os.

Fixpoint lookup_entry (name : string) (entries : list (string * inode)) : option inode :=
  match entries with
  | [] => None
  | (n, i) :: rest => if decide (n = name) then Some i else lookup_entry name rest
  end.

Fixpoint resolve (i : inode) (comps : list string) : option inode :=
  match comps with
  | [] => Some i
  | c :: rest =>
      match i with
      | Directory _ entries =>
          match lookup_entry c entries with
          | Some j => resolve j rest
          | None => None
          end
      | _ => None
      end
  end.

(** [stat] of an absolute, normalized path *)
Definition stat (fs : filesystem) (p : string) : option inode :=
  resolve (Directory false fs) (posixpath.path_list p).

Definition isfile (fs : filesystem) (p : string) : bool :=
  match stat fs p with Some RegularFile => true | _ => false end.

Definition isdir (fs : filesystem) (p : string) : bool :=
  match stat fs p with Some (Directory _ _) => true | _ => false end.

Definition is_dir_entry (e : string * inode) : bool :=
  match e.2 with Directory _ _ => true | _ => false end.

Definition dirnames (entries : list (string * inode)) : list string :=
  (filter (λ e, is_dir_entry e = true) entries).*1.

Definition filenames (entries : list (string * inode)) : list string :=
  (filter (λ e, is_dir_entry e = false) entries).*1.

(** [os.walk(top)], top-down, not following links: the triple of [top], then
    the walks of its subdirectories that are not symbolic links, in order *)
Fixpoint walk (top : string) (i : inode) : list (string * list string * list string) :=
  match i with
  | Directory _ entries =>
      (top, dirnames entries, filenames entries)
      :: flat_map
           (λ e, match e with
                 | (name, Directory false _ as sub) => walk (posixpath.join2 top name) sub
                 | _ => []
                 end)
           entries
  | _ => []
  end.

End os.

(** ** Put actions and the put planner *)

Inductive PutAction : Type :=
| UploadLocalFile (local_file_path : string) (relative_remote_file_path_components : path)
| CreateRemoteDirectory (relative_remote_directory_path_components : path).

(** the body of the loop over [os.walk] in [iterate_put_actions] *)
Definition put_level (cwd absolute_local_path : string)
  (relative_remote_path_prefix_with_basename : path)
  (level : string * list string * list string) : stream PutAction :=
  let '(dirpath, dirnames, filenames) := level in
  match
    relative_local_path ←r posixpath.relpath cwd dirpath absolute_local_path;
    relative_local_path_to_relative_local_path_components relative_local_path
  with
  | Raise e => raises e
  | Ok relative_local_path_components =>
      let new_relative_remote_path_prefix :=
        COWList.extend relative_remote_path_prefix_with_basename
          relative_local_path_components in
      yields
        (map (λ dirname,
              CreateRemoteDirectory (COWList.append new_relative_remote_path_prefix dirname))
           dirnames
         ++ map (λ filename,
              UploadLocalFile (posixpath.join2 dirpath filename)
                (COWList.append new_relative_remote_path_prefix filename))
           filenames)
  end.

Definition iterate_put_actions (cwd : string) (fs : filesystem)
  (local_path : string) (relative_remote_path_prefix : path) : stream PutAction :=
  let absolute_local_path := posixpath.abspath cwd local_path in
  let basename := posixpath.basename absolute_local_path in
  if Str.nonempty basename && os.isfile fs absolute_local_path then
    yields [UploadLocalFile absolute_local_path
              (COWList.append relative_remote_path_prefix basename)]
  else if Str.nonempty basename && os.isdir fs absolute_local_path then
    let relative_remote_path_prefix_with_basename :=
      COWList.append relative_remote_path_prefix basename in
    and_then
      (yields [CreateRemoteDirectory relative_remote_path_prefix_with_basename])
      (for_yield
         (put_level cwd absolute_local_path relative_remote_path_prefix_with_basename)
         (os.walk absolute_local_path
            (default Special (os.stat fs absolute_local_path))))
  else raises (ValueError ("Invalid local path: " +:+ local_path)).

(** ** Listing results, get actions *)

Inductive ListResult : Type :=
| IsDirectory (containing_file_path_components : list path)
    (containing_directory_path_components : list path)
| IsFile (file_path_components : path)
| NotFound.

Inductive GetAction : Type :=
| DownloadRemoteFile (remote_file_path_components : path)
    (relative_local_file_path_components : path)
| CreateLocalDirectory (relative_local_directory_path_components : path).

(** ** Python [dict], insertion-ordered, keyed by path components *)

Module pydict.

Abbreviation t V := (list (path * V)).

(** [d[k] = v]: a known key keeps its place, a new key goes last *)
Fixpoint set {V} (d : t V) (k : path) (v : V) : t V :=
  match d with
  | [] => [(k, v)]
  | (k', v') :: d' => if decide (k' = k) then (k', v) :: d' else (k', v') :: set d' k v
  end.

(** [dict(pairs)] *)
Definition of_pairs {V} (pairs : list (path * V)) : t V :=
  foldl (λ d kv, set d kv.1 kv.2) [] pairs.

(** [d.get(k)]; [k in d] is [is_Some (get d k)] *)
Fixpoint get {V} (d : t V) (k : path) : option V :=
  match d with
  | [] => None
  | (k', v) :: d' => if decide (k' = k) then Some v else get d' k
  end.

(** [del d[k]] *)
Fixpoint del {V} (d : t V) (k : path) : t V :=
  match d with
  | [] => []
  | (k', v) :: d' => if decide (k' = k) then d' else (k', v) :: del d' k
  end.

(** [d.items()] *)
Definition items {V} (d : t V) : list (path * V) := d.

End pydict.

(** ** The client *)

Section SimpleDAVClient.

(** The state of the remote store. *)
Context {St : Type}.

(** [iterate_listings_and_is_directories]: the pairs that the depth-1 listing
    query on a target yields, in order. *)
Variable iterate_listings_and_is_directories : St → path → list (path * bool).

(** [create_directory_from_remote_path_components]: one single-level creation
    request; [true] when the store answers 201. *)
Variable create_directory_from_remote_path_components : path → St → bool * St.

(** the loop over the remaining items in [list_remote_file_or_directory] *)
Definition classify_item (acc : list path * list path) (item : path * bool)
  : list path * list path :=
  let '(file_path_components, directory_path_components) := acc in
  let '(listing, is_directory) := item in
  if is_directory then (file_path_components, directory_path_components ++ [listing])
  else (file_path_components ++ [listing], directory_path_components).

Definition classify (remote_path_components : path) (pairs : list (path * bool))
  : ListResult :=
  let listings_to_is_directories := pydict.of_pairs pairs in
  match pydict.get listings_to_is_directories remote_path_components with
  | None => NotFound
  | Some false => IsFile remote_path_components
  | Some true =>
      let rest := pydict.del listings_to_is_directories remote_path_components in
      let '(file_path_components, directory_path_components) :=
        foldl classify_item ([], []) (pydict.items rest) in
      IsDirectory file_path_components directory_path_components
  end.

Definition list_remote_file_or_directory (st : St) (remote_path_components : path)
  : ListResult :=
  classify remote_path_components
    (iterate_listings_and_is_directories st remote_path_components).

(** The recursion of [create_directories_from_remote_path_components] is on
    the path without its last component; the fuel bounds its depth. *)
Fixpoint create_directories_from_remote_path_components (fuel : nat)
  (remote_path_components : path) (st : St) : option (bool * St) :=
  match fuel with
  | 0 => None
  | S fuel' =>
      if negb (COWList.truthy remote_path_components) then Some (true, st)
      else
        let '(created, st1) :=
          create_directory_from_remote_path_components remote_path_components st in
        if created then Some (true, st1)
        else
          match create_directories_from_remote_path_components fuel'
                  (COWList.but_last remote_path_components) st1 with
          | None => None
          | Some (true, st2) =>
              Some (create_directory_from_remote_path_components
                      remote_path_components st2)
          | Some (false, st2) => Some (false, st2)
          end
  end.

(** the download of one contained file in [iterate_get_actions] *)
Definition download_into (new_relative_local_path_prefix : path)
  (file_path_components : path) : stream GetAction :=
  match COWList.last_item file_path_components with
  | Ok name =>
      yields [DownloadRemoteFile file_path_components
                (COWList.append new_relative_local_path_prefix name)]
  | Raise e => raises e
  end.

(** The get planner only reads the remote store, whose state [st] therefore
    stays the same; the fuel bounds the depth of the recursion through the
    listings. *)
Fixpoint iterate_get_actions (fuel : nat) (st : St) (remote_path_components : path)
  (relative_local_path_prefix : path) : stream GetAction :=
  match fuel with
  | 0 => ([], Unfinished)
  | S fuel' =>
      match list_remote_file_or_directory st remote_path_components with
      | IsFile remote_file_path_components =>
          download_into relative_local_path_prefix remote_file_path_components
      | IsDirectory files directories =>
          let contents new_relative_local_path_prefix :=
            and_then
              (for_yield (download_into new_relative_local_path_prefix) files)
              (for_yield
                 (λ directory_path_components,
                   iterate_get_actions fuel' st directory_path_components
                     new_relative_local_path_prefix)
                 directories) in
          if negb (COWList.truthy remote_path_components) then
            contents relative_local_path_prefix
          else
            match COWList.last_item remote_path_components with
            | Raise e => raises e
            | Ok name =>
                let new_relative_local_path_prefix :=
                  COWList.append relative_local_path_prefix name in
                and_then
                  (yields [CreateLocalDirectory new_relative_local_path_prefix])
                  (contents new_relative_local_path_prefix)
            end
      | NotFound => yields []
      end
  end.

End SimpleDAVClient.

(** ** A remote store for the creation requests *)

Module DavStore.

(** the collections of the store; the root always exists *)
Definition exists_collection (s : gset path) (p : path) : bool :=
  bool_decide (p = [] ∨ p ∈ s).

(** Modelled from the spec: the transport that answers the creation requests
    is an external collaborator.  A single-level creation request succeeds
    exactly when the collection does not exist yet and its parent does (§4.3:
    one request in the common case where the parent already exists; §6: the
    success status indicates that the directory now exists); the collection
    exists afterwards, and a failed request changes nothing. *)
Definition mkcol (p : path) (s : gset path) : bool * gset path :=
  if exists_collection s (removelast p) && negb (exists_collection s p)
  then (true, {[p]} ∪ s)
  else (false, s).

End DavStore.

(** a transport that also logs the creation requests it receives *)
Definition logging {St} (create : path → St → bool * St)
  (p : path) (st : St * list path) : bool * (St * list path) :=
  let '(created, st') := create p st.1 in (created, (st', st.2 ++ [p])).

(** ** Specification-side definitions *)

(** the mapping from entry path to directory flag that a listing denotes: a
    later entry for a path replaces an earlier one *)
Definition listing_map (pairs : list (path * bool)) : gmap path bool :=
  foldl (λ m kv, <[kv.1 := kv.2]> m) ∅ pairs.

(** a segment of [PathComponents]: non-empty, no separator, not [.] or [..] *)
Definition valid_segment (seg : string) : bool :=
  Str.nonempty seg && negb (Str.mem "/"%char seg)
  && negb (bool_decide (seg = ".")) && negb (bool_decide (seg = "..")).

(** the normalization of a path string, segment by segment: [.] (and an empty
    segment) is a no-op, [..] pops the last component, any other segment is
    pushed; [None] when a [..] is applied to the empty sequence *)
Definition normalize_segment (acc : option path) (seg : string) : option path :=
  match acc with
  | None => None
  | Some cs =>
      if bool_decide (seg = "") || bool_decide (seg = ".") then Some cs
      else if bool_decide (seg = "..") then
        match cs with [] => None | _ :: _ => Some (removelast cs) end
      else Some (cs ++ [seg])
  end.

Definition normalized_components (p : string) : option path :=
  foldl normalize_segment (Some []) (Str.split p).

(** names in a directory are valid segments and distinct, at every level *)
Fixpoint wf_inode (i : inode) : bool :=
  match i with
  | Directory _ entries =>
      bool_decide (NoDup entries.*1)
      && forallb (λ e, valid_segment e.1) entries
      && forallb (λ e, match e with (_, sub) => wf_inode sub end) entries
  | _ => true
  end.

Definition wf_filesystem (fs : filesystem) : bool := wf_inode (Directory false fs).

(** the put plan of the content of a directory, read off the tree: the
    creations of the subdirectories and the uploads of the files of this level,
    then the plans of the subdirectories that are entered *)
Fixpoint put_plan_spec (prefix : path) (top : string) (i : inode) : list PutAction :=
  match i with
  | Directory _ entries =>
      map (λ d, CreateRemoteDirectory (prefix ++ [d])) (os.dirnames entries)
      ++ map (λ f, UploadLocalFile (posixpath.join2 top f) (prefix ++ [f]))
           (os.filenames entries)
      ++ flat_map
           (λ e, match e with
                 | (name, Directory false _ as sub) =>
                     put_plan_spec (prefix ++ [name]) (posixpath.join2 top name) sub
                 | _ => []
                 end)
           entries
  | _ => []
  end.

Definition put_action_path (a : PutAction) : path :=
  match a with
  | UploadLocalFile _ p => p
  | CreateRemoteDirectory p => p
  end.

(** [q] is a proper ancestor of [p] *)
Definition strictly_inside (q p : path) : Prop := ∃ rest, rest ≠ [] ∧ p = q ++ rest.

(** in [acts], every creation of a directory comes before every action whose
    path lies inside that directory *)
Definition create_before_contents (acts : list PutAction) : Prop :=
  ∀ i j q a,
    acts !! i = Some (CreateRemoteDirectory q) →
    acts !! j = Some a →
    strictly_inside q (put_action_path a) →
    i < j.

Section GetPlanSpec.

Context {St : Type}.
Variable iterate_listings_and_is_directories : St → path → list (path * bool).
Variable st : St.

(** the get plan, by the case analysis on the classification of the target;
    [get_plans_spec] chains the plans of the contained directories *)
Inductive get_plan_spec : path → path → list GetAction → Prop :=
| plan_is_file target prefix file name :
    list_remote_file_or_directory iterate_listings_and_is_directories st target
      = IsFile file →
    last file = Some name →
    get_plan_spec target prefix [DownloadRemoteFile file (prefix ++ [name])]
| plan_not_found target prefix :
    list_remote_file_or_directory iterate_listings_and_is_directories st target
      = NotFound →
    get_plan_spec target prefix []
| plan_is_directory target prefix files directories self new_prefix downloads plans :
    list_remote_file_or_directory iterate_listings_and_is_directories st target
      = IsDirectory files directories →
    match last target with
    | None => new_prefix = prefix ∧ self = []
    | Some name =>
        new_prefix = prefix ++ [name] ∧ self = [CreateLocalDirectory new_prefix]
    end →
    Forall2 (λ file a, ∃ name,
               last file = Some name
               ∧ a = DownloadRemoteFile file (new_prefix ++ [name]))
      files downloads →
    get_plans_spec directories new_prefix plans →
    get_plan_spec target prefix (self ++ downloads ++ plans)
with get_plans_spec : list path → path → list GetAction → Prop :=
| plans_nil prefix : get_plans_spec [] prefix []
| plans_cons directory directories prefix acts rest :
    get_plan_spec directory prefix acts →
    get_plans_spec directories prefix rest →
    get_plans_spec (directory :: directories) prefix (acts ++ rest).

End GetPlanSpec.

Scheme get_plan_spec_mut := Minimality for get_plan_spec Sort Prop
  with get_plans_spec_mut := Minimality for get_plans_spec Sort Prop.

(** the contained files and directories of the items of a listing *)
Definition files_of (d : pydict.t bool) : list path :=
  (filter (λ kv, kv.2 = false) d).*1.
Definition directories_of (d : pydict.t bool) : list path :=
  (filter (λ kv, kv.2 = true) d).*1.

(** the collections [q ++ take i m], for [0 < i ≤ length m]: the chain that
    leads from [q] down to [q ++ m] *)
Definition chain (q m : path) : list path :=
  (λ i, q ++ take (S i) m) <$> seq 0 (length m).

(** the plans of the subdirectories that are entered, as in [put_plan_spec] *)
Definition subdirectory_plans (prefix : path) (top : string)
  (entries : list (string * inode)) : list PutAction :=
  flat_map
    (λ e, match e with
          | (name, Directory false _ as sub) =>
              put_plan_spec (prefix ++ [name]) (posixpath.join2 top name) sub
          | _ => []
          end)
    entries.

(** ** Scenarios *)

(** a remote store for the scenario of the spec: the root holds the file
    [a.txt] and the directory [b], which holds the file [c.txt] *)
Definition scenario_listings (_ : unit) (target : path) : list (path * bool) :=
  if decide (target = []) then [([], true); (["a.txt"], false); (["b"], true)]
  else if decide (target = ["b"]) then [(["b"], true); (["b"; "c.txt"], false)]
  else if decide (target = ["a.txt"]) then [(["a.txt"], false)]
  else if decide (target = ["b"; "c.txt"]) then [(["b"; "c.txt"], false)]
  else [].


(** a local file system: the home directory of [u] holds the directory [a]
    (with the file [f.txt] and the empty directory [sub]), a file and a
    terminal device *)
Definition scenario_fs : filesystem :=
  [("home", Directory false
      [("u", Directory false
          [("a", Directory false [("f.txt", RegularFile); ("sub", Directory false [])]);
           ("notes.txt", RegularFile);
           ("tty", Special)])])].


(** ** The listing query and its response *)

(** an element of a parsed XML document: its qualified tag, its text and its
    child elements, in document order *)
#[warnings="-register-all"] Inductive element : Type :=
| Element (tag : string) (text : option string) (children : list element).

Module ElementTree.

Definition tag (e : element) : string := match e with Element t _ _ => t end.
Definition text (e : element) : option string := match e with Element _ x _ => x end.
Definition children (e : element) : list element :=
  match e with Element _ _ cs => cs end.

(** the elements below [e], on all levels, in document order *)
Fixpoint descendants (e : element) : list element :=
  match e with
  | Element _ _ cs => flat_map (λ c, c :: descendants c) cs
  end.

(** [e.find('.//' + t)]: the first element below [e] with tag [t] *)
Definition find_descendant (t : string) (e : element) : option element :=
  head (filter (λ d, tag d = t) (descendants e)).

(** [e.find(t)]: the first child of [e] with tag [t] *)
Definition find (t : string) (e : element) : option element :=
  head (filter (λ c, tag c = t) (children e)).

(** [e.findall(t)]: the children of [e] with tag [t] *)
Definition findall (t : string) (e : element) : list element :=
  filter (λ c, tag c = t) (children e).

End ElementTree.

(** what the client reads of a response: the status code and the body, as the
    document it parses to *)
Record response : Type := { status_code : Z; content : element }.

(** the body of the loop over the response elements in
    [iterate_listings_and_is_directories] *)
Definition listing_of_response_node (cwd host : string) (port : Z)
  (dav_response_node : element) : stream (path * bool) :=
  match ElementTree.find_descendant "{DAV:}href" dav_response_node with
  | None => yields []
  | Some dav_response_dav_href_node =>
      match ElementTree.text dav_response_dav_href_node with
      | None => yields []
      | Some dav_response_dav_href =>
          let dav_response_dav_collection_node :=
            ElementTree.find_descendant "{DAV:}collection" dav_response_node in
          let dav_response_dav_resourcetype_node :=
            ElementTree.find_descendant "{DAV:}resourcetype" dav_response_node in
          let dav_response_dav_resourcetype_dav_collection_node :=
            match dav_response_dav_resourcetype_node with
            | Some resourcetype => ElementTree.find "{DAV:}collection" resourcetype
            | None => None
            end in
          let is_collection :=
            bool_decide (is_Some dav_response_dav_collection_node)
            || bool_decide (is_Some dav_response_dav_resourcetype_dav_collection_node) in
          match href_to_remote_path_components cwd host port dav_response_dav_href with
          | Ok components => yields [(components, is_collection)]
          | Raise e => raises e
          end
      end
  end.

(** [iterate_listings_and_is_directories]: the depth-1 listing request on the
    locator of the target, answered by [propfind], and the pairs read off the
    response *)
Definition iterate_listings_and_is_directories (cwd host : string) (port : Z)
  (propfind : string → response) (remote_path_components : path)
  : stream (path * bool) :=
  let remote_path_href :=
    remote_path_components_to_href host port remote_path_components in
  let response := propfind remote_path_href in
  if bool_decide (status_code response = 207%Z) then
    for_yield (listing_of_response_node cwd host port)
      (ElementTree.findall "{DAV:}response" (content response))
  else yields [].

(** Modelled from the spec: the remote store is an external collaborator.  The
    multi-status document by which a store answers a listing query (§6) holds
    one response element per entry, with the locator of the entry as a path on
    the host, closed by a slash for a collection other than the root, and with
    the collection marker in the resource type of a collection. *)
Definition href_of_entry (entry : path * bool) : string :=
  "/" +:+ Str.join (urllib.quote <$> entry.1)
  +:+ (if entry.2 && COWList.truthy entry.1 then "/" else "").

Definition response_node (entry : path * bool) : element :=
  Element "{DAV:}response" None
    [Element "{DAV:}href" (Some (href_of_entry entry)) [];
     Element "{DAV:}propstat" None
       [Element "{DAV:}prop" None
          [Element "{DAV:}resourcetype" None
             (if entry.2 then [Element "{DAV:}collection" None []] else [])];
        Element "{DAV:}status" (Some "HTTP/1.1 200 OK") []]].

Definition multistatus (entries : list (path * bool)) : response :=
  {| status_code := 207;
     content := Element "{DAV:}multistatus" None (response_node <$> entries) |}.

(** ** The commands [ls] and [mkdir] *)

(** a line printed to the standard output or to the standard error *)
Inductive output : Type :=
| Stdout (line : string)
| Stderr (line : string).

Section Commands.

Context {St : Type}.
Variable listings : St → path → list (path * bool).
Variable create : path → St → bool * St.



(** [mkdir]: the lines it prints and the state of the store it leaves.  The
    recursion of the directory creation is given the depth that the length of
    the path asks for. *)
Definition mkdir (remote_directory_path : string) (p : bool) (st : St)
  : result (list output * St) :=
  remote_path_components ←r
    remote_path_to_remote_path_components remote_directory_path;
  let '(created, st') :=
    if p then
      default (false, st)
        (create_directories_from_remote_path_components create
           (S (length remote_path_components)) remote_path_components st)
    else create remote_path_components st in
  Ok (if created then []
      else [Stderr ("cannot create remote directory " +:+ remote_directory_path)],
      st').

End Commands.

(** ** More specification-side definitions *)

(** every collection of the store lies in a collection of the store *)
Definition parents_exist (s : gset path) : Prop :=
  ∀ p, p ∈ s → DavStore.exists_collection s (removelast p) = true.

Definition get_action_local_path (a : GetAction) : path :=
  match a with
  | DownloadRemoteFile _ p => p
  | CreateLocalDirectory p => p
  end.

(** in [acts], every local directory between [prefix] and the local path of an
    action has been created by an earlier action *)
Definition parents_created_first (prefix : path) (acts : list GetAction) : Prop :=
  ∀ j a q,
    acts !! j = Some a →
    strictly_inside prefix q →
    strictly_inside q (get_action_local_path a) →
    ∃ i, i < j ∧ acts !! i = Some (CreateLocalDirectory q).

(** the directories that [os.walk] visits below a directory: those reached
    through directories that are not symbolic links *)
Fixpoint walked (i : inode) (names : list string) : option inode :=
  match names with
  | [] => Some i
  | name :: rest =>
      match i with
      | Directory _ entries =>
          match os.lookup_entry name entries with
          | Some (Directory false _ as sub) => walked sub rest
          | _ => None
          end
      | _ => None
      end
  end.

(** the action that the put planner owes to an entry of a walked directory *)
Definition put_action_of_entry (top : string) (prefix : path) (names : list string)
  (name : string) (sub : inode) : PutAction :=
  match sub with
  | Directory _ _ => CreateRemoteDirectory (prefix ++ names ++ [name])
  | _ => UploadLocalFile (posixpath.join top (names ++ [name])) (prefix ++ names ++ [name])
  end.

(** ** A remote store shaped as a tree *)

#[warnings="-register-all"] Inductive rnode : Type :=
| RemoteFile
| RemoteDirectory (children : list (string * rnode)).

Module RemoteTree.

Definition is_directory (n : rnode) : bool :=
  match n with RemoteDirectory _ => true | RemoteFile => false end.

Fixpoint lookup_child (name : string) (children : list (string * rnode)) : option rnode :=
  match children with
  | [] => None
  | (n, r) :: rest => if decide (n = name) then Some r else lookup_child name rest
  end.

Fixpoint resolve (n : rnode) (target : path) : option rnode :=
  match target with
  | [] => Some n
  | name :: rest =>
      match n with
      | RemoteDirectory children =>
          match lookup_child name children with
          | Some r => resolve r rest
          | None => None
          end
      | RemoteFile => None
      end
  end.

(** the entries of the children of a collection in its listing *)
Definition child_entries (target : path) (children : list (string * rnode))
  : list (path * bool) :=
  (λ c, (target ++ [c.1], is_directory c.2)) <$> children.

(** Modelled from the spec: the remote store is an external collaborator.  A
    depth-1 listing of a target (§6) holds the entry of the target itself and,
    when the target is a collection, one entry for each of its immediate
    children, each with its directory indicator; a missing target has no
    entry. *)
Definition listing (root : rnode) (_ : unit) (target : path) : list (path * bool) :=
  match resolve root target with
  | None => []
  | Some RemoteFile => [(target, false)]
  | Some (RemoteDirectory children) => (target, true) :: child_entries target children
  end.

(** names are distinct in every collection *)
Fixpoint wf (n : rnode) : bool :=
  match n with
  | RemoteFile => true
  | RemoteDirectory children =>
      bool_decide (NoDup children.*1)
      && forallb (λ c, match c with (_, r) => wf r end) children
  end.

(** the get plan of the content of a collection, read off the tree: the
    downloads of its files, then for each of its collections the creation of
    the local directory and the plan of its content *)
Fixpoint contents_plan (target prefix : path) (n : rnode) : list GetAction :=
  match n with
  | RemoteFile => []
  | RemoteDirectory children =>
      ((λ c, DownloadRemoteFile (target ++ [c.1]) (prefix ++ [c.1]))
         <$> filter (λ c, is_directory c.2 = false) children)
      ++ flat_map
           (λ c, match c with
                 | (name, RemoteDirectory _ as sub) =>
                     CreateLocalDirectory (prefix ++ [name])
                     :: contents_plan (target ++ [name]) (prefix ++ [name]) sub
                 | (_, RemoteFile) => []
                 end)
           children
  end.

(** the get plan of a collection: its own local directory, unless it is the
    root, and the plan of its content *)
Definition collection_plan (target prefix : path) (n : rnode) : list GetAction :=
  match last target with
  | None => contents_plan target prefix n
  | Some name =>
      CreateLocalDirectory (prefix ++ [name])
      :: contents_plan target (prefix ++ [name]) n
  end.

End RemoteTree.

(** ** More scenarios *)

(** a response whose collection marker stands outside the resource type *)
Definition marker_outside_resourcetype : response :=
  {| status_code := 207;
     content :=
       Element "{DAV:}multistatus" None
         [Element "{DAV:}response" None
            [Element "{DAV:}href" (Some "/a%20b") [];
             Element "{DAV:}propstat" None
               [Element "{DAV:}prop" None
                  [Element "{DAV:}resourcetype" None [];
                   Element "{DAV:}supported-report-set" None
                     [Element "{DAV:}collection" None []]]]]] |}.


(** * Properties *)

(** ** Strings *)

Section StringFacts.

Lemma str_app_nil_l (s : string) : "" +:+ s = s.
Proof. reflexivity. Qed.

Lemma str_app_cons (c : ascii) (s t : string) : String c s +:+ t = String c (s +:+ t).
Proof. reflexivity. Qed.

Lemma str_app_nil_r (s : string) : s +:+ "" = s.
Proof. induction s as [|c s IH]; [done|]. by rewrite str_app_cons, IH. Qed.

Lemma str_app_assoc (a b c : string) : (a +:+ b) +:+ c = a +:+ b +:+ c.
Proof. induction a as [|x a IH]; [done|]. by rewrite !str_app_cons, IH. Qed.

Lemma nonempty_app_l (a b : string) : Str.nonempty a = true → Str.nonempty (a +:+ b) = true.
Proof. by destruct a. Qed.

Lemma nonempty_true (s : string) : Str.nonempty s = true ↔ s ≠ "".
Proof. destruct s; naive_solver. Qed.

Lemma startswith_app (a b : string) : Str.startswith (a +:+ b) a = true.
Proof.
  induction a as [|c a IH]; [by destruct b|].
  rewrite str_app_cons. simpl. by rewrite decide_True.
Qed.

Lemma startswith_slash_app (a b : string) :
  Str.nonempty a = true → Str.startswith (a +:+ b) "/" = Str.startswith a "/".
Proof. destruct a as [|c a]; [done|]. intros _. by rewrite str_app_cons. Qed.

Lemma split_not_nil (s : string) : Str.split s ≠ [].
Proof.
  induction s as [|c s IH]; [done|]. simpl.
  case_decide; [done|]. by destruct (Str.split s).
Qed.

Lemma split_app_slash (a b : string) :
  Str.split (a +:+ "/" +:+ b) = Str.split a ++ Str.split b.
Proof.
  induction a as [|c a IH].
  - done.
  - rewrite str_app_cons. simpl. case_decide; [by rewrite IH|].
    rewrite IH. pose proof (split_not_nil a). by destruct (Str.split a).
Qed.

Lemma split_slash_free (s : string) : Str.mem "/" s = false → Str.split s = [s].
Proof.
  induction s as [|c s IH]; [done|]. simpl.
  case_decide as Hc; [done|]. intros Hs. rewrite decide_False by done.
  by rewrite IH.
Qed.

Lemma split_join (l : list string) :
  l ≠ [] → Forall (λ x, Str.mem "/" x = false) l → Str.split (Str.join l) = l.
Proof.
  induction l as [|x l IH]; [done|]. intros _ Hl.
  apply Forall_cons in Hl as [Hx Hl].
  destruct l as [|y l]; [by apply split_slash_free|].
  change (Str.join (x :: y :: l)) with (x +:+ "/" +:+ Str.join (y :: l)).
  rewrite split_app_slash, IH by done. by rewrite split_slash_free.
Qed.

Lemma last_split_app_slash (a b : string) :
  last (Str.split (a +:+ "/" +:+ b)) = last (Str.split b).
Proof.
  rewrite split_app_slash. pose proof (split_not_nil b).
  destruct (Str.split b) as [|w ws] using rev_ind; [done|].
  by rewrite app_assoc, !last_snoc.
Qed.

End StringFacts.

(** ** [posixpath]: normalization and relative paths *)

Section PosixPathFacts.

Lemma split_slash_free_elems (s : string) :
  Forall (λ x, Str.mem "/" x = false) (Str.split s).
Proof.
  induction s as [|c s IH]; simpl.
  - by constructor.
  - case_decide as Hc; [by constructor|].
    pose proof (split_not_nil s). destruct (Str.split s) as [|w ws]; [done|].
    apply Forall_cons in IH as [Hw Hws]. constructor; [|done].
    simpl. by rewrite decide_False by done.
Qed.

Lemma normpath_step_abs (n1 n2 : nat) stack comp :
  n1 ≠ 0 → n2 ≠ 0 →
  posixpath.normpath_step n1 stack comp = posixpath.normpath_step n2 stack comp.
Proof.
  intros ??. unfold posixpath.normpath_step.
  by rewrite !(bool_decide_eq_false_2 (_ = 0)) by done.
Qed.

Lemma normpath_foldl_abs (n1 n2 : nat) comps stack :
  n1 ≠ 0 → n2 ≠ 0 →
  foldl (posixpath.normpath_step n1) stack comps
  = foldl (posixpath.normpath_step n2) stack comps.
Proof.
  intros ??. revert stack. induction comps as [|c comps IH]; intros stack; [done|].
  simpl. by rewrite IH, (normpath_step_abs n1 n2).
Qed.

Lemma valid_segment_spec (x : string) :
  valid_segment x = true ↔ x ≠ "" ∧ Str.mem "/" x = false ∧ x ≠ "." ∧ x ≠ "..".
Proof.
  unfold valid_segment. rewrite !andb_true_iff, !negb_true_iff, nonempty_true,
    !bool_decide_eq_false. naive_solver.
Qed.

Lemma normpath_step_push n stack x :
  valid_segment x = true → posixpath.normpath_step n stack x = stack ++ [x].
Proof.
  intros (? & ? & ? & ?)%valid_segment_spec. unfold posixpath.normpath_step.
  by rewrite !bool_decide_eq_false_2 by done.
Qed.

Lemma normpath_foldl_push n stack rl :
  Forall (λ x, valid_segment x = true) rl →
  foldl (posixpath.normpath_step n) stack rl = stack ++ rl.
Proof.
  revert stack. induction rl as [|x rl IH]; intros stack Hrl; simpl.
  - by rewrite app_nil_r.
  - apply Forall_cons in Hrl as [Hx Hrl].
    by rewrite normpath_step_push, IH, <-app_assoc.
Qed.

Lemma split_join_segments rl :
  Forall (λ x, valid_segment x = true) rl →
  Str.split (Str.join rl) = if decide (rl = []) then [""] else rl.
Proof.
  intros Hrl. case_decide as Hnil; [by subst|].
  apply split_join; [done|]. eapply Forall_impl; [done|].
  by intros x (? & ? & ? & ?)%valid_segment_spec.
Qed.

Lemma normpath_foldl_join n stack rl :
  Forall (λ x, valid_segment x = true) rl →
  foldl (posixpath.normpath_step n) stack (Str.split (Str.join rl)) = stack ++ rl.
Proof.
  intros Hrl. rewrite split_join_segments by done. case_decide as Hnil.
  - subst. simpl. by rewrite app_nil_r.
  - by apply normpath_foldl_push.
Qed.

Lemma initial_slashes_abs a x :
  Str.startswith a "/" = true → posixpath.initial_slashes (a +:+ x) ≠ 0.
Proof.
  intros Ha. unfold posixpath.initial_slashes.
  rewrite startswith_slash_app, Ha by (by destruct a).
  by destruct (_ && _).
Qed.

Lemma initial_slashes_abs' a :
  Str.startswith a "/" = true → posixpath.initial_slashes a ≠ 0.
Proof.
  intros Ha. unfold posixpath.initial_slashes. rewrite Ha. by destruct (_ && _).
Qed.

Lemma normcomps_extend a rl :
  Str.startswith a "/" = true →
  Forall (λ x, valid_segment x = true) rl →
  posixpath.normcomps (a +:+ "/" +:+ Str.join rl) = posixpath.normcomps a ++ rl.
Proof.
  intros Ha Hrl. unfold posixpath.normcomps.
  rewrite split_app_slash, foldl_app, normpath_foldl_join by done.
  f_equal.
  apply normpath_foldl_abs; [by apply initial_slashes_abs|by apply initial_slashes_abs'].
Qed.

(** the components that [normpath] keeps are non-empty and have no slash *)
Lemma normcomps_segments n comps stack :
  Forall (λ x, Str.mem "/" x = false) comps →
  Forall (λ x, x ≠ "" ∧ Str.mem "/" x = false) stack →
  Forall (λ x, x ≠ "" ∧ Str.mem "/" x = false)
    (foldl (posixpath.normpath_step n) stack comps).
Proof.
  revert stack. induction comps as [|c comps IH]; intros stack Hc Hs; [done|].
  apply Forall_cons in Hc as [Hc Hcs]. simpl. apply IH; [done|].
  unfold posixpath.normpath_step.
  destruct (bool_decide (c = "")) eqn:Hempty; simpl; [done|].
  apply bool_decide_eq_false in Hempty.
  destruct (bool_decide (c = ".")); simpl; [done|].
  destruct (_ || _).
  - apply Forall_app. split; [done|]. by repeat constructor.
  - destruct stack as [|x stack _] using rev_ind; [done|].
    rewrite removelast_last. by apply Forall_app in Hs as [? _].
Qed.

Lemma path_list_slashes n comps :
  n ≠ 0 →
  Forall (λ x, x ≠ "" ∧ Str.mem "/" x = false) comps →
  posixpath.path_list (posixpath.slashes_string n +:+ Str.join comps) = comps.
Proof.
  intros Hn Hcomps. unfold posixpath.path_list.
  assert (Hsplit : filter (λ x, Str.nonempty x = true) (Str.split (Str.join comps)) = comps).
  { destruct (decide (comps = [])) as [->|Hne]; [done|].
    rewrite split_join; [|done|by eapply Forall_impl; [done|]; intros ? [??]].
    clear Hne. induction Hcomps as [|x comps [Hx _] _ IH]; [done|].
    rewrite filter_cons_True by (by apply nonempty_true). by rewrite IH. }
  destruct n as [|[|n]]; [done| |]; simpl;
    by rewrite str_app_nil_l, !filter_cons_False by done.
Qed.

Lemma path_list_normpath a :
  Str.startswith a "/" = true →
  posixpath.path_list (posixpath.normpath a) = posixpath.normcomps a.
Proof.
  intros Ha. unfold posixpath.normpath.
  replace (Str.nonempty a) with true by (by destruct a). simpl.
  pose proof (initial_slashes_abs' a Ha) as Hn.
  replace (Str.nonempty _) with true.
  - apply path_list_slashes; [done|]. apply normcomps_segments; [|done].
    apply split_slash_free_elems.
  - by destruct (posixpath.initial_slashes a) as [|[|n]].
Qed.

Lemma abspath_extend cwd b x :
  posixpath.isabs cwd = true → Str.nonempty b = true →
  ∃ b', Str.startswith b' "/" = true
        ∧ posixpath.abspath cwd b = posixpath.normpath b'
        ∧ posixpath.abspath cwd (b +:+ x) = posixpath.normpath (b' +:+ x).
Proof.
  unfold posixpath.abspath, posixpath.isabs. intros Hcwd Hb.
  rewrite startswith_slash_app by done.
  destruct (Str.startswith b "/") eqn:Habs; [by exists b|].
  exists (posixpath.join2 cwd b). unfold posixpath.join2.
  rewrite startswith_slash_app, Habs by done.
  assert (Hne : Str.nonempty cwd = true) by (by destruct cwd).
  destruct (negb (Str.nonempty cwd) || Str.endswith_slash cwd).
  - by rewrite startswith_slash_app, str_app_assoc.
  - by rewrite startswith_slash_app, !str_app_assoc.
Qed.

Lemma commonprefix_len_app (l rl : list string) :
  posixpath.commonprefix_len l (l ++ rl) = length l.
Proof. induction l as [|x l IH]; simpl; [by destruct rl|]. by rewrite decide_True, IH. Qed.

(** [relpath] from a directory down to a path below it gives back the
    segments in between *)
Lemma relpath_extend cwd b rl :
  posixpath.isabs cwd = true → Str.nonempty b = true →
  Forall (λ x, valid_segment x = true) rl →
  posixpath.relpath cwd (b +:+ "/" +:+ Str.join rl) b
  = Ok (match rl with [] => "." | a :: rest => posixpath.join a rest end).
Proof.
  intros Hcwd Hb Hrl. unfold posixpath.relpath.
  rewrite nonempty_app_l by done. simpl.
  destruct (abspath_extend cwd b ("/" +:+ Str.join rl) Hcwd Hb) as (b' & Hb' & -> & ->).
  rewrite !path_list_normpath, normcomps_extend by (by rewrite ?startswith_slash_app by (by destruct b')).
  rewrite commonprefix_len_app, Nat.sub_diag, drop_app_length. by destruct rl.
Qed.

Lemma relpath_same cwd b :
  posixpath.isabs cwd = true → Str.nonempty b = true →
  posixpath.relpath cwd b b = Ok ".".
Proof.
  intros Hcwd Hb. unfold posixpath.relpath. rewrite Hb. simpl.
  pose proof (commonprefix_len_app (posixpath.path_list (posixpath.abspath cwd b)) []) as Hc.
  rewrite app_nil_r in Hc. by rewrite Hc, Nat.sub_diag, drop_all.
Qed.

Lemma startswith_slash_free x : Str.mem "/" x = false → Str.startswith x "/" = false.
Proof. destruct x as [|c x]; [done|]. simpl. by case_decide. Qed.

Lemma endswith_slash_app s x :
  Str.nonempty x = true → Str.endswith_slash (s +:+ x) = Str.endswith_slash x.
Proof.
  intros Hx. induction s as [|c s IH]; [done|]. rewrite str_app_cons. simpl.
  destruct (s +:+ x) eqn:Hsx; [|done]. by destruct s, x.
Qed.

Lemma endswith_slash_free x : Str.mem "/" x = false → Str.endswith_slash x = false.
Proof.
  induction x as [|c x IH]; [done|]. simpl. case_decide as Hc; [done|]. intros Hx.
  destruct x; [|by apply IH]. apply bool_decide_eq_false_2. congruence.
Qed.

Lemma join2_segment acc x :
  Str.nonempty acc = true → Str.endswith_slash acc = false →
  Str.mem "/" x = false →
  posixpath.join2 acc x = acc +:+ "/" +:+ x.
Proof.
  intros Hacc Hend Hx. unfold posixpath.join2.
  by rewrite startswith_slash_free, Hacc, Hend.
Qed.

Lemma join_segments acc rest :
  Str.nonempty acc = true → Str.endswith_slash acc = false →
  Forall (λ x, valid_segment x = true) rest →
  posixpath.join acc rest = Str.join (acc :: rest).
Proof.
  unfold posixpath.join. revert acc.
  induction rest as [|x rest IH]; intros acc Hacc Hend Hrest; [done|].
  apply Forall_cons in Hrest as [(Hx1 & Hx2 & _)%valid_segment_spec Hrest].
  simpl foldl. rewrite join2_segment by done. rewrite IH.
  - destruct rest; [done|].
    change (Str.join ((acc +:+ "/" +:+ x) :: s :: rest))
      with ((acc +:+ "/" +:+ x) +:+ "/" +:+ Str.join (s :: rest)).
    by rewrite !str_app_assoc.
  - by apply nonempty_app_l.
  - rewrite !endswith_slash_app by (by apply nonempty_true).
    by apply endswith_slash_free.
  - done.
Qed.

Lemma valid_segment_join_head a :
  valid_segment a = true → Str.nonempty a = true ∧ Str.endswith_slash a = false.
Proof.
  intros (? & ? & _)%valid_segment_spec. split; [by apply nonempty_true|].
  by apply endswith_slash_free.
Qed.

End PosixPathFacts.

(** ** The path parsers (C6, C7) *)

Section Parsers.

Lemma normalize_none (segs : list string) : foldl normalize_segment None segs = None.
Proof. by induction segs. Qed.

Lemma truthy_cons_false (cs : path) : COWList.truthy cs = false → cs = [].
Proof. by destruct cs. Qed.

(** On the verbs of a list of segments, the loop of the remote parser computes
    the normalization, and raises where the normalization pops past the root. *)
Lemma remote_verbs_normalize (p : string) (segs : list string) (cs : path) :
  for_each (remote_verb p) (flat_map fspathverbs.segment_verb segs) cs
  = match foldl normalize_segment (Some cs) segs with
    | Some cs' => Ok cs'
    | None => Raise (ValueError ("Invalid remote path: " +:+ p))
    end.
Proof.
  revert cs. induction segs as [|seg segs IH]; intros cs; [done|].
  simpl. unfold fspathverbs.segment_verb.
  repeat case_decide; subst; simpl; try done.
  destruct cs; simpl; [by rewrite normalize_none|]. apply IH.
Qed.

Lemma local_verbs_normalize (p : string) (segs : list string) (cs : path) :
  for_each (local_verb p) (flat_map fspathverbs.segment_verb segs) cs
  = match foldl normalize_segment (Some cs) segs with
    | Some cs' => Ok cs'
    | None => Raise (ValueError ("Invalid relative local path: " +:+ p))
    end.
Proof.
  revert cs. induction segs as [|seg segs IH]; intros cs; [done|].
  simpl. unfold fspathverbs.segment_verb.
  repeat case_decide; subst; simpl; try done.
  destruct cs; simpl; [by rewrite normalize_none|]. apply IH.
Qed.

Lemma remote_parse_normalized (p : string) :
  remote_path_to_remote_path_components p
  = match normalized_components p with
    | Some cs => Ok cs
    | None => Raise (ValueError ("Invalid remote path: " +:+ p))
    end.
Proof.
  unfold remote_path_to_remote_path_components, remote_components_of_verbs,
    fspathverbs.compile_to_fspathverbs, normalized_components.
  destruct (Str.startswith p "/"); simpl; apply remote_verbs_normalize.
Qed.

Lemma local_parse_normalized (p : string) :
  relative_local_path_to_relative_local_path_components p
  = if posixpath.isabs p
    then Raise (ValueError ("Invalid relative local path: " +:+ p))
    else match normalized_components p with
         | Some cs => Ok cs
         | None => Raise (ValueError ("Invalid relative local path: " +:+ p))
         end.
Proof.
  unfold relative_local_path_to_relative_local_path_components,
    local_components_of_verbs, fspathverbs.compile_to_fspathverbs,
    normalized_components, posixpath.isabs.
  destruct (Str.startswith p "/"); simpl; [done|]. apply local_verbs_normalize.
Qed.

End Parsers.

(** C6, as the code has it.  For every path string whose segments are balanced
    (no [..] is applied to the empty sequence), the remote parser returns the
    normalized component sequence ([.] is a no-op, [..] pops the last
    component, any other segment is pushed, a leading root marker resets to the
    empty sequence); the local-relative parser returns it too when the path
    has no root marker, which it rejects. *)
Theorem parsers_normalize (p : string) (cs : path) :
  normalized_components p = Some cs →
  remote_path_to_remote_path_components p = Ok cs
  ∧ (posixpath.isabs p = false →
     relative_local_path_to_relative_local_path_components p = Ok cs).
Proof.
  intros Hn. rewrite remote_parse_normalized, local_parse_normalized, Hn.
  split; [done|]. by intros ->.
Qed.

Lemma parsers_normalize_witness :
  remote_path_to_remote_path_components "a/./b/../c" = Ok ["a"; "c"]
  ∧ (posixpath.isabs "a/./b/../c" = false →
     relative_local_path_to_relative_local_path_components "a/./b/../c" = Ok ["a"; "c"]).
Proof. apply (parsers_normalize "a/./b/../c" ["a"; "c"]). reflexivity. Defined.

(** C6 as stated fails on the local-relative parser: the segments of [/a] are
    balanced and normalize to [a], and the parser raises at the root marker. *)
Lemma local_parser_rejects_balanced_absolute_path :
  normalized_components "/a" = Some ["a"]
  ∧ relative_local_path_to_relative_local_path_components "/a"
    = Raise (ValueError "Invalid relative local path: /a")
  ∧ ¬ (∀ p cs, normalized_components p = Some cs →
         relative_local_path_to_relative_local_path_components p = Ok cs
         ∧ remote_path_to_remote_path_components p = Ok cs).
Proof.
  split; [done|]. split; [done|].
  intros H. by destruct (H "/a" ["a"] eq_refl) as [? _].
Qed.

(** C7, as the code has it.  When some [..] is applied to the empty sequence,
    both parsers raise their [ValueError]; the remote parser succeeds exactly
    when no such pop occurs, and the local-relative parser succeeds exactly
    when no such pop occurs and the path has no root marker. *)
Theorem parsers_fail_past_root (p : string) :
  (normalized_components p = None →
   remote_path_to_remote_path_components p
   = Raise (ValueError ("Invalid remote path: " +:+ p))
   ∧ relative_local_path_to_relative_local_path_components p
     = Raise (ValueError ("Invalid relative local path: " +:+ p)))
  ∧ (is_ok (remote_path_to_remote_path_components p) = true
     ↔ is_Some (normalized_components p))
  ∧ (is_ok (relative_local_path_to_relative_local_path_components p) = true
     ↔ is_Some (normalized_components p) ∧ posixpath.isabs p = false).
Proof.
  rewrite remote_parse_normalized, local_parse_normalized.
  destruct (normalized_components p) as [cs|] eqn:Hn;
    destruct (posixpath.isabs p); simpl; unfold is_Some; naive_solver.
Qed.

Lemma parsers_fail_past_root_witness :
  remote_path_to_remote_path_components "/../x"
  = Raise (ValueError "Invalid remote path: /../x")
  ∧ relative_local_path_to_relative_local_path_components "/../x"
    = Raise (ValueError "Invalid relative local path: /../x").
Proof. apply (parsers_fail_past_root "/../x"). reflexivity. Defined.

(** C7 as stated fails on the local-relative parser: no [..] of [/x] pops past
    the root, and the parser raises all the same. *)
Lemma local_parser_fails_without_pop :
  is_Some (normalized_components "/x")
  ∧ is_ok (relative_local_path_to_relative_local_path_components "/x") = false
  ∧ ¬ (∀ p, is_ok (relative_local_path_to_relative_local_path_components p) = true
            ↔ is_Some (normalized_components p)).
Proof.
  split; [by eexists|]. split; [done|].
  intros H. assert (Hok : is_Some (normalized_components "/x")) by (by eexists).
  by apply H in Hok.
Qed.

(** ** The directory-creation planner (C4, C10) *)

Section DirectoryCreation.

Context {St : Type}.
Variable create : path → St → bool * St.

Lemma create_directories_root (fuel : nat) (st : St) :
  create_directories_from_remote_path_components create (S fuel) [] st = Some (true, st).
Proof. done. Qed.

Lemma create_directories_unfold (fuel : nat) (p : path) (st : St) :
  p ≠ [] →
  create_directories_from_remote_path_components create (S fuel) p st
  = match create p st with
    | (true, st1) => Some (true, st1)
    | (false, st1) =>
        match create_directories_from_remote_path_components create fuel
                (removelast p) st1 with
        | None => None
        | Some (true, st2) => Some (create p st2)
        | Some (false, st2) => Some (false, st2)
        end
    end.
Proof.
  intros Hp. destruct p as [|x p]; [done|]. simpl.
  by destruct (create (x :: p) st) as [[] st1].
Qed.

(** Enough fuel gives a result, and more fuel gives the same one. *)
Lemma create_directories_total (p : path) :
  ∀ st, ∃ r, ∀ fuel, length p < fuel →
    create_directories_from_remote_path_components create fuel p st = Some r.
Proof.
  induction p as [|x p IH] using rev_ind; intros st.
  - exists (true, st). intros [|fuel] ?; [lia|done].
  - destruct (create (p ++ [x]) st) as [created st1] eqn:Hc.
    destruct (IH st1) as [[ensured st2] Hr].
    exists (if created then (true, st1)
            else if ensured then create (p ++ [x]) st2 else (false, st2)).
    intros [|fuel] Hf; [lia|].
    rewrite create_directories_unfold, Hc by (by destruct p).
    destruct created; [done|].
    rewrite removelast_last, Hr; [by destruct ensured|].
    rewrite length_app in Hf. simpl in Hf. lia.
Qed.

End DirectoryCreation.

(** C10.  For every finite component sequence and whatever the transport
    answers to each creation request, the recursive directory creation
    terminates: a recursion depth above the length of the sequence is enough
    for it to return (and the result does not depend on the depth allowed),
    because each recursive call drops the last component and the empty
    sequence is a base case. *)
Theorem create_directories_terminates {St : Type}
  (create : path → St → bool * St) (p : path) (st : St) (fuel : nat) :
  length p < fuel →
  ∃ r, create_directories_from_remote_path_components create fuel p st = Some r
       ∧ ∀ fuel', length p < fuel' →
           create_directories_from_remote_path_components create fuel' p st = Some r.
Proof.
  intros Hf. destruct (create_directories_total create p st) as [r Hr].
  exists r. split; [by apply Hr|done].
Qed.

Lemma create_directories_terminates_witness :
  ∃ r, create_directories_from_remote_path_components
         (logging DavStore.mkcol) 4 ["a"; "b"; "c"] (∅, []) = Some r
       ∧ ∀ fuel', length ["a"; "b"; "c"] < fuel' →
           create_directories_from_remote_path_components
             (logging DavStore.mkcol) fuel' ["a"; "b"; "c"] (∅, []) = Some r.
Proof.
  apply (create_directories_terminates (logging DavStore.mkcol) ["a"; "b"; "c"] (∅, []) 4).
  simpl. lia.
Defined.

Section DavStoreFacts.

Implicit Types (s : gset path) (q m p : path).


Lemma chain_snoc q m x : chain q (m ++ [x]) = chain q m ++ [q ++ m ++ [x]].
Proof.
  unfold chain. rewrite length_app. simpl. rewrite Nat.add_1_r, seq_S, fmap_app. simpl.
  f_equal.
  - apply list_fmap_ext. intros i j Hj. apply lookup_seq in Hj as [-> Hj]. simpl.
    by rewrite (take_app_le m [x] (S i)) by lia.
  - by rewrite (take_app_ge m [x]), take_ge by (simpl; lia).
Qed.

Lemma elem_of_chain q m p :
  p ∈ chain q m ↔ ∃ i, 0 < i ≤ length m ∧ p = q ++ take i m.
Proof.
  unfold chain. rewrite list_elem_of_fmap. split.
  - intros (i & -> & Hi). apply elem_of_seq in Hi. exists (S i). split; [lia|done].
  - intros (i & Hi & ->). exists (pred i). split; [by replace (S (pred i)) with i by lia|].
    apply elem_of_seq. lia.
Qed.

Lemma chain_length q m p : p ∈ chain q m → length q < length p ≤ length q + length m.
Proof.
  intros (i & Hi & ->)%elem_of_chain. rewrite length_app, length_take. lia.
Qed.

Lemma logging_mkcol p s log :
  logging DavStore.mkcol p (s, log)
  = if DavStore.exists_collection s (removelast p)
       && negb (DavStore.exists_collection s p)
    then (true, ({[p]} ∪ s, log ++ [p]))
    else (false, (s, log ++ [p])).
Proof.
  unfold logging, DavStore.mkcol. simpl.
  by destruct (DavStore.exists_collection s (removelast p)
               && negb (DavStore.exists_collection s p)).
Qed.

Lemma exists_collection_false s p :
  p ≠ [] → p ∉ s → DavStore.exists_collection s p = false.
Proof. intros ??. apply bool_decide_eq_false_2. naive_solver. Qed.

Lemma exists_collection_true s p :
  p ∈ s → DavStore.exists_collection s p = true.
Proof. intros ?. apply bool_decide_eq_true_2. by right. Qed.

Lemma chain_last q m : m ≠ [] → q ++ m ∈ chain q m.
Proof.
  intros Hm. apply elem_of_chain. exists (length m).
  rewrite take_ge by lia. split; [|done]. destruct m; [done|simpl; lia].
Qed.

(** When the collection [q] exists and none of the collections of the chain
    down to [q ++ m] does, the planner creates them all, with [2k - 1]
    requests for the [k] missing collections. *)
Lemma create_directories_chain q m :
  m ≠ [] →
  ∀ s log fuel,
    DavStore.exists_collection s q = true →
    (∀ p, p ∈ chain q m → p ∉ s) →
    length m ≤ fuel →
    ∃ requests,
      create_directories_from_remote_path_components (logging DavStore.mkcol)
        fuel (q ++ m) (s, log)
      = Some (true, (list_to_set (chain q m) ∪ s, log ++ requests))
      ∧ length requests = 2 * length m - 1.
Proof.
  induction m as [|x m IH] using rev_ind; [done|]. intros _ s log fuel Hq Hmiss Hf.
  rewrite length_app in Hf. simpl in Hf.
  destruct fuel as [|fuel]; [lia|].
  rewrite app_assoc, create_directories_unfold by (by destruct (q ++ m)).
  rewrite <-app_assoc.
  assert (Hnew : q ++ m ++ [x] ∉ s).
  { apply Hmiss. rewrite chain_snoc. set_solver. }
  assert (Hne : q ++ m ++ [x] ≠ []) by (by destruct q, m).
  assert (Hparent : removelast (q ++ m ++ [x]) = q ++ m).
  { by rewrite app_assoc, removelast_last. }
  rewrite logging_mkcol, Hparent, (exists_collection_false s (q ++ m ++ [x])) by done.
  destruct (decide (m = [])) as [->|Hm].
  - (* the parent exists: the first request succeeds *)
    exists [q ++ [x]]. rewrite app_nil_r in *. rewrite Hq. simpl.
    split; [|done]. f_equal. f_equal. f_equal. unfold chain. simpl. set_solver.
  - (* the parent is missing: fail, create the parent chain, retry *)
    assert (Hpm : q ++ m ∉ s).
    { apply Hmiss. rewrite chain_snoc. apply elem_of_app. left. by apply chain_last. }
    rewrite (exists_collection_false s (q ++ m)) by (by destruct q, m). simpl.
    destruct (IH Hm s (log ++ [q ++ m ++ [x]]) fuel Hq) as (reqs & -> & Hlen); [|lia|].
    { intros p Hp. apply Hmiss. rewrite chain_snoc. set_solver. }
    exists ([q ++ m ++ [x]] ++ reqs ++ [q ++ m ++ [x]]).
    rewrite logging_mkcol, Hparent.
    rewrite exists_collection_true; last first.
    { apply elem_of_union. left. apply elem_of_list_to_set. by apply chain_last. }
    rewrite exists_collection_false; [|done|]; last first.
    { intros [Hin|?]%elem_of_union; [|done].
      apply elem_of_list_to_set, chain_length in Hin.
      rewrite !length_app in Hin. simpl in Hin. lia. }
    simpl. split.
    + f_equal. f_equal. f_equal; [|by rewrite <-!app_assoc].
      rewrite chain_snoc, list_to_set_app_L. set_solver.
    + simpl. rewrite !length_app, Hlen. simpl.
      destruct m; [done|simpl; lia].
Qed.

End DavStoreFacts.

(** C4, as the code has it.  On the empty (root) path the planner returns true
    and leaves the store untouched (no request).  On a non-empty path it first
    attempts the direct creation at full depth and returns true if that
    succeeds; otherwise it ensures the path without its last segment and, if
    that succeeds, retries the direct creation once and returns its result; if
    the parent cannot be ensured it returns false.  On a store where the
    collection [q] exists and none of the [k ≥ 1] collections below it on the
    way to [q ++ m] does, it returns true after exactly [2k - 1] creation
    requests: one request when only the final segment is missing. *)
Theorem ensure_directory_requests {St : Type} (create : path → St → bool * St)
  (st : St) (p : path) (x : string) (fuel : nat)
  (s : gset path) (q m : path) (log : list path) :
  m ≠ [] →
  DavStore.exists_collection s q = true →
  (∀ p', p' ∈ chain q m → p' ∉ s) →
  length m ≤ fuel →
  create_directories_from_remote_path_components create (S fuel) [] st = Some (true, st)
  ∧ create_directories_from_remote_path_components create (S fuel) (p ++ [x]) st
    = match create (p ++ [x]) st with
      | (true, st1) => Some (true, st1)
      | (false, st1) =>
          match create_directories_from_remote_path_components create fuel p st1 with
          | None => None
          | Some (true, st2) => Some (create (p ++ [x]) st2)
          | Some (false, st2) => Some (false, st2)
          end
      end
  ∧ ∃ requests,
      create_directories_from_remote_path_components (logging DavStore.mkcol)
        fuel (q ++ m) (s, log)
      = Some (true, (list_to_set (chain q m) ∪ s, log ++ requests))
      ∧ length requests = 2 * length m - 1.
Proof.
  intros Hm Hq Hmiss Hf. split; [done|]. split.
  - rewrite create_directories_unfold by (by destruct p).
    by rewrite removelast_last.
  - by apply create_directories_chain.
Qed.

Lemma ensure_directory_requests_witness :
  create_directories_from_remote_path_components (logging DavStore.mkcol) 3 [] (∅, [])
  = Some (true, (∅, []))
  ∧ create_directories_from_remote_path_components (logging DavStore.mkcol) 3
      (["a"] ++ ["b"]) (∅, [])
    = match logging DavStore.mkcol (["a"] ++ ["b"]) (∅, []) with
      | (true, st1) => Some (true, st1)
      | (false, st1) =>
          match create_directories_from_remote_path_components
                  (logging DavStore.mkcol) 2 ["a"] st1 with
          | None => None
          | Some (true, st2) => Some (logging DavStore.mkcol (["a"] ++ ["b"]) st2)
          | Some (false, st2) => Some (false, st2)
          end
      end
  ∧ ∃ requests,
      create_directories_from_remote_path_components (logging DavStore.mkcol)
        2 (["a"] ++ ["b"; "c"]) ({[ ["a"] ]}, [])
      = Some (true, (list_to_set (chain ["a"] ["b"; "c"]) ∪ {[ ["a"] ]}, [] ++ requests))
      ∧ length requests = 2 * length ["b"; "c"] - 1.
Proof.
  apply (ensure_directory_requests (logging DavStore.mkcol) (∅, []) ["a"] "b" 2
           {[ ["a"] ]} ["a"] ["b"; "c"] []).
  - done.
  - apply bool_decide_eq_true_2. right. by apply elem_of_singleton.
  - intros p' Hp' Hs. apply elem_of_singleton in Hs. subst p'.
    apply chain_length in Hp'. simpl in Hp'. lia.
  - simpl. lia.
Defined.

(** C4 as stated fails: when the immediate parent exists and the final segment
    does not, the direct creation succeeds at once, so the planner issues one
    creation request, not two. *)
Lemma one_request_when_parent_exists :
  DavStore.exists_collection {[ ["a"] ]} ["a"] = true
  ∧ DavStore.exists_collection {[ ["a"] ]} ["a"; "b"] = false
  ∧ ∃ s' requests,
      create_directories_from_remote_path_components (logging DavStore.mkcol)
        3 ["a"; "b"] ({[ ["a"] ]}, []) = Some (true, (s', requests))
      ∧ requests = [["a"; "b"]]
      ∧ length requests ≠ 2.
Proof.
  assert (H1 : DavStore.exists_collection {[ ["a"] ]} ["a"] = true).
  { apply bool_decide_eq_true_2. right. by apply elem_of_singleton. }
  assert (H2 : DavStore.exists_collection {[ ["a"] ]} ["a"; "b"] = false).
  { apply bool_decide_eq_false_2. intros [?|Hs]; [done|].
    by apply elem_of_singleton in Hs. }
  split; [done|]. split; [done|].
  eexists _, _. split; [|split; [reflexivity|done]].
  rewrite (create_directories_unfold _ 2 ["a"; "b"]) by done.
  rewrite logging_mkcol. simpl removelast. by rewrite H1, H2.
Qed.

(** ** The listing classifier (C1) *)

Section Classifier.

Implicit Types (d : pydict.t bool) (k p target : path) (v : bool)
  (pairs : list (path * bool)).


Lemma pydict_get_set d k v k' :
  pydict.get (pydict.set d k v) k' = if decide (k = k') then Some v else pydict.get d k'.
Proof.
  induction d as [|[k0 v0] d IH]; simpl.
  - done.
  - destruct (decide (k0 = k)) as [->|Hk0]; simpl.
    + by destruct (decide (k = k')).
    + rewrite IH. destruct (decide (k0 = k')) as [->|]; [|done].
      by rewrite decide_False by done.
Qed.

Lemma pydict_set_keys d k v :
  (pydict.set d k v).*1 = if decide (k ∈ d.*1) then d.*1 else d.*1 ++ [k].
Proof.
  induction d as [|[k0 v0] d IH]; csimpl; [done|].
  destruct (decide (k0 = k)) as [->|Hk0]; csimpl.
  - by rewrite decide_True by left.
  - rewrite IH. destruct (decide (k ∈ d.*1)).
    + by rewrite decide_True by (by right).
    + rewrite decide_False; [done|]. by intros [?|?]%elem_of_cons.
Qed.

Lemma pydict_set_NoDup d k v : NoDup d.*1 → NoDup (pydict.set d k v).*1.
Proof.
  intros Hd. rewrite pydict_set_keys. case_decide; [done|].
  apply NoDup_app. split_and!; [done| |apply NoDup_singleton].
  intros x Hx ->%list_elem_of_singleton. done.
Qed.

(** [dict(pairs)] has each key once and denotes the mapping of the listing. *)
Lemma pydict_of_pairs pairs :
  NoDup (pydict.of_pairs pairs).*1
  ∧ ∀ k, pydict.get (pydict.of_pairs pairs) k = listing_map pairs !! k.
Proof.
  unfold pydict.of_pairs, listing_map.
  assert (H : ∀ d (m : gmap path bool),
    NoDup d.*1 → (∀ k, pydict.get d k = m !! k) →
    NoDup (foldl (λ d kv, pydict.set d kv.1 kv.2) d pairs).*1
    ∧ ∀ k, pydict.get (foldl (λ d kv, pydict.set d kv.1 kv.2) d pairs) k
           = foldl (λ m kv, <[kv.1 := kv.2]> m) m pairs !! k).
  { induction pairs as [|[k0 v0] pairs IH]; intros d m Hd Hm; [done|].
    csimpl. apply IH; [by apply pydict_set_NoDup|].
    intros k. by rewrite pydict_get_set, lookup_insert, Hm. }
  apply H; [constructor|done].
Qed.

Lemma pydict_get_None d k : pydict.get d k = None ↔ k ∉ d.*1.
Proof.
  induction d as [|[k0 v0] d IH]; csimpl.
  - split; [intros _; apply not_elem_of_nil|done].
  - rewrite not_elem_of_cons. case_decide; naive_solver.
Qed.

Lemma pydict_get_Some d k v : NoDup d.*1 → pydict.get d k = Some v ↔ (k, v) ∈ d.
Proof.
  induction d as [|[k0 v0] d IH]; csimpl; intros Hd.
  - split; [done|]. by intros ?%elem_of_nil.
  - apply NoDup_cons in Hd as [Hk0 Hd]. rewrite elem_of_cons, <-IH by done.
    destruct (decide (k0 = k)) as [->|].
    + split; [naive_solver|]. intros [?|Hg]; [naive_solver|].
      destruct Hk0. apply dec_stable. rewrite <-pydict_get_None. congruence.
    + naive_solver.
Qed.

Lemma pydict_del_elem d k p v :
  NoDup d.*1 → (p, v) ∈ pydict.del d k ↔ p ≠ k ∧ (p, v) ∈ d.
Proof.
  induction d as [|[k0 v0] d IH]; csimpl; intros Hd.
  - split; [by intros ?%elem_of_nil|]. by intros [_ ?%elem_of_nil].
  - apply NoDup_cons in Hd as [Hk0 Hd]. destruct (decide (k0 = k)) as [->|].
    + rewrite elem_of_cons. split.
      * intros Hin. split; [|by right]. intros ->.
        destruct Hk0. by apply (list_elem_of_fmap_2 fst) in Hin.
      * intros [? [?|?]]; [naive_solver|done].
    + rewrite !elem_of_cons, IH by done. naive_solver.
Qed.

Lemma pydict_del_keys d k : (pydict.del d k).*1 `sublist_of` d.*1.
Proof.
  induction d as [|[k0 v0] d IH]; csimpl; [done|].
  case_decide; csimpl; [by apply sublist_cons|by apply sublist_skip].
Qed.

Lemma classify_fold d files directories :
  foldl classify_item (files, directories) d
  = (files ++ files_of d, directories ++ directories_of d).
Proof.
  revert files directories. unfold files_of, directories_of.
  induction d as [|[k [|]] d IH]; intros files directories.
  - simpl. by rewrite !app_nil_r.
  - rewrite filter_cons_False, filter_cons_True by (simpl; done).
    simpl foldl. rewrite IH. csimpl. by rewrite <-app_assoc.
  - rewrite filter_cons_True, filter_cons_False by (simpl; done).
    simpl foldl. rewrite IH. csimpl. by rewrite <-app_assoc.
Qed.

Lemma elem_of_files_of d p : p ∈ files_of d ↔ (p, false) ∈ d.
Proof.
  unfold files_of. rewrite list_elem_of_fmap. split.
  - intros ([p' v] & -> & [Hv Hin]%list_elem_of_filter). csimpl in *. by subst.
  - intros Hin. exists (p, false). split; [done|]. by apply list_elem_of_filter.
Qed.

Lemma elem_of_directories_of d p : p ∈ directories_of d ↔ (p, true) ∈ d.
Proof.
  unfold directories_of. rewrite list_elem_of_fmap. split.
  - intros ([p' v] & -> & [Hv Hin]%list_elem_of_filter). csimpl in *. by subst.
  - intros Hin. exists (p, true). split; [done|]. by apply list_elem_of_filter.
Qed.

Lemma files_directories_NoDup d :
  NoDup d.*1 → NoDup (files_of d ++ directories_of d).
Proof.
  induction d as [|[k v] d IH]; intros Hd; [constructor|].
  rewrite fmap_cons in Hd. apply NoDup_cons in Hd as [Hk Hd].
  assert (Hfresh : k ∉ files_of d ++ directories_of d).
  { rewrite elem_of_app, elem_of_files_of, elem_of_directories_of.
    intros [Hin|Hin]; apply (list_elem_of_fmap_2 fst) in Hin; done. }
  unfold files_of, directories_of in *. destruct v.
  - rewrite filter_cons_False, filter_cons_True by (simpl; done). csimpl.
    rewrite <-Permutation_middle. apply NoDup_cons. auto.
  - rewrite filter_cons_True, filter_cons_False by (simpl; done). csimpl.
    apply NoDup_cons. auto.
Qed.

Lemma listing_map_None pairs p : listing_map pairs !! p = None ↔ p ∉ pairs.*1.
Proof.
  unfold listing_map.
  assert (H : ∀ (m : gmap path bool),
    foldl (λ m kv, <[kv.1 := kv.2]> m) m pairs !! p = None
    ↔ m !! p = None ∧ p ∉ pairs.*1).
  { induction pairs as [|[k v] pairs IH]; intros m; csimpl.
    - split; [intros ?; split; [done|apply not_elem_of_nil]|by intros []].
    - rewrite IH, lookup_insert, not_elem_of_cons. csimpl.
      case_decide; naive_solver. }
  rewrite H, lookup_empty. naive_solver.
Qed.

(** the case analysis of [classify], by the mapping of the listing *)
Lemma classify_cases target pairs :
  match classify target pairs with
  | NotFound => listing_map pairs !! target = None
  | IsFile file => listing_map pairs !! target = Some false ∧ file = target
  | IsDirectory files directories =>
      listing_map pairs !! target = Some true
      ∧ (∀ p, p ∈ files ↔ p ≠ target ∧ listing_map pairs !! p = Some false)
      ∧ (∀ p, p ∈ directories ↔ p ≠ target ∧ listing_map pairs !! p = Some true)
      ∧ (∀ p, p ∈ files ++ directories ↔ p ≠ target ∧ p ∈ pairs.*1)
      ∧ NoDup (files ++ directories)
  end.
Proof.
  unfold classify. destruct (pydict_of_pairs pairs) as [Hnd Hget].
  rewrite Hget. destruct (listing_map pairs !! target) as [[|]|] eqn:Ht; [|done..].
  unfold pydict.items. rewrite classify_fold. simpl.
  assert (Hsub : NoDup (pydict.del (pydict.of_pairs pairs) target).*1).
  { eapply sublist_NoDup; [|apply pydict_del_keys]. done. }
  assert (Hmem : ∀ p v, (p, v) ∈ pydict.del (pydict.of_pairs pairs) target
                        ↔ p ≠ target ∧ listing_map pairs !! p = Some v).
  { intros p v. by rewrite pydict_del_elem, <-pydict_get_Some, Hget by done. }
  split_and!; [done| | | |by apply files_directories_NoDup].
  - intros p. by rewrite elem_of_files_of, Hmem.
  - intros p. by rewrite elem_of_directories_of, Hmem.
  - intros p. rewrite elem_of_app, elem_of_files_of, elem_of_directories_of, !Hmem.
    assert (Hin : p ∈ pairs.*1 ↔ is_Some (listing_map pairs !! p)).
    { rewrite <-not_eq_None_Some, listing_map_None.
      split; [auto|apply dec_stable]. }
    rewrite Hin. unfold is_Some.
    destruct (listing_map pairs !! p) as [[|]|]; naive_solver.
Qed.

Lemma listing_map_Some pairs p v : listing_map pairs !! p = Some v → (p, v) ∈ pairs.
Proof.
  unfold listing_map.
  assert (H : ∀ (m : gmap path bool),
    foldl (λ m kv, <[kv.1 := kv.2]> m) m pairs !! p = Some v
    → m !! p = Some v ∨ (p, v) ∈ pairs).
  { induction pairs as [|[k0 v0] pairs IH]; intros m; simpl; [by left|].
    intros [Hm|Hin]%IH; [|by right; right].
    rewrite lookup_insert in Hm. simpl in Hm. case_decide; [|by left].
    right. simplify_eq. left. }
  intros [Hm|?]%H; [|done]. by rewrite lookup_empty in Hm.
Qed.

End Classifier.

(** C1.  For every target path and every listing, [classify] decides by the
    mapping from entry path to directory flag that the listing denotes: it
    returns [NotFound] when the target is absent from the mapping, [IsFile]
    with the target path when it is flagged as a file, and [IsDirectory] when
    it is flagged as a directory; the contained files are then exactly the
    other paths flagged as files, the contained directories exactly the other
    paths flagged as directories, so that every listed path other than the
    target is in exactly one of the two and the target is in neither. *)
Theorem classify_partitions (target : path) (pairs : list (path * bool)) :
  match classify target pairs with
  | NotFound => listing_map pairs !! target = None
  | IsFile file => listing_map pairs !! target = Some false ∧ file = target
  | IsDirectory files directories =>
      listing_map pairs !! target = Some true
      ∧ (∀ p, p ∈ files ↔ p ≠ target ∧ listing_map pairs !! p = Some false)
      ∧ (∀ p, p ∈ directories ↔ p ≠ target ∧ listing_map pairs !! p = Some true)
      ∧ (∀ p, p ∈ files ++ directories ↔ p ≠ target ∧ p ∈ pairs.*1)
      ∧ NoDup (files ++ directories)
  end.
Proof. apply classify_cases. Qed.


(** ** Generators *)

Section Streams.

Context {A B : Type}.
Implicit Types (s : stream B) (body : A → stream B).

Lemma and_then_returned s1 s2 acts :
  and_then s1 s2 = (acts, Returned)
  ↔ ∃ a1 a2, s1 = (a1, Returned) ∧ s2 = (a2, Returned) ∧ acts = a1 ++ a2.
Proof.
  unfold and_then. destruct s1 as [a1 [|e|]], s2 as [a2 e2]; simpl; naive_solver.
Qed.


Lemma for_yield_cons body x xs :
  for_yield body (x :: xs) = and_then (body x) (for_yield body xs).
Proof. done. Qed.


End Streams.

Section StreamElements.
Context {A B : Type}.

Lemma and_then_yields (xs ys : list B) : and_then (yields xs) (yields ys) = yields (xs ++ ys).
Proof. done. Qed.

Lemma for_yield_app (body : A → stream B) (xs ys : list A) :
  for_yield body (xs ++ ys) = and_then (for_yield body xs) (for_yield body ys).
Proof.
  induction xs as [|x xs IH].
  - simpl. by destruct (for_yield body ys).
  - rewrite <-app_comm_cons, !for_yield_cons, IH. unfold and_then.
    destruct (body x) as [a1 [|e1|]], (for_yield body xs) as [a2 [|e2|]]; simpl; try done.
    by rewrite app_assoc.
Qed.

Lemma and_then_elem (s1 s2 : stream B) (a : B) :
  a ∈ (and_then s1 s2).1 → a ∈ s1.1 ∨ a ∈ s2.1.
Proof.
  unfold and_then. destruct s1 as [a1 [|e1|]]; simpl; auto.
  by intros ?%elem_of_app.
Qed.

Lemma for_yield_elem (body : A → stream B) (xs : list A) (a : B) :
  a ∈ (for_yield body xs).1 → ∃ x, x ∈ xs ∧ a ∈ (body x).1.
Proof.
  induction xs as [|x xs IH]; [by intros ?%elem_of_nil|].
  rewrite for_yield_cons. intros [?|(y & ? & ?)%IH]%and_then_elem.
  - exists x. split; [left|done].
  - exists y. split; [by right|done].
Qed.

End StreamElements.

(** ** The get planner (C2) *)

Section GetPlanner.

Context {St : Type}.
Variable listings : St → path → list (path * bool).
Variable st : St.

Implicit Types (target prefix file : path) (acts : list GetAction).


Lemma download_into_returned prefix file acts :
  download_into prefix file = (acts, Returned)
  ↔ ∃ name, last file = Some name
            ∧ acts = [DownloadRemoteFile file (prefix ++ [name])].
Proof.
  unfold download_into, COWList.last_item, COWList.append, yields, raises.
  destruct (last file); naive_solver.
Qed.

Lemma downloads_returned prefix files acts :
  for_yield (download_into prefix) files = (acts, Returned)
  ↔ Forall2 (λ file a, ∃ name, last file = Some name
                                ∧ a = DownloadRemoteFile file (prefix ++ [name]))
      files acts.
Proof.
  revert acts. induction files as [|file files IH]; intros acts.
  - split; [by intros [= <-]; constructor|by intros ->%Forall2_nil_inv_l].
  - rewrite for_yield_cons, and_then_returned. split.
    + intros (a1 & a2 & (name & ? & ->)%download_into_returned & ?%IH & ->).
      constructor; eauto.
    + intros (a & rest & (name & ? & ->) & ?%IH & ->)%Forall2_cons_inv_l.
      exists [DownloadRemoteFile file (prefix ++ [name])], rest.
      split_and!; [|done..]. apply download_into_returned. eauto.
Qed.

(** the stream of the body of the directory case, for a given recursion *)
Lemma contents_returned (rec : path → stream GetAction) prefix files directories acts :
  and_then (for_yield (download_into prefix) files) (for_yield rec directories)
  = (acts, Returned)
  ↔ ∃ downloads plans,
      Forall2 (λ file a, ∃ name, last file = Some name
                                  ∧ a = DownloadRemoteFile file (prefix ++ [name]))
        files downloads
      ∧ for_yield rec directories = (plans, Returned)
      ∧ acts = downloads ++ plans.
Proof.
  rewrite and_then_returned. setoid_rewrite downloads_returned. done.
Qed.


(** Completeness: the planner yields every plan, with enough fuel. *)
Lemma iterate_get_actions_complete target prefix acts :
  get_plan_spec listings st target prefix acts →
  ∃ fuel, ∀ fuel', fuel ≤ fuel' →
    iterate_get_actions listings fuel' st target prefix = (acts, Returned).
Proof.
  revert target prefix acts.
  apply (get_plan_spec_mut St listings st
    (λ target prefix acts, ∃ fuel, ∀ fuel', fuel ≤ fuel' →
       iterate_get_actions listings fuel' st target prefix = (acts, Returned))
    (λ directories prefix plans, ∃ fuel, ∀ fuel', fuel ≤ fuel' →
       for_yield (λ d, iterate_get_actions listings fuel' st d prefix) directories
       = (plans, Returned))).
  - intros target prefix file name Hc Hlast. exists 1. intros [|fuel'] ?; [lia|].
    simpl. rewrite Hc. apply download_into_returned. eauto.
  - intros target prefix Hc. exists 1. intros [|fuel'] ?; [lia|].
    simpl. by rewrite Hc.
  - intros target prefix files directories self new_prefix downloads plans
      Hc Hself Hdown _ [fuel Hplans].
    exists (S fuel). intros [|fuel'] ?; [lia|]. simpl. rewrite Hc.
    assert (Hrest :
      and_then (for_yield (download_into new_prefix) files)
        (for_yield (λ d, iterate_get_actions listings fuel' st d new_prefix) directories)
      = (downloads ++ plans, Returned)).
    { apply contents_returned. exists downloads, plans.
      split_and!; [done| |done]. apply Hplans. lia. }
    destruct target as [|x target _] using rev_ind.
    + simpl in *. destruct Hself as [-> ->]. done.
    + rewrite last_snoc in Hself. destruct Hself as [-> ->].
      replace (negb (COWList.truthy (target ++ [x]))) with false by (by destruct target).
      unfold COWList.last_item. rewrite last_snoc.
      apply and_then_returned. eexists _, _. split_and!; [done|apply Hrest|done].
  - intros prefix. by exists 0.
  - intros directory directories prefix acts rest _ [f1 H1] _ [f2 H2].
    exists (f1 `max` f2). intros fuel' ?. rewrite for_yield_cons.
    apply and_then_returned. exists acts, rest.
    split_and!; [apply H1; lia|apply H2; lia|done].
Qed.


End GetPlanner.


Example get_scenario :
  iterate_get_actions scenario_listings 2 () [] []
  = ([DownloadRemoteFile ["a.txt"] ["a.txt"];
      CreateLocalDirectory ["b"];
      DownloadRemoteFile ["b"; "c.txt"] ["b"; "c.txt"]], Returned).
Proof. reflexivity. Qed.




(** ** The put planner (C3, C8, C9) *)

Section PutPlanner.

(** induction on the tree of a file system *)
Lemma inode_tree_ind (P : inode → Prop) :
  P RegularFile →
  P Special →
  (∀ l entries, Forall (λ e, P e.2) entries → P (Directory l entries)) →
  ∀ i, P i.
Proof.
  intros Hfile Hspecial Hdir.
  fix IH 1. intros [|l entries|]; [done| |done].
  apply Hdir. induction entries as [|[name sub] entries IHe]; constructor; [apply IH|done].
Qed.

Lemma normalized_segments rl :
  Forall (λ x, valid_segment x = true) rl →
  ∀ cs, foldl normalize_segment (Some cs) rl = Some (cs ++ rl).
Proof.
  induction rl as [|x rl IH]; intros Hrl cs; simpl; [by rewrite app_nil_r|].
  apply Forall_cons in Hrl as [(? & ? & ? & ?)%valid_segment_spec Hrl].
  rewrite !bool_decide_eq_false_2 by done. simpl.
  by rewrite IH, <-app_assoc.
Qed.

(** parsing the relative path of a directory below the top gives back the
    names on the way *)
Lemma local_parse_join rl :
  Forall (λ x, valid_segment x = true) rl →
  relative_local_path_to_relative_local_path_components
    (match rl with [] => "." | a :: rest => posixpath.join a rest end)
  = Ok rl.
Proof.
  intros Hrl. destruct rl as [|a rest]; [done|].
  pose proof Hrl as [Ha Hrest]%Forall_cons.
  destruct (valid_segment_join_head a Ha) as [Hne Hend].
  rewrite join_segments, local_parse_normalized by done.
  unfold posixpath.isabs, normalized_components.
  rewrite split_join_segments, decide_False by done.
  rewrite (normalized_segments (a :: rest) Hrl []).
  replace (Str.startswith _ "/") with false; [done|].
  symmetry. apply valid_segment_spec in Ha as (? & ? & _).
  destruct rest as [|b rest]; [by apply startswith_slash_free|].
  change (Str.join (a :: b :: rest)) with (a +:+ "/" +:+ Str.join (b :: rest)).
  rewrite startswith_slash_app by (by apply nonempty_true).
  by apply startswith_slash_free.
Qed.

Context (cwd top : string) (pwb : path).
Hypothesis cwd_abs : posixpath.isabs cwd = true.
Hypothesis top_nonempty : Str.nonempty top = true.
Hypothesis top_no_slash : Str.endswith_slash top = false.

Lemma relpath_below rl :
  Forall (λ x, valid_segment x = true) rl →
  posixpath.relpath cwd (posixpath.join top rl) top
  = Ok (match rl with [] => "." | a :: rest => posixpath.join a rest end).
Proof.
  intros Hrl. destruct rl as [|a rest]; [by apply relpath_same|].
  rewrite join_segments by done.
  change (Str.join (top :: a :: rest)) with (top +:+ "/" +:+ Str.join (a :: rest)).
  by rewrite relpath_extend.
Qed.

Lemma put_level_below rl dirnames filenames :
  Forall (λ x, valid_segment x = true) rl →
  put_level cwd top pwb (posixpath.join top rl, dirnames, filenames)
  = yields
      (map (λ d, CreateRemoteDirectory ((pwb ++ rl) ++ [d])) dirnames
       ++ map (λ f, UploadLocalFile (posixpath.join2 (posixpath.join top rl) f)
                      ((pwb ++ rl) ++ [f])) filenames).
Proof.
  intros Hrl. unfold put_level.
  rewrite relpath_below by done. unfold bind. by rewrite local_parse_join.
Qed.

End PutPlanner.

(** the loop over [os.walk] on a well-formed tree *)

Section PutPlan.

Context (cwd top : string) (pwb : path).
Hypothesis cwd_abs : posixpath.isabs cwd = true.
Hypothesis top_nonempty : Str.nonempty top = true.
Hypothesis top_no_slash : Str.endswith_slash top = false.

Lemma wf_inode_directory l entries :
  wf_inode (Directory l entries) = true ↔
  NoDup entries.*1
  ∧ Forall (λ e, valid_segment e.1 = true) entries
  ∧ Forall (λ e, wf_inode e.2 = true) entries.
Proof.
  simpl. rewrite !andb_true_iff, bool_decide_eq_true, !forallb_forall, !Forall_forall.
  setoid_rewrite <-list_elem_of_In. split.
  - intros ((? & ?) & Hsub). split_and!; [done..|].
    intros [name sub] Hin. by apply (Hsub (name, sub)).
  - intros (? & ? & Hsub). split_and!; [done..|].
    intros [name sub] Hin. by apply (Hsub (name, sub)).
Qed.

(** On a well-formed tree, the loop of the put planner over [os.walk] yields
    the plan read off the tree. *)
Lemma put_walk_plan i :
  ∀ rl, wf_inode i = true →
    Forall (λ x, valid_segment x = true) rl →
    for_yield (put_level cwd top pwb) (os.walk (posixpath.join top rl) i)
    = yields (put_plan_spec (pwb ++ rl) (posixpath.join top rl) i).
Proof.
  induction i as [| |l entries IH] using inode_tree_ind; intros rl Hwf Hrl; [done..|].
  apply wf_inode_directory in Hwf as (_ & Hnames & Hsubs).
  simpl os.walk. simpl put_plan_spec.
  rewrite for_yield_cons, put_level_below by done.
  match goal with
  | |- and_then _ (for_yield _ ?walks) = yields (_ ++ _ ++ ?plans) =>
      assert (Hsubplans : for_yield (put_level cwd top pwb) walks = yields plans)
  end.
  { clear -IH Hnames Hsubs Hrl.
    induction entries as [|[name sub] entries IHe]; [done|].
    apply Forall_cons in IH as [IHsub IH].
    apply Forall_cons in Hnames as [Hname Hnames].
    apply Forall_cons in Hsubs as [Hsub Hsubs].
    simpl flat_map. rewrite for_yield_app, IHe by done.
    destruct sub as [|[|] sub|]; try done.
    assert (Hjoin : posixpath.join2 (posixpath.join top rl) name
                    = posixpath.join top (rl ++ [name])).
    { unfold posixpath.join. by rewrite foldl_snoc. }
    rewrite Hjoin, <-app_assoc, IHsub; [done|done|].
    apply Forall_app. split; [done|]. by constructor. }
  rewrite Hsubplans, and_then_yields. by rewrite <-app_assoc.
Qed.

End PutPlan.

(** absolute paths and their basenames *)

Section AbsolutePaths.

Lemma abspath_absolute cwd lp :
  posixpath.isabs cwd = true →
  ∃ b, Str.startswith b "/" = true ∧ posixpath.abspath cwd lp = posixpath.normpath b.
Proof.
  intros Hcwd. unfold posixpath.abspath.
  destruct (posixpath.isabs lp) eqn:Habs; [by exists lp|].
  exists (posixpath.join2 cwd lp). split; [|done].
  unfold posixpath.join2. unfold posixpath.isabs in *. rewrite Habs.
  assert (Str.nonempty cwd = true) by (by destruct cwd).
  destruct (_ || _); by rewrite startswith_slash_app.
Qed.

(** an absolute path normalizes to its leading slashes and its components *)
Lemma normpath_absolute b :
  Str.startswith b "/" = true →
  ∃ n, n ≠ 0
       ∧ posixpath.normpath b
         = posixpath.slashes_string n +:+ Str.join (posixpath.normcomps b)
       ∧ Forall (λ x, x ≠ "" ∧ Str.mem "/" x = false) (posixpath.normcomps b).
Proof.
  intros Hb. exists (posixpath.initial_slashes b).
  pose proof (initial_slashes_abs' b Hb) as Hn. split; [done|]. split.
  - unfold posixpath.normpath.
    replace (Str.nonempty b) with true by (by destruct b). simpl.
    replace (Str.nonempty _) with true; [done|].
    by destruct (posixpath.initial_slashes b) as [|[|n]].
  - apply normcomps_segments; [apply split_slash_free_elems|done].
Qed.

Lemma split_slashes n s :
  n ≠ 0 →
  ∃ empties, Forall (λ x, x = "") empties
             ∧ Str.split (posixpath.slashes_string n +:+ s) = empties ++ Str.split s.
Proof.
  intros Hn. destruct n as [|[|n]]; [done| |].
  - exists [""]. split; [by repeat constructor|done].
  - exists [""; ""]. split; [by repeat constructor|done].
Qed.

Lemma basename_absolute n comps :
  n ≠ 0 →
  Forall (λ x, x ≠ "" ∧ Str.mem "/" x = false) comps →
  posixpath.basename (posixpath.slashes_string n +:+ Str.join comps)
  = default "" (last comps).
Proof.
  intros Hn Hcomps. unfold posixpath.basename.
  destruct (split_slashes n (Str.join comps) Hn) as (empties & _ & ->).
  pose proof (split_not_nil (Str.join comps)) as Hne.
  rewrite last_app. destruct (last (Str.split (Str.join comps))) eqn:Hlast.
  - destruct (decide (comps = [])) as [->|Hc]; [by simplify_eq/=|].
    rewrite split_join in Hlast; [by rewrite Hlast|done|].
    eapply Forall_impl; [done|]. by intros ? [??].
  - by apply last_None in Hlast.
Qed.

Lemma join_nonempty comps :
  comps ≠ [] → Forall (λ x, x ≠ "" ∧ Str.mem "/" x = false) comps →
  Str.nonempty (Str.join comps) = true ∧ Str.endswith_slash (Str.join comps) = false.
Proof.
  intros Hne Hcomps. induction Hcomps as [|x comps [Hx Hs] Hcomps IH]; [done|].
  destruct comps as [|y comps].
  - split; [by apply nonempty_true|by apply endswith_slash_free].
  - destruct IH as [IH1 IH2]; [done|].
    change (Str.join (x :: y :: comps)) with (x +:+ "/" +:+ Str.join (y :: comps)).
    split; [apply nonempty_app_l; by apply nonempty_true|].
    rewrite <-str_app_assoc. by rewrite endswith_slash_app.
Qed.

(** the absolute form of a local path: its basename is empty exactly at the
    root; otherwise the path is non-empty and does not end with a slash *)
Lemma abspath_basename cwd lp :
  posixpath.isabs cwd = true →
  let abs := posixpath.abspath cwd lp in
  Str.startswith abs "/" = true
  ∧ (Str.nonempty (posixpath.basename abs) = true ↔ posixpath.path_list abs ≠ [])
  ∧ (Str.nonempty (posixpath.basename abs) = true →
     Str.nonempty abs = true ∧ Str.endswith_slash abs = false).
Proof.
  intros Hcwd abs. unfold abs.
  destruct (abspath_absolute cwd lp Hcwd) as (b & Hb & ->).
  rewrite path_list_normpath by done.
  destruct (normpath_absolute b Hb) as (n & Hn & -> & Hcomps).
  rewrite basename_absolute by done. split_and!.
  - by destruct n as [|[|n]].
  - destruct (posixpath.normcomps b) as [|x comps _] using rev_ind; [done|].
    rewrite last_snoc. simpl. apply Forall_app in Hcomps as [_ [[? _] _]%Forall_cons].
    rewrite nonempty_true. split; [by destruct comps|done].
  - intros Hbase.
    assert (Hne : posixpath.normcomps b ≠ []) by (by intros Heq; rewrite Heq in Hbase).
    destruct (join_nonempty _ Hne Hcomps) as [Hj1 Hj2].
    split; [by destruct n as [|[|n]]|]. by rewrite endswith_slash_app.
Qed.

Lemma lookup_entry_elem name entries j :
  os.lookup_entry name entries = Some j → (name, j) ∈ entries.
Proof.
  induction entries as [|[n i] entries IH]; [done|]. simpl.
  case_decide; [intros [= <-]; subst; left|intros ?%IH; by right].
Qed.

Lemma resolve_wf comps :
  ∀ i j, wf_inode i = true → os.resolve i comps = Some j → wf_inode j = true.
Proof.
  induction comps as [|c comps IH]; intros i j Hwf; simpl; [by intros [= <-]|].
  destruct i as [|l entries|]; [done| |done].
  destruct (os.lookup_entry c entries) as [k|] eqn:Hk; [|done].
  apply IH. apply lookup_entry_elem in Hk.
  apply wf_inode_directory in Hwf as (_ & _ & Hsubs).
  by apply (proj1 (Forall_forall _ _) Hsubs (c, k)).
Qed.

End AbsolutePaths.

(** the order of the actions of a plan *)

Section PutOrder.

Implicit Types (acts : list PutAction) (prefix q : path).

Lemma strictly_inside_length q p : strictly_inside q p → length q < length p.
Proof. intros (rest & Hrest & ->). rewrite length_app. destruct rest; [done|simpl; lia]. Qed.

Lemma create_before_contents_app acts1 acts2 :
  create_before_contents acts1 →
  create_before_contents acts2 →
  (∀ a q, a ∈ acts1 → CreateRemoteDirectory q ∈ acts2 →
          ¬ strictly_inside q (put_action_path a)) →
  create_before_contents (acts1 ++ acts2).
Proof.
  intros H1 H2 Hcross i j q a Hi Hj Hin.
  apply lookup_app_Some in Hi as [Hi|[Hi1 Hi2]];
    apply lookup_app_Some in Hj as [Hj|[Hj1 Hj2]].
  - by eapply H1.
  - apply lookup_lt_Some in Hi. lia.
  - destruct (Hcross a q); [by eapply list_elem_of_lookup_2..|done].
  - pose proof (H2 _ _ _ _ Hi2 Hj2 Hin). lia.
Qed.

Lemma create_before_contents_nil : create_before_contents [].
Proof. intros i j q a Hi. by rewrite lookup_nil in Hi. Qed.

Lemma create_before_contents_level acts k :
  (∀ a, a ∈ acts → length (put_action_path a) = k) → create_before_contents acts.
Proof.
  intros Hk i j q a Hi Hj Hin%strictly_inside_length.
  apply list_elem_of_lookup_2, Hk in Hi, Hj. simpl in Hi. lia.
Qed.

Lemma put_plan_spec_directory prefix top l entries :
  put_plan_spec prefix top (Directory l entries)
  = (map (λ d, CreateRemoteDirectory (prefix ++ [d])) (os.dirnames entries)
     ++ map (λ f, UploadLocalFile (posixpath.join2 top f) (prefix ++ [f]))
          (os.filenames entries))
    ++ subdirectory_plans prefix top entries.
Proof. simpl. by rewrite app_assoc. Qed.

Lemma elem_of_subdirectory_plans prefix top entries a :
  a ∈ subdirectory_plans prefix top entries →
  ∃ name sub, (name, sub) ∈ entries
              ∧ a ∈ put_plan_spec (prefix ++ [name]) (posixpath.join2 top name) sub.
Proof.
  unfold subdirectory_plans. intros Hin.
  apply list_elem_of_In, in_flat_map in Hin as ([name sub] & Hentry & Hin).
  apply list_elem_of_In in Hentry, Hin. exists name, sub. split; [done|].
  by destruct sub as [|[|] sub|]; try by apply elem_of_nil in Hin.
Qed.

(** every action of the plan of a directory lies strictly inside it *)
Lemma put_plan_spec_inside i :
  ∀ prefix top a, a ∈ put_plan_spec prefix top i →
    strictly_inside prefix (put_action_path a).
Proof.
  induction i as [| |l entries IH] using inode_tree_ind; intros prefix top a;
    [by intros ?%elem_of_nil..|].
  rewrite put_plan_spec_directory, !elem_of_app, !list_elem_of_fmap.
  intros [[(d & -> & _)|(f & -> & _)]|Hsub]; [by exists [d]|by exists [f]|].
  apply elem_of_subdirectory_plans in Hsub as (name & sub & Hentry & Hin).
  apply (proj1 (Forall_forall _ _) IH _ Hentry) in Hin as (rest & Hrest & ->).
  exists (name :: rest). split; [done|]. by rewrite <-app_assoc.
Qed.

Lemma subdirectory_plans_inside prefix top entries a :
  a ∈ subdirectory_plans prefix top entries →
  ∃ name rest, name ∈ entries.*1 ∧ rest ≠ []
               ∧ put_action_path a = prefix ++ name :: rest.
Proof.
  intros (name & sub & Hentry & (rest & Hrest & ->)%put_plan_spec_inside)
    %elem_of_subdirectory_plans.
  exists name, rest. split_and!; [|done|by rewrite <-app_assoc].
  by apply (list_elem_of_fmap_2 fst) in Hentry.
Qed.

Lemma put_plan_spec_order i :
  ∀ prefix top, wf_inode i = true → create_before_contents (put_plan_spec prefix top i).
Proof.
  induction i as [| |l entries IH] using inode_tree_ind; intros prefix top Hwf;
    [apply create_before_contents_nil..|].
  apply wf_inode_directory in Hwf as (Hnodup & _ & Hsubs).
  rewrite put_plan_spec_directory.
  assert (Hlevel : ∀ a,
    a ∈ map (λ d, CreateRemoteDirectory (prefix ++ [d])) (os.dirnames entries)
        ++ map (λ f, UploadLocalFile (posixpath.join2 top f) (prefix ++ [f]))
             (os.filenames entries) →
    length (put_action_path a) = S (length prefix)).
  { intros a. rewrite elem_of_app, !list_elem_of_fmap.
    intros [(d & -> & _)|(f & -> & _)]; simpl; rewrite length_app; simpl; lia. }
  apply create_before_contents_app.
  - by eapply create_before_contents_level.
  - clear Hlevel. induction entries as [|[name sub] entries IHe];
      [apply create_before_contents_nil|].
    apply Forall_cons in IH as [IHsub IH].
    apply Forall_cons in Hsubs as [Hsub Hsubs].
    rewrite fmap_cons in Hnodup. apply NoDup_cons in Hnodup as [Hname Hnodup].
    change (subdirectory_plans prefix top ((name, sub) :: entries))
      with (match sub with
            | Directory false _ =>
                put_plan_spec (prefix ++ [name]) (posixpath.join2 top name) sub
            | _ => []
            end ++ subdirectory_plans prefix top entries).
    apply create_before_contents_app; [|by apply IHe|].
    + destruct sub as [|[|] sub|]; try apply create_before_contents_nil.
      by apply IHsub.
    + intros a q Ha Hq (rest & Hrest & Hpath).
      assert (Hpa : ∃ rest', put_action_path a = prefix ++ name :: rest').
      { destruct sub as [|[|] sub|]; try by apply elem_of_nil in Ha.
        apply put_plan_spec_inside in Ha as (rest' & _ & ->).
        exists rest'. by rewrite <-app_assoc. }
      destruct Hpa as (rest' & Hpa).
      apply subdirectory_plans_inside in Hq as (name' & rest'' & Hname' & _ & Hq).
      simpl in Hq. rewrite Hpa, Hq, <-!app_assoc in Hpath.
      apply app_inv_head in Hpath. by simplify_eq/=.
  - intros a q Ha%Hlevel Hq Hin%strictly_inside_length.
    apply subdirectory_plans_inside in Hq as (name' & rest'' & _ & _ & Hq).
    simpl in Hq. rewrite Hq, length_app in Hin. simpl in Hin. lia.
Qed.

(** the whole plan of a directory: its own creation, then its content *)
Lemma put_plan_order prefix top i :
  wf_inode i = true →
  create_before_contents (CreateRemoteDirectory prefix :: put_plan_spec prefix top i).
Proof.
  intros Hwf.
  apply (create_before_contents_app [CreateRemoteDirectory prefix]).
  - by apply (create_before_contents_level _ (length prefix));
      intros a ->%list_elem_of_singleton.
  - by apply put_plan_spec_order.
  - intros a q ->%list_elem_of_singleton (rest & _ & Hq)%put_plan_spec_inside
      Hin%strictly_inside_length.
    simpl in *. rewrite Hq, length_app in Hin. lia.
Qed.

End PutOrder.

Example put_scenario :
  iterate_put_actions "/home/u" scenario_fs "a" ["dest"]
  = yields [CreateRemoteDirectory ["dest"; "a"];
            CreateRemoteDirectory ["dest"; "a"; "sub"];
            UploadLocalFile "/home/u/a/f.txt" ["dest"; "a"; "f.txt"]].
Proof. reflexivity. Qed.

(** the three branches of [iterate_put_actions] *)

Section PutTheorems.

Context (cwd : string) (fs : filesystem) (local_path : string) (prefix : path).
Hypothesis cwd_abs : posixpath.isabs cwd = true.
Hypothesis fs_wf : wf_filesystem fs = true.

Let abs := posixpath.abspath cwd local_path.
Let basename := posixpath.basename abs.

Lemma iterate_put_file :
  os.isfile fs abs = true →
  iterate_put_actions cwd fs local_path prefix
  = yields [UploadLocalFile abs (prefix ++ [basename])].
Proof.
  intros Hfile. unfold iterate_put_actions. fold abs. fold basename.
  rewrite Hfile. replace (Str.nonempty basename) with true; [done|].
  symmetry. apply (abspath_basename cwd local_path cwd_abs). fold abs.
  intros Hnil. unfold os.isfile, os.stat in Hfile. by rewrite Hnil in Hfile.
Qed.

Lemma iterate_put_directory l entries :
  os.stat fs abs = Some (Directory l entries) →
  basename ≠ "" →
  iterate_put_actions cwd fs local_path prefix
  = yields (CreateRemoteDirectory (prefix ++ [basename])
            :: put_plan_spec (prefix ++ [basename]) abs (Directory l entries)).
Proof.
  intros Hstat Hbase%nonempty_true.
  assert (Hfile : os.isfile fs abs = false) by (unfold os.isfile; by rewrite Hstat).
  assert (Hdir : os.isdir fs abs = true) by (unfold os.isdir; by rewrite Hstat).
  unfold iterate_put_actions. fold abs. fold basename.
  rewrite Hfile, Hdir, Hbase, Hstat. cbn [andb].
  change (default Special (Some (Directory l entries))) with (Directory l entries).
  destruct (abspath_basename cwd local_path cwd_abs) as (_ & _ & Hgood).
  destruct (Hgood Hbase) as [Hne Hend]. fold abs in Hne, Hend.
  pose proof (put_walk_plan cwd abs (COWList.append prefix basename)
                cwd_abs Hne Hend (Directory l entries) []) as Hplan.
  unfold posixpath.join in Hplan. simpl foldl in Hplan.
  rewrite app_nil_r in Hplan. rewrite Hplan; [done| |done].
  by eapply resolve_wf; [apply fs_wf|apply Hstat].
Qed.

Lemma iterate_put_unsupported :
  os.isfile fs abs = false → os.isdir fs abs = false →
  iterate_put_actions cwd fs local_path prefix
  = raises (ValueError ("Invalid local path: " +:+ local_path)).
Proof.
  intros Hfile Hdir. unfold iterate_put_actions. fold abs.
  by rewrite Hfile, Hdir, !andb_false_r.
Qed.

Lemma iterate_put_raises e :
  (iterate_put_actions cwd fs local_path prefix).2 = Raised e →
  e = ValueError ("Invalid local path: " +:+ local_path)
  ∧ ((os.isfile fs abs = false ∧ os.isdir fs abs = false) ∨ basename = "").
Proof.
  destruct (os.isfile fs abs) eqn:Hfile; [by rewrite iterate_put_file|].
  destruct (decide (basename = "")) as [Hbase|Hbase].
  - unfold iterate_put_actions. fold abs. fold basename. rewrite Hbase. simpl.
    intros [= <-]. auto.
  - destruct (os.isdir fs abs) eqn:Hdir.
    + unfold os.isdir in Hdir.
      destruct (os.stat fs abs) as [[|l entries|]|] eqn:Hstat; try done.
      by rewrite (iterate_put_directory l entries).
    + rewrite iterate_put_unsupported by done. intros [= <-]. auto.
Qed.

End PutTheorems.

Lemma iterate_put_root cwd fs local_path prefix :
  posixpath.basename (posixpath.abspath cwd local_path) = "" →
  iterate_put_actions cwd fs local_path prefix
  = raises (ValueError ("Invalid local path: " +:+ local_path)).
Proof. intros Hbase. unfold iterate_put_actions. by rewrite Hbase. Qed.

Lemma iterate_put_paths cwd fs local_path prefix a :
  a ∈ (iterate_put_actions cwd fs local_path prefix).1 →
  ∃ seg rest, seg ≠ "" ∧ put_action_path a = prefix ++ seg :: rest.
Proof.
  unfold iterate_put_actions.
  set (abs := posixpath.abspath cwd local_path).
  set (basename := posixpath.basename abs).
  destruct (Str.nonempty basename) eqn:Hbase; simpl; [|by intros ?%elem_of_nil].
  apply nonempty_true in Hbase.
  destruct (os.isfile fs abs); simpl.
  { intros ->%list_elem_of_singleton. by exists basename, []. }
  destruct (os.isdir fs abs); simpl; [|by intros ?%elem_of_nil].
  intros [->|Hin]%elem_of_cons; [by exists basename, []|].
  apply for_yield_elem in Hin as ([[dirpath dirnames] filenames] & _ & Hin).
  unfold put_level in Hin.
  destruct (bind _ _) as [components|e]; [|by apply elem_of_nil in Hin].
  simpl in Hin. unfold COWList.append, COWList.extend in Hin.
  apply elem_of_app in Hin as [Hin|Hin];
    apply list_elem_of_fmap in Hin as (name & -> & _);
    exists basename, (components ++ [name]); (split; [done|]);
    simpl; by rewrite <-!app_assoc.
Qed.

(** C3, as the code has it.  For every local path that is a regular file, the
    put planner emits exactly one [UploadLocalFile], addressed at the remote
    prefix extended with the basename of the file.  For every local path that
    is a directory other than the root of the file system (its basename is not
    empty), it first emits [CreateRemoteDirectory] for the prefix extended with
    the basename and then, level by level, a [CreateRemoteDirectory] for every
    subdirectory and an [UploadLocalFile] for every file of a level before it
    descends ([put_plan_spec]); so the creation of any directory comes
    strictly before every action whose path lies inside that directory. *)
Theorem put_plan_shape_and_order (cwd : string) (fs : filesystem)
  (local_path : string) (prefix : path) :
  posixpath.isabs cwd = true →
  wf_filesystem fs = true →
  let abs := posixpath.abspath cwd local_path in
  let basename := posixpath.basename abs in
  (os.isfile fs abs = true →
   iterate_put_actions cwd fs local_path prefix
   = yields [UploadLocalFile abs (prefix ++ [basename])])
  ∧ (os.isdir fs abs = true → basename ≠ "" →
     ∃ l entries,
       os.stat fs abs = Some (Directory l entries)
       ∧ iterate_put_actions cwd fs local_path prefix
         = yields (CreateRemoteDirectory (prefix ++ [basename])
                   :: put_plan_spec (prefix ++ [basename]) abs (Directory l entries))
       ∧ create_before_contents (iterate_put_actions cwd fs local_path prefix).1).
Proof.
  intros Hcwd Hwf abs basename. split; [by apply iterate_put_file|].
  intros Hdir Hbase. unfold os.isdir in Hdir.
  destruct (os.stat fs abs) as [[|l entries|]|] eqn:Hstat; try done.
  exists l, entries. split; [done|].
  rewrite (iterate_put_directory cwd fs local_path prefix Hcwd Hwf l entries) by done.
  split; [done|]. apply put_plan_order.
  by eapply resolve_wf; [apply Hwf|apply Hstat].
Qed.

Lemma put_plan_shape_and_order_witness :
  iterate_put_actions "/home/u" scenario_fs "notes.txt" ["dest"]
  = yields [UploadLocalFile "/home/u/notes.txt" ["dest"; "notes.txt"]]
  ∧ ∃ l entries,
      os.stat scenario_fs "/home/u/a" = Some (Directory l entries)
      ∧ iterate_put_actions "/home/u" scenario_fs "a" ["dest"]
        = yields (CreateRemoteDirectory ["dest"; "a"]
                  :: put_plan_spec ["dest"; "a"] "/home/u/a" (Directory l entries))
      ∧ create_before_contents (iterate_put_actions "/home/u" scenario_fs "a" ["dest"]).1.
Proof.
  split.
  - apply (put_plan_shape_and_order "/home/u" scenario_fs "notes.txt" ["dest"]);
      reflexivity.
  - apply (put_plan_shape_and_order "/home/u" scenario_fs "a" ["dest"]);
      [reflexivity|reflexivity|reflexivity|discriminate].
Defined.

(** C3 as stated fails on the root of the file system: it is a directory, has
    no basename, and the planner raises instead of emitting the creation. *)
Lemma put_root_directory_emits_nothing :
  os.isdir scenario_fs (posixpath.abspath "/home/u" "/") = true
  ∧ iterate_put_actions "/home/u" scenario_fs "/" []
    = raises (ValueError "Invalid local path: /")
  ∧ ¬ (∀ cwd fs local_path prefix,
         os.isdir fs (posixpath.abspath cwd local_path) = true →
         ∃ acts,
           iterate_put_actions cwd fs local_path prefix
           = yields (CreateRemoteDirectory
                       (prefix ++ [posixpath.basename (posixpath.abspath cwd local_path)])
                     :: acts)).
Proof.
  split; [reflexivity|]. split; [reflexivity|].
  intros H. by destruct (H "/home/u" scenario_fs "/" [] eq_refl) as [acts ?].
Qed.

(** C8, as the code has it.  For every local path that is neither a regular
    file nor a directory (a device, a dangling link, a missing path), the put
    planner raises its [ValueError] ("Invalid local path") without emitting
    anything; and it raises only for such paths or for a path whose absolute
    form has an empty basename (the root of the file system). *)
Theorem put_unsupported_path (cwd : string) (fs : filesystem)
  (local_path : string) (prefix : path) :
  posixpath.isabs cwd = true →
  wf_filesystem fs = true →
  let abs := posixpath.abspath cwd local_path in
  (os.isfile fs abs = false → os.isdir fs abs = false →
   iterate_put_actions cwd fs local_path prefix
   = raises (ValueError ("Invalid local path: " +:+ local_path)))
  ∧ (∀ e, (iterate_put_actions cwd fs local_path prefix).2 = Raised e →
       e = ValueError ("Invalid local path: " +:+ local_path)
       ∧ ((os.isfile fs abs = false ∧ os.isdir fs abs = false)
          ∨ posixpath.basename abs = "")).
Proof.
  intros Hcwd Hwf abs. split.
  - by apply iterate_put_unsupported.
  - intros e. by apply iterate_put_raises.
Qed.

Lemma put_unsupported_path_witness :
  iterate_put_actions "/home/u" scenario_fs "tty" ["dest"]
  = raises (ValueError "Invalid local path: tty")
  ∧ (∀ e, (iterate_put_actions "/home/u" scenario_fs "tty" ["dest"]).2 = Raised e →
       e = ValueError "Invalid local path: tty"
       ∧ ((os.isfile scenario_fs "/home/u/tty" = false
           ∧ os.isdir scenario_fs "/home/u/tty" = false)
          ∨ posixpath.basename "/home/u/tty" = "")).
Proof.
  split.
  - apply (put_unsupported_path "/home/u" scenario_fs "tty" ["dest"]); reflexivity.
  - apply (put_unsupported_path "/home/u" scenario_fs "tty" ["dest"]); reflexivity.
Defined.

(** C8 as stated fails in its converse: the planner also raises on the root of
    the file system, which is a directory. *)
Lemma put_raises_on_root_directory :
  os.isdir scenario_fs (posixpath.abspath "/home" "..") = true
  ∧ (iterate_put_actions "/home" scenario_fs ".." ["dest"]).2
    = Raised (ValueError "Invalid local path: ..")
  ∧ ¬ (∀ cwd fs local_path prefix e,
         (iterate_put_actions cwd fs local_path prefix).2 = Raised e →
         os.isfile fs (posixpath.abspath cwd local_path) = false
         ∧ os.isdir fs (posixpath.abspath cwd local_path) = false).
Proof.
  split; [reflexivity|]. split; [reflexivity|].
  intros H. by destruct (H "/home" scenario_fs ".." ["dest"] _ eq_refl) as [_ ?].
Qed.

(** C9.  For every local path whose absolute form has an empty basename (the
    root of the file system), the put planner raises its [ValueError], even
    when the path is an existing directory; hence every action that it emits
    carries a path that extends the remote prefix by at least one non-empty
    segment. *)
Theorem put_empty_basename_rejected (cwd : string) (fs : filesystem)
  (local_path : string) (prefix : path) :
  (posixpath.basename (posixpath.abspath cwd local_path) = "" →
   iterate_put_actions cwd fs local_path prefix
   = raises (ValueError ("Invalid local path: " +:+ local_path)))
  ∧ (∀ a, a ∈ (iterate_put_actions cwd fs local_path prefix).1 →
       ∃ seg rest, seg ≠ "" ∧ put_action_path a = prefix ++ seg :: rest).
Proof.
  split; [apply iterate_put_root|]. intros a. apply iterate_put_paths.
Qed.

Lemma put_empty_basename_rejected_witness :
  os.isdir scenario_fs (posixpath.abspath "/" "/") = true
  ∧ iterate_put_actions "/" scenario_fs "/" ["dest"]
    = raises (ValueError "Invalid local path: /").
Proof.
  split; [reflexivity|].
  apply (put_empty_basename_rejected "/" scenario_fs "/" ["dest"]). reflexivity.
Defined.


(** ** Resource locators (C5) *)

Section PercentEncoding.

Lemma unquote_quote_char (c : ascii) (t : string) :
  urllib.unquote (urllib.quote_char c +:+ t) = String c (urllib.unquote t).
Proof. by destruct c as [[] [] [] [] [] [] [] []]. Qed.

Lemma unquote_quote (s : string) : urllib.unquote (urllib.quote s) = s.
Proof.
  induction s as [|c s IH]; [done|].
  change (urllib.quote (String c s)) with (urllib.quote_char c +:+ urllib.quote s).
  by rewrite unquote_quote_char, IH.
Qed.

Lemma mem_app (c : ascii) (a b : string) :
  Str.mem c (a +:+ b) = Str.mem c a || Str.mem c b.
Proof.
  induction a as [|d a IH]; [done|]. rewrite str_app_cons. simpl.
  by case_decide.
Qed.

Lemma quote_char_slash (c : ascii) :
  Str.mem "/" (urllib.quote_char c) = bool_decide (c = "/"%char).
Proof. by destruct c as [[] [] [] [] [] [] [] []]. Qed.

Lemma quote_slash_free (s : string) :
  Str.mem "/" s = false → Str.mem "/" (urllib.quote s) = false.
Proof.
  induction s as [|c s IH]; [done|]. simpl Str.mem. case_decide as Hc; [done|].
  intros Hs. change (urllib.quote (String c s)) with (urllib.quote_char c +:+ urllib.quote s).
  rewrite mem_app, quote_char_slash, IH by done.
  by rewrite bool_decide_eq_false_2 by done.
Qed.

Lemma quote_char_nonempty (c : ascii) : Str.nonempty (urllib.quote_char c) = true.
Proof. unfold urllib.quote_char. by destruct (urllib.is_safe c). Qed.

Lemma quote_valid_segment (s : string) :
  valid_segment s = true → valid_segment (urllib.quote s) = true.
Proof.
  intros (Hne & Hslash & Hdot & Hdots)%valid_segment_spec.
  apply valid_segment_spec. split_and!.
  - destruct s as [|c s]; [done|]. apply nonempty_true.
    change (urllib.quote (String c s)) with (urllib.quote_char c +:+ urllib.quote s).
    apply nonempty_app_l, quote_char_nonempty.
  - by apply quote_slash_free.
  - intros Hq. apply Hdot. by rewrite <-(unquote_quote s), Hq.
  - intros Hq. apply Hdots. by rewrite <-(unquote_quote s), Hq.
Qed.

End PercentEncoding.

Section Locators.

Lemma segment_verbs_children (qs : list string) :
  Forall (λ x, valid_segment x = true) qs →
  flat_map fspathverbs.segment_verb qs = Child <$> qs.
Proof.
  induction 1 as [|q qs (? & ? & ? & ?)%valid_segment_spec _ IH]; [done|].
  simpl. unfold fspathverbs.segment_verb at 1.
  rewrite !decide_False by done. simpl. by rewrite IH.
Qed.

Lemma href_children (href : string) (qs : list string) (acc : path) :
  for_each (href_verb href) (Child <$> qs) acc = Ok (acc ++ (urllib.unquote <$> qs)).
Proof.
  revert acc. induction qs as [|q qs IH]; intros acc; csimpl.
  - by rewrite app_nil_r.
  - unfold COWList.append. by rewrite IH, <-app_assoc.
Qed.

Lemma compile_segments (qs : list string) :
  Forall (λ x, valid_segment x = true) qs →
  fspathverbs.compile_to_fspathverbs
    (match qs with [] => "." | a :: rest => posixpath.join a rest end)
  = if decide (qs = []) then [Current] else Child <$> qs.
Proof.
  intros Hqs. destruct qs as [|a rest]; [done|].
  pose proof Hqs as [Ha Hrest]%Forall_cons.
  destruct (valid_segment_join_head a Ha) as [Hne Hend].
  rewrite join_segments by done. unfold fspathverbs.compile_to_fspathverbs.
  rewrite split_join_segments, !decide_False, segment_verbs_children by done.
  replace (Str.startswith _ "/") with false; [done|].
  symmetry. apply valid_segment_spec in Ha as (? & ? & _).
  destruct rest as [|b rest]; [by apply startswith_slash_free|].
  change (Str.join (a :: b :: rest)) with (a +:+ "/" +:+ Str.join (b :: rest)).
  rewrite startswith_slash_app by (by apply nonempty_true).
  by apply startswith_slash_free.
Qed.

(** parsing the locator rendered from valid segments gives them back *)
Lemma href_of_components (cwd host : string) (port : Z) (cs : path) :
  posixpath.isabs cwd = true →
  Forall (λ x, valid_segment x = true) cs →
  href_to_remote_path_components cwd host port
    (remote_path_components_to_href host port cs) = Ok cs.
Proof.
  intros Hcwd Hcs.
  assert (Hqs : Forall (λ x, valid_segment x = true) (urllib.quote <$> cs)).
  { apply Forall_fmap. eapply Forall_impl; [done|]. apply quote_valid_segment. }
  unfold href_to_remote_path_components, remote_path_components_to_href.
  rewrite startswith_app, relpath_extend by done. unfold bind.
  rewrite compile_segments by done.
  destruct (decide (urllib.quote <$> cs = [])) as [Hnil|Hnil].
  - by apply fmap_nil_inv in Hnil as ->.
  - rewrite href_children, <-list_fmap_compose. simpl. f_equal.
    rewrite <-(list_fmap_id cs) at 2. apply list_fmap_ext.
    intros _ x _. apply unquote_quote.
Qed.

Lemma normalized_valid (segs : list string) :
  Forall (λ x, Str.mem "/" x = false) segs →
  ∀ acc cs, Forall (λ x, valid_segment x = true) acc →
    foldl normalize_segment (Some acc) segs = Some cs →
    Forall (λ x, valid_segment x = true) cs.
Proof.
  induction 1 as [|seg segs Hseg _ IH]; intros acc cs Hacc; simpl; [by intros [= <-]|].
  destruct (bool_decide (seg = "")) eqn:H1; simpl; [by apply IH|].
  destruct (bool_decide (seg = ".")) eqn:H2; simpl; [by apply IH|].
  destruct (bool_decide (seg = "..")) eqn:H3.
  - destruct acc as [|x acc _] using rev_ind;
      [by rewrite normalize_none|].
    replace (match acc ++ [x] with [] => None | _ :: _ => Some (removelast (acc ++ [x])) end)
      with (Some acc) by (rewrite removelast_last; by destruct acc).
    apply IH. by apply Forall_app in Hacc as [? _].
  - apply IH, Forall_app. split; [done|]. constructor; [|done].
    apply bool_decide_eq_false in H1, H2, H3. by apply valid_segment_spec.
Qed.

Lemma parsed_components_valid (p : string) (cs : path) :
  remote_path_to_remote_path_components p = Ok cs
  ∨ relative_local_path_to_relative_local_path_components p = Ok cs →
  Forall (λ x, valid_segment x = true) cs.
Proof.
  rewrite remote_parse_normalized, local_parse_normalized.
  intros Hparse.
  assert (Hn : normalized_components p = Some cs).
  { destruct (normalized_components p), (posixpath.isabs p); naive_solver. }
  eapply normalized_valid; [apply split_slash_free_elems|constructor|apply Hn].
Qed.

End Locators.

(** C5.  For a fixed host and port, every locator that the client renders from
    the components of a parsed path is reproduced by parsing it back and
    rendering again: with [L = remote_path_components_to_href host port cs],
    where [cs] is the result of the remote or of the local-relative parser,
    [href_to_remote_path_components] returns components that render to [L]. *)
Theorem href_round_trip (cwd host : string) (port : Z) (p : string) (cs : path) :
  posixpath.isabs cwd = true →
  remote_path_to_remote_path_components p = Ok cs
  ∨ relative_local_path_to_relative_local_path_components p = Ok cs →
  let L := remote_path_components_to_href host port cs in
  ∃ cs', href_to_remote_path_components cwd host port L = Ok cs'
         ∧ remote_path_components_to_href host port cs' = L.
Proof.
  intros Hcwd Hparsed%parsed_components_valid L. exists cs.
  split; [by apply href_of_components|done].
Qed.

Lemma href_round_trip_witness :
  ∃ cs', href_to_remote_path_components "/home/u" "localhost" 8080
           "http://localhost:8080/a%20b/x~y%25" = Ok cs'
         ∧ remote_path_components_to_href "localhost" 8080 cs'
           = "http://localhost:8080/a%20b/x~y%25".
Proof.
  apply (href_round_trip "/home/u" "localhost" 8080 "/a b/./c/../x~y%" ["a b"; "x~y%"]).
  - reflexivity.
  - left. reflexivity.
Defined.

(** The law is about the components of parsed paths: a segment that only
    percent-decoding can produce, such as [.], is not rendered back. *)
Example decoded_dot_is_not_rendered_back :
  href_to_remote_path_components "/home/u" "localhost" 8080 "/%2E" = Ok ["."]
  ∧ href_to_remote_path_components "/home/u" "localhost" 8080
      (remote_path_components_to_href "localhost" 8080 ["."]) = Ok [].
Proof. split; reflexivity. Qed.

(** ** More on the path parsers *)

(** ** More on the path-component algebra *)

Section PathAlgebra.

Implicit Types (p a b : string) (cs : path).

Lemma normalized_leading_slash p :
  normalized_components ("/" +:+ p) = normalized_components p.
Proof. done. Qed.

Lemma normalized_join cs :
  Forall (λ x, valid_segment x = true) cs →
  normalized_components (Str.join cs) = Some cs.
Proof.
  intros Hcs. unfold normalized_components. rewrite split_join_segments by done.
  case_decide as Hnil; [by subst|]. by rewrite (normalized_segments cs Hcs []).
Qed.

Lemma join_relative cs :
  Forall (λ x, valid_segment x = true) cs → posixpath.isabs (Str.join cs) = false.
Proof.
  intros Hcs. unfold posixpath.isabs. destruct cs as [|a rest]; [done|].
  apply Forall_cons in Hcs as [(? & ? & _)%valid_segment_spec _].
  destruct rest as [|b rest]; [by apply startswith_slash_free|].
  change (Str.join (a :: b :: rest)) with (a +:+ "/" +:+ Str.join (b :: rest)).
  rewrite startswith_slash_app by (by apply nonempty_true).
  by apply startswith_slash_free.
Qed.

(** normalization under a prefix that the segments never pop *)
Lemma normalized_under_prefix (segs : list string) (pre : path) :
  ∀ acc r, foldl normalize_segment (Some acc) segs = Some r →
    foldl normalize_segment (Some (pre ++ acc)) segs = Some (pre ++ r).
Proof.
  induction segs as [|seg segs IH]; intros acc r; simpl; [by intros [= <-]|].
  destruct (bool_decide (seg = "") || bool_decide (seg = ".")); [by apply IH|].
  destruct (bool_decide (seg = "..")).
  - destruct acc as [|x acc _] using rev_ind; [by rewrite normalize_none|].
    replace (match acc ++ [x] with [] => None | _ :: _ => Some (removelast (acc ++ [x])) end)
      with (Some acc) by (rewrite removelast_last; by destruct acc).
    replace (match pre ++ acc ++ [x] with
             | [] => None | _ :: _ => Some (removelast (pre ++ acc ++ [x])) end)
      with (Some (pre ++ acc));
      [by apply IH|].
    rewrite app_assoc, removelast_last. by destruct (pre ++ acc).
  - rewrite <-app_assoc. by apply IH.
Qed.

Lemma normalized_concat a b ca cb :
  normalized_components a = Some ca →
  normalized_components b = Some cb →
  normalized_components (a +:+ "/" +:+ b) = Some (ca ++ cb).
Proof.
  unfold normalized_components. intros Ha Hb.
  rewrite split_app_slash, foldl_app, Ha.
  rewrite <-(app_nil_r ca) at 1. by apply normalized_under_prefix.
Qed.

Lemma unquote_nonempty (s : string) : s ≠ "" → urllib.unquote s ≠ "".
Proof.
  destruct s as [|c s1]; [done|]. intros _. simpl.
  case_decide; [|done].
  destruct s1 as [|h [|l s3]]; try done.
  by destruct (urllib.hex_value h), (urllib.hex_value l).
Qed.

Lemma href_segments_nonempty (href : string) (segs : list string) :
  ∀ acc cs, Forall (λ x, x ≠ "") acc →
    for_each (href_verb href) (flat_map fspathverbs.segment_verb segs) acc = Ok cs →
    Forall (λ x, x ≠ "") cs.
Proof.
  induction segs as [|seg segs IH]; intros acc cs Hacc; simpl; [by intros [= <-]|].
  unfold fspathverbs.segment_verb at 1. repeat case_decide; simpl.
  - by apply IH.
  - by apply IH.
  - destruct acc as [|x acc _] using rev_ind; [done|].
    replace (COWList.truthy (acc ++ [x])) with true by (by destruct acc).
    simpl. unfold COWList.pop. rewrite removelast_last. apply IH.
    by apply Forall_app in Hacc as [? _].
  - apply IH. apply Forall_app. split; [done|]. constructor; [|done].
    by apply unquote_nonempty.
Qed.

End PathAlgebra.

(** X1.  The segments that the remote and the local-relative parser return are
    non-empty, contain no slash and are neither [.] nor [..]. *)
Theorem parsers_return_valid_segments (p : string) (cs : path) :
  remote_path_to_remote_path_components p = Ok cs
  ∨ relative_local_path_to_relative_local_path_components p = Ok cs →
  Forall (λ x, x ≠ "" ∧ Str.mem "/" x = false ∧ x ≠ "." ∧ x ≠ "..") cs.
Proof.
  intros Hcs%parsed_components_valid. eapply Forall_impl; [done|].
  intros x. apply valid_segment_spec.
Qed.

Lemma parsers_return_valid_segments_witness :
  Forall (λ x, x ≠ "" ∧ Str.mem "/" x = false ∧ x ≠ "." ∧ x ≠ "..") ["a"; "c d"].
Proof.
  apply (parsers_return_valid_segments "//a/./b/../c d/" ["a"; "c d"]).
  left. reflexivity.
Defined.

(** X2.  The remote parser anchors every path at the root: with or without a
    leading slash, a path parses to the same components, or fails alike. *)
Theorem remote_parser_ignores_leading_slash (p : string) (cs : path) :
  remote_path_to_remote_path_components ("/" +:+ p) = Ok cs
  ↔ remote_path_to_remote_path_components p = Ok cs.
Proof.
  rewrite !remote_parse_normalized, normalized_leading_slash.
  by destruct (normalized_components p).
Qed.

(** X3.  Parsing is idempotent through rendering: the components of a parsed
    path, joined with slashes, parse to themselves, with both parsers. *)
Theorem parse_join_parse (p : string) (cs : path) :
  remote_path_to_remote_path_components p = Ok cs
  ∨ relative_local_path_to_relative_local_path_components p = Ok cs →
  remote_path_to_remote_path_components (Str.join cs) = Ok cs
  ∧ relative_local_path_to_relative_local_path_components (Str.join cs) = Ok cs.
Proof.
  intros Hcs%parsed_components_valid.
  rewrite remote_parse_normalized, local_parse_normalized.
  by rewrite normalized_join, join_relative.
Qed.

Lemma parse_join_parse_witness :
  remote_path_to_remote_path_components (Str.join ["a"; "c d"]) = Ok ["a"; "c d"]
  ∧ relative_local_path_to_relative_local_path_components (Str.join ["a"; "c d"])
    = Ok ["a"; "c d"].
Proof.
  apply (parse_join_parse "//a/./b/../c d/" ["a"; "c d"]). left. reflexivity.
Defined.

(** X4.  Parsing composes: a remote path followed by a separator and a
    relative path that parses on its own parses to the concatenation of the
    two component sequences. *)
Theorem remote_parse_concat (a b : string) (ca cb : path) :
  remote_path_to_remote_path_components a = Ok ca →
  relative_local_path_to_relative_local_path_components b = Ok cb →
  remote_path_to_remote_path_components (a +:+ "/" +:+ b) = Ok (ca ++ cb).
Proof.
  rewrite !remote_parse_normalized, local_parse_normalized. intros Ha Hb.
  destruct (normalized_components a) as [ca'|] eqn:Hna; [|done].
  destruct (posixpath.isabs b); [done|].
  destruct (normalized_components b) as [cb'|] eqn:Hnb; [|done].
  simplify_eq. by rewrite (normalized_concat a b ca cb).
Qed.

Lemma remote_parse_concat_witness :
  remote_path_to_remote_path_components ("/dest/x/.." +:+ "/" +:+ "a/./sub")
  = Ok (["dest"] ++ ["a"; "sub"]).
Proof.
  apply (remote_parse_concat "/dest/x/.." "a/./sub" ["dest"] ["a"; "sub"]);
    reflexivity.
Defined.

(** ** More on the resource locators *)

Section MoreLocators.

Implicit Types (cs : path).

Lemma href_base_not_slash (host : string) (port : Z) (s : string) :
  Str.startswith ("/" +:+ s) (href_base host port) = false.
Proof. done. Qed.

Lemma compile_join (qs : list string) :
  Forall (λ x, valid_segment x = true) qs →
  fspathverbs.compile_to_fspathverbs (Str.join qs) = Child <$> qs.
Proof.
  intros Hqs. unfold fspathverbs.compile_to_fspathverbs.
  pose proof (join_relative qs Hqs) as Hrel. unfold posixpath.isabs in Hrel.
  rewrite Hrel, split_join_segments by done. case_decide as Hnil; [by subst|].
  by rewrite segment_verbs_children.
Qed.

(** the host-relative form of a locator parses to its components *)
Lemma relative_href_of_components (cwd host : string) (port : Z) cs :
  Forall (λ x, valid_segment x = true) cs →
  href_to_remote_path_components cwd host port
    ("/" +:+ Str.join (urllib.quote <$> cs)) = Ok cs.
Proof.
  intros Hcs.
  assert (Hqs : Forall (λ x, valid_segment x = true) (urllib.quote <$> cs)).
  { apply Forall_fmap. eapply Forall_impl; [done|]. apply quote_valid_segment. }
  unfold href_to_remote_path_components. rewrite href_base_not_slash.
  change (Str.startswith ("/" +:+ ?s) "/") with true.
  change (Str.drop1 ("/" +:+ ?s)) with s. unfold bind.
  rewrite compile_join, href_children, <-list_fmap_compose by done. simpl. f_equal.
  rewrite <-(list_fmap_id cs) at 2. apply list_fmap_ext.
  intros _ x _. apply unquote_quote.
Qed.

End MoreLocators.

(** X5.  Parsing inverts rendering, for components that are valid segments:
    the locator rendered for them, in its full form or in its host-relative
    form (the path alone), parses back to the same components. *)
Theorem href_parse_inverts_render (cwd host : string) (port : Z) (cs : path) :
  posixpath.isabs cwd = true →
  Forall (λ x, valid_segment x = true) cs →
  href_to_remote_path_components cwd host port
    (remote_path_components_to_href host port cs) = Ok cs
  ∧ href_to_remote_path_components cwd host port
      ("/" +:+ Str.join (urllib.quote <$> cs)) = Ok cs.
Proof.
  intros Hcwd Hcs. split; [by apply href_of_components|].
  by apply relative_href_of_components.
Qed.

Lemma href_parse_inverts_render_witness :
  href_to_remote_path_components "/home/u" "localhost" 8080
    (remote_path_components_to_href "localhost" 8080 ["a b"; "50%"]) = Ok ["a b"; "50%"]
  ∧ href_to_remote_path_components "/home/u" "localhost" 8080
      ("/" +:+ Str.join (urllib.quote <$> ["a b"; "50%"])) = Ok ["a b"; "50%"].
Proof.
  apply (href_parse_inverts_render "/home/u" "localhost" 8080 ["a b"; "50%"]).
  - reflexivity.
  - repeat constructor.
Defined.

(** X6.  Rendering is injective on valid segments: two different component
    sequences never address the same locator. *)
Theorem href_render_injective (host : string) (port : Z) (cs1 cs2 : path) :
  Forall (λ x, valid_segment x = true) cs1 →
  Forall (λ x, valid_segment x = true) cs2 →
  remote_path_components_to_href host port cs1
  = remote_path_components_to_href host port cs2 →
  cs1 = cs2.
Proof.
  intros H1 H2 Heq.
  pose proof (href_of_components "/" host port cs1 eq_refl H1) as Hp1.
  pose proof (href_of_components "/" host port cs2 eq_refl H2) as Hp2.
  rewrite Heq in Hp1. congruence.
Qed.

Lemma href_render_injective_witness : ["a"; "b"] = ["a"; "b"].
Proof.
  apply (href_render_injective "localhost" 8080 ["a"; "b"] ["a"; "b"]);
    [repeat constructor|repeat constructor|reflexivity].
Defined.

(** X7.  Whatever the locator, the segments that
    [href_to_remote_path_components] returns are non-empty. *)
Theorem href_parser_returns_nonempty_segments (cwd host : string) (port : Z)
  (href : string) (cs : path) :
  href_to_remote_path_components cwd host port href = Ok cs →
  Forall (λ x, x ≠ "") cs.
Proof.
  unfold href_to_remote_path_components, bind.
  destruct (if Str.startswith href (href_base host port) then _ else _)
    as [relative_path|e]; [|done].
  unfold fspathverbs.compile_to_fspathverbs.
  destruct (Str.startswith relative_path "/"); [done|].
  simpl app. by apply href_segments_nonempty.
Qed.

Lemma href_parser_returns_nonempty_segments_witness :
  Forall (λ x, x ≠ "") ["a/b"; "."].
Proof.
  apply (href_parser_returns_nonempty_segments "/home/u" "localhost" 8080
           "/a%2Fb//%2E/").
  reflexivity.
Defined.

(** ** More on the directory creation *)

Section MoreDirectoryCreation.

Context {St : Type}.
Variable create : path → St → bool * St.

Implicit Types (p q : path) (log : list path).

Lemma logging_request p (st : St) log :
  ∃ created st', logging create p (st, log) = (created, (st', log ++ [p])).
Proof. unfold logging. simpl. destruct (create p st) as [c st']. by eexists _, _. Qed.

Lemma removelast_prefix p : removelast p `prefix_of` p.
Proof.
  destruct p as [|x p _] using rev_ind; [done|].
  rewrite removelast_last. by apply prefix_app_r.
Qed.

(** the requests of a run: at most two for each component, each for a
    non-empty prefix of the path, the first one for the path itself *)
Lemma create_directories_requests fuel :
  ∀ p (st : St) log r st' log',
    create_directories_from_remote_path_components (logging create) fuel p (st, log)
    = Some (r, (st', log')) →
    ∃ requests,
      log' = log ++ requests
      ∧ length requests ≤ 2 * length p
      ∧ Forall (λ q, q ≠ [] ∧ q `prefix_of` p) requests
      ∧ (p ≠ [] → head requests = Some p).
Proof.
  induction fuel as [|fuel IH]; intros p st log r st' log'; [done|].
  destruct (decide (p = [])) as [->|Hp].
  { intros [= <- <- <-]. exists []. by rewrite app_nil_r. }
  rewrite create_directories_unfold by done.
  destruct (logging_request p st log) as (created & st1 & ->).
  destruct created.
  { intros [= <- <- <-]. exists [p]. split_and!; [done| |by repeat constructor|done].
    destruct p; [done|simpl; lia]. }
  destruct (create_directories_from_remote_path_components _ fuel (removelast p) _)
    as [[ensured [st2 log2]]|] eqn:Hrec; [|done].
  apply IH in Hrec as (reqs & -> & Hlen & Hpre & _).
  assert (Hlast : length (removelast p) = pred (length p)).
  { destruct p as [|x p _] using rev_ind; [done|].
    rewrite removelast_last, length_app. simpl. lia. }
  rewrite Hlast in Hlen.
  assert (Hpos : 0 < length p) by (destruct p; [done|simpl; lia]).
  assert (Hpre' : Forall (λ q, q ≠ [] ∧ q `prefix_of` p) reqs).
  { eapply Forall_impl; [done|]. intros q [? ?]. split; [done|].
    etrans; [done|apply removelast_prefix]. }
  destruct ensured.
  - destruct (logging_request p st2 ((log ++ [p]) ++ reqs)) as (c & st3 & ->).
    intros [= <- <- <-]. exists ([p] ++ reqs ++ [p]).
    split_and!; [by rewrite <-!app_assoc| | |done].
    + rewrite !length_app. simpl. lia.
    + apply Forall_app. split; [by repeat constructor|].
      apply Forall_app. split; [done|by repeat constructor].
  - intros [= <- <- <-]. exists ([p] ++ reqs).
    split_and!; [by rewrite <-!app_assoc| | |done].
    + rewrite !length_app. simpl. lia.
    + apply Forall_app. split; [by repeat constructor|done].
Qed.

End MoreDirectoryCreation.

Section MoreDavStore.

Implicit Types (s : gset path) (p q : path).

Lemma mkcol_grows p s created s' :
  DavStore.mkcol p s = (created, s') →
  s ⊆ s' ∧ (∀ q, q ∈ s' → q ∈ s ∨ q = p) ∧ (created = true → p ∈ s').
Proof.
  unfold DavStore.mkcol. destruct (_ && _); intros [= <- <-]; set_solver.
Qed.

(** on the store, a run only adds collections, all of them prefixes of the
    path, and after a successful run the path exists *)
Lemma create_directories_grows fuel :
  ∀ p s r s',
    create_directories_from_remote_path_components DavStore.mkcol fuel p s
    = Some (r, s') →
    s ⊆ s'
    ∧ (∀ q, q ∈ s' → q ∈ s ∨ (q ≠ [] ∧ q `prefix_of` p))
    ∧ (r = true → DavStore.exists_collection s' p = true).
Proof.
  induction fuel as [|fuel IH]; intros p s r s'; [done|].
  destruct (decide (p = [])) as [->|Hp].
  { intros [= <- <-]. split_and!; [done|by left|done]. }
  rewrite create_directories_unfold by done.
  destruct (DavStore.mkcol p s) as [created s1] eqn:H1.
  apply mkcol_grows in H1 as (Hsub1 & Hnew1 & Hok1).
  destruct created.
  { intros [= <- <-]. split_and!; [done| |].
    - intros q [?| ->]%Hnew1; [by left|by right].
    - intros _. apply exists_collection_true. by apply Hok1. }
  destruct (create_directories_from_remote_path_components _ fuel (removelast p) s1)
    as [[ensured s2]|] eqn:Hrec; [|done].
  apply IH in Hrec as (Hsub2 & Hnew2 & _).
  assert (Hnew12 : ∀ q, q ∈ s2 → q ∈ s ∨ (q ≠ [] ∧ q `prefix_of` p)).
  { intros q [[?| ->]%Hnew1|[? ?]]%Hnew2; [by left|by right|].
    right. split; [done|]. etrans; [done|apply removelast_prefix]. }
  destruct ensured.
  - destruct (DavStore.mkcol p s2) as [created s3] eqn:H3.
    apply mkcol_grows in H3 as (Hsub3 & Hnew3 & Hok3).
    intros [= <- <-]. split_and!.
    + set_solver.
    + intros q [?%Hnew12| ->]%Hnew3; [done|by right].
    + intros ->. apply exists_collection_true. by apply Hok3.
  - intros [= <- <-]. split_and!; [set_solver|done|done].
Qed.

(** on a path all of whose collections exist already, the run fails: every
    creation is refused, on the way up and at the only retry *)
Lemma create_directories_existing p :
  p ≠ [] →
  ∀ s log fuel,
    (∀ q, q ∈ chain [] p → q ∈ s) →
    length p < fuel →
    ∃ requests,
      create_directories_from_remote_path_components (logging DavStore.mkcol)
        fuel p (s, log)
      = Some (false, (s, log ++ requests))
      ∧ length requests = S (length p).
Proof.
  induction p as [|x p IH] using rev_ind; [done|]. intros _ s log fuel Hall Hfuel.
  rewrite length_app in Hfuel. simpl in Hfuel.
  destruct fuel as [|fuel]; [lia|].
  rewrite create_directories_unfold by (by destruct p).
  assert (Hself : p ++ [x] ∈ s).
  { apply Hall. by apply (chain_last [] (p ++ [x])); destruct p. }
  assert (Hrefused : ∀ log0,
    logging DavStore.mkcol (p ++ [x]) (s, log0) = (false, (s, log0 ++ [p ++ [x]]))).
  { intros log0. rewrite logging_mkcol, (exists_collection_true s (p ++ [x])) by done.
    by rewrite andb_false_r. }
  rewrite Hrefused, removelast_last.
  destruct (decide (p = [])) as [->|Hp].
  - change ([] ++ [x]) with [x] in *. destruct fuel as [|fuel]; [simpl in *; lia|].
    rewrite create_directories_root, Hrefused. exists [[x]; [x]]. by rewrite <-app_assoc.
  - destruct (IH Hp s (log ++ [p ++ [x]]) fuel) as (reqs & -> & Hlen); [|lia|].
    { intros q Hq. apply Hall. rewrite chain_snoc. set_solver. }
    exists ([p ++ [x]] ++ reqs). split; [by rewrite <-app_assoc|].
    rewrite !length_app, Hlen. simpl. lia.
Qed.

End MoreDavStore.

(** X8.  Whatever the transport answers, a run of the directory creation
    issues at most two creation requests for each component of the path, each
    of them for a non-empty prefix of the path, and the first for the path
    itself. *)
Theorem create_directories_request_bound {St : Type}
  (create : path → St → bool * St) (fuel : nat) (p : path)
  (st : St) (log : list path) (r : bool) (st' : St) (log' : list path) :
  create_directories_from_remote_path_components (logging create) fuel p (st, log)
  = Some (r, (st', log')) →
  ∃ requests,
    log' = log ++ requests
    ∧ length requests ≤ 2 * length p
    ∧ Forall (λ q, q ≠ [] ∧ q `prefix_of` p) requests
    ∧ (p ≠ [] → head requests = Some p).
Proof. apply create_directories_requests. Qed.

Lemma create_directories_request_bound_witness :
  ∃ requests,
    [["a"; "b"]; ["a"]; ["a"; "b"]] = [] ++ requests
    ∧ length requests ≤ 2 * length ["a"; "b"]
    ∧ Forall (λ q, q ≠ [] ∧ q `prefix_of` ["a"; "b"]) requests
    ∧ (["a"; "b"] ≠ [] → head requests = Some ["a"; "b"]).
Proof.
  apply (create_directories_request_bound (λ p (n : nat), (bool_decide (0 < n), S n))
           3 ["a"; "b"] 0 [] true 3).
  reflexivity.
Defined.

(** X9.  On the remote store, the directory creation only adds collections,
    each of them a non-empty prefix of the path, and when it returns true the
    path exists afterwards. *)
Theorem create_directories_store_grows (fuel : nat) (p : path)
  (s : gset path) (r : bool) (s' : gset path) :
  create_directories_from_remote_path_components DavStore.mkcol fuel p s
  = Some (r, s') →
  s ⊆ s'
  ∧ (∀ q, q ∈ s' → q ∈ s ∨ (q ≠ [] ∧ q `prefix_of` p))
  ∧ (r = true → DavStore.exists_collection s' p = true).
Proof. apply create_directories_grows. Qed.

(** X10.  On a path whose collections all exist already, the directory
    creation returns false and leaves the store as it is, after one refused
    request for each component and one refused retry. *)
Theorem create_directories_fails_on_existing (p : path) (s : gset path)
  (log : list path) (fuel : nat) :
  p ≠ [] →
  (∀ q, q ∈ chain [] p → q ∈ s) →
  length p < fuel →
  ∃ requests,
    create_directories_from_remote_path_components (logging DavStore.mkcol)
      fuel p (s, log)
    = Some (false, (s, log ++ requests))
    ∧ length requests = S (length p).
Proof. intros Hp Hall Hfuel. by apply create_directories_existing. Qed.

Lemma create_directories_fails_on_existing_witness :
  ∃ requests,
    create_directories_from_remote_path_components (logging DavStore.mkcol)
      3 ["a"; "b"] ({[ ["a"]; ["a"; "b"] ]}, [])
    = Some (false, ({[ ["a"]; ["a"; "b"] ]}, [] ++ requests))
    ∧ length requests = S (length ["a"; "b"]).
Proof.
  apply (create_directories_fails_on_existing ["a"; "b"] {[ ["a"]; ["a"; "b"] ]} [] 3).
  - done.
  - intros q Hq. apply elem_of_chain in Hq as (i & Hi & ->). simpl in Hi.
    destruct i as [|[|[|i]]]; [lia| | |lia]; set_solver.
  - simpl. lia.
Defined.

Lemma create_directories_store_grows_witness :
  ∃ s' : gset path,
    (∅ : gset path) ⊆ s'
    ∧ (∀ q, q ∈ s' → q ∈ (∅ : gset path) ∨ (q ≠ [] ∧ q `prefix_of` ["a"; "b"]))
    ∧ (true = true → DavStore.exists_collection s' ["a"; "b"] = true).
Proof.
  eexists.
  apply (create_directories_store_grows 3 ["a"; "b"] ∅ true).
  reflexivity.
Defined.

(** ** The listing generator *)

Section Documents.

(** induction on a document, with the hypothesis for every child *)
Lemma element_tree_ind (P : element → Prop) :
  (∀ t x cs, Forall P cs → P (Element t x cs)) → ∀ e, P e.
Proof.
  intros step. fix IH 1. intros [t x cs]. apply step.
  induction cs as [|c cs IHcs]; constructor; [apply IH|apply IHcs].
Qed.

Lemma elem_of_descendants (e d : element) :
  d ∈ ElementTree.descendants e
  ↔ ∃ c, c ∈ ElementTree.children e ∧ (d = c ∨ d ∈ ElementTree.descendants c).
Proof.
  destruct e as [t x cs]. simpl. rewrite list_elem_of_In, in_flat_map.
  split; intros (c & Hc & Hd); exists c.
  - apply list_elem_of_In in Hc. apply list_elem_of_In, elem_of_cons in Hd. done.
  - rewrite <-!list_elem_of_In. by rewrite elem_of_cons.
Qed.

Lemma descendants_trans (e : element) :
  ∀ r d, r ∈ ElementTree.descendants e → d ∈ ElementTree.descendants r →
    d ∈ ElementTree.descendants e.
Proof.
  induction e as [t x cs IH] using element_tree_ind. intros r d Hr Hd.
  apply elem_of_descendants in Hr as (c & Hc & Hr). apply elem_of_descendants.
  exists c. split; [done|]. right. destruct Hr as [->|Hr]; [done|].
  rewrite Forall_forall in IH. by apply (IH c Hc r d).
Qed.

Lemma find_descendant_Some (t : string) (e d : element) :
  ElementTree.find_descendant t e = Some d →
  d ∈ ElementTree.descendants e ∧ ElementTree.tag d = t.
Proof.
  unfold ElementTree.find_descendant. intros Hd%head_Some_elem_of.
  by apply list_elem_of_filter in Hd as [? ?].
Qed.

Lemma find_descendant_None (t : string) (e : element) :
  ElementTree.find_descendant t e = None
  ↔ ∀ d, d ∈ ElementTree.descendants e → ElementTree.tag d ≠ t.
Proof.
  unfold ElementTree.find_descendant. rewrite head_None. split.
  - intros Hnil d Hd Ht.
    assert (Hin : d ∈ filter (λ d, ElementTree.tag d = t) (ElementTree.descendants e))
      by by apply list_elem_of_filter.
    rewrite Hnil in Hin. by apply elem_of_nil in Hin.
  - intros Hall.
    destruct (filter _ (ElementTree.descendants e)) as [|d l] eqn:Hf; [done|].
    assert (Hin : d ∈ filter (λ d, ElementTree.tag d = t) (ElementTree.descendants e))
      by (rewrite Hf; left).
    apply list_elem_of_filter in Hin as [Ht Hd]. by destruct (Hall d Hd).
Qed.

Lemma find_Some (t : string) (e c : element) :
  ElementTree.find t e = Some c → c ∈ ElementTree.descendants e ∧ ElementTree.tag c = t.
Proof.
  unfold ElementTree.find. intros Hc%head_Some_elem_of.
  apply list_elem_of_filter in Hc as [? ?]. split; [|done].
  apply elem_of_descendants. by exists c; split; [|left].
Qed.

(** the second test of the directory flag, for a collection marker directly
    below the resource type, never adds to the first *)
Lemma is_collection_descendant (node : element) :
  bool_decide (is_Some (ElementTree.find_descendant "{DAV:}collection" node))
  || bool_decide
       (is_Some
          match ElementTree.find_descendant "{DAV:}resourcetype" node with
          | Some resourcetype => ElementTree.find "{DAV:}collection" resourcetype
          | None => None
          end)
  = true
  ↔ ∃ d, d ∈ ElementTree.descendants node ∧ ElementTree.tag d = "{DAV:}collection".
Proof.
  rewrite orb_true_iff, !bool_decide_eq_true. split.
  - intros [[d Hd]|[c Hc]].
    + exists d. by apply find_descendant_Some.
    + destruct (ElementTree.find_descendant "{DAV:}resourcetype" node) as [r|] eqn:Hr;
        [|done].
      apply find_descendant_Some in Hr as [Hr _]. apply find_Some in Hc as [Hc Ht].
      exists c. split; [|done]. by apply (descendants_trans node r c).
  - intros (d & Hd & Ht). left.
    destruct (ElementTree.find_descendant "{DAV:}collection" node) as [c|] eqn:Hc;
      [by eexists|].
    rewrite find_descendant_None in Hc. by destruct (Hc d Hd).
Qed.

Lemma listing_of_response_node_elem (cwd host : string) (port : Z) (node : element)
  (entry : path) (flag : bool) :
  (entry, flag) ∈ (listing_of_response_node cwd host port node).1 →
  ∃ href_node href,
    ElementTree.find_descendant "{DAV:}href" node = Some href_node
    ∧ ElementTree.text href_node = Some href
    ∧ href_to_remote_path_components cwd host port href = Ok entry
    ∧ (flag = true
       ↔ ∃ d, d ∈ ElementTree.descendants node
              ∧ ElementTree.tag d = "{DAV:}collection").
Proof.
  unfold listing_of_response_node.
  destruct (ElementTree.find_descendant "{DAV:}href" node) as [href_node|];
    [|by intros ?%elem_of_nil].
  destruct (ElementTree.text href_node) as [href|] eqn:Htext;
    [|by intros ?%elem_of_nil].
  destruct (href_to_remote_path_components cwd host port href) as [cs|e] eqn:Hparse;
    [|by intros ?%elem_of_nil].
  intros [= -> ->]%list_elem_of_singleton. exists href_node, href.
  split_and!; [done..|]. apply is_collection_descendant.
Qed.

End Documents.

Section MultiStatus.

Implicit Types (cs : path) (entry : path * bool).

Lemma split_trailing_slash (s : string) :
  Str.split (s +:+ "/") = Str.split s ++ [""].
Proof.
  pose proof (split_app_slash s "") as H. by rewrite str_app_nil_r in H.
Qed.

(** a locator closed by a slash, as stores give it for a collection, parses
    to the components of the collection *)
Lemma collection_href_of_components (cwd host : string) (port : Z) cs :
  cs ≠ [] → Forall (λ x, valid_segment x = true) cs →
  href_to_remote_path_components cwd host port
    ("/" +:+ Str.join (urllib.quote <$> cs) +:+ "/") = Ok cs.
Proof.
  intros Hne Hcs.
  assert (Hqs : Forall (λ x, valid_segment x = true) (urllib.quote <$> cs)).
  { apply Forall_fmap. eapply Forall_impl; [done|]. apply quote_valid_segment. }
  assert (Hqne : urllib.quote <$> cs ≠ []) by by destruct cs.
  unfold href_to_remote_path_components. rewrite href_base_not_slash.
  change (Str.startswith ("/" +:+ ?s) "/") with true.
  change (Str.drop1 ("/" +:+ ?s)) with s. unfold bind.
  unfold fspathverbs.compile_to_fspathverbs.
  destruct (join_nonempty (urllib.quote <$> cs)) as [Hjoin _]; [done| |].
  { eapply Forall_impl; [done|]. by intros x (? & ? & _)%valid_segment_spec. }
  pose proof (join_relative _ Hqs) as Hrel. unfold posixpath.isabs in Hrel.
  rewrite startswith_slash_app, Hrel by done.
  rewrite split_trailing_slash, split_join_segments, decide_False by done.
  rewrite flat_map_app, segment_verbs_children by done. simpl.
  rewrite app_nil_r, href_children, <-list_fmap_compose. simpl. f_equal.
  rewrite <-(list_fmap_id cs) at 2. apply list_fmap_ext.
  intros _ x _. apply unquote_quote.
Qed.

Lemma href_of_entry_parses (cwd host : string) (port : Z) entry :
  Forall (λ x, valid_segment x = true) entry.1 →
  href_to_remote_path_components cwd host port (href_of_entry entry) = Ok entry.1.
Proof.
  destruct entry as [cs flag]. simpl. intros Hcs. unfold href_of_entry. simpl fst.
  simpl snd. destruct (flag && COWList.truthy cs) eqn:Hslash.
  - apply collection_href_of_components; [|done].
    apply andb_true_iff in Hslash as [_ Hcs']. by destruct cs.
  - rewrite str_app_nil_r. by apply relative_href_of_components.
Qed.

Lemma response_node_listing (cwd host : string) (port : Z) entry :
  Forall (λ x, valid_segment x = true) entry.1 →
  listing_of_response_node cwd host port (response_node entry) = yields [entry].
Proof.
  intros Hcs. pose proof (href_of_entry_parses cwd host port entry Hcs) as Hparse.
  unfold listing_of_response_node, response_node.
  destruct entry as [cs flag]. simpl fst in *. simpl snd in *.
  revert Hparse. generalize (href_of_entry (cs, flag)). intros href Hparse.
  destruct flag.
  - change (ElementTree.find_descendant "{DAV:}href" _)
      with (Some (Element "{DAV:}href" (Some href) [])).
    unfold ElementTree.text. cbv iota beta. rewrite Hparse. reflexivity.
  - change (ElementTree.find_descendant "{DAV:}href" _)
      with (Some (Element "{DAV:}href" (Some href) [])).
    unfold ElementTree.text. cbv iota beta. rewrite Hparse. reflexivity.
Qed.

Lemma findall_response_nodes (entries : list (path * bool)) :
  ElementTree.findall "{DAV:}response" (content (multistatus entries))
  = response_node <$> entries.
Proof.
  unfold multistatus, ElementTree.findall.
  change (ElementTree.children (content _)) with (response_node <$> entries).
  induction entries as [|entry entries IH]; [done|].
  rewrite fmap_cons, filter_cons_True by done. by rewrite IH.
Qed.

Lemma multistatus_listing (cwd host : string) (port : Z)
  (entries : list (path * bool)) :
  Forall (λ entry, Forall (λ x, valid_segment x = true) entry.1) entries →
  for_yield (listing_of_response_node cwd host port)
    (ElementTree.findall "{DAV:}response" (content (multistatus entries)))
  = yields entries.
Proof.
  rewrite findall_response_nodes.
  induction 1 as [|entry entries Hentry _ IH]; [done|].
  rewrite fmap_cons, for_yield_cons, IH, response_node_listing by done.
  apply (and_then_yields [entry] entries).
Qed.

End MultiStatus.

(** X11.  An entry that the listing generator yields comes from a response
    with status 207, from a response element whose first locator parses to
    the entry; and it is flagged as a directory exactly when a collection
    marker occurs anywhere below that response element: the second test, for
    a marker directly below the resource type, never adds to the first. *)
Theorem listing_entries_and_flags (cwd host : string) (port : Z)
  (propfind : string → response) (target entry : path) (flag : bool) :
  (entry, flag)
    ∈ (iterate_listings_and_is_directories cwd host port propfind target).1 →
  let response := propfind (remote_path_components_to_href host port target) in
  status_code response = 207%Z
  ∧ ∃ node href_node href,
      node ∈ ElementTree.children (content response)
      ∧ ElementTree.tag node = "{DAV:}response"
      ∧ ElementTree.find_descendant "{DAV:}href" node = Some href_node
      ∧ ElementTree.text href_node = Some href
      ∧ href_to_remote_path_components cwd host port href = Ok entry
      ∧ (flag = true
         ↔ ∃ d, d ∈ ElementTree.descendants node
                ∧ ElementTree.tag d = "{DAV:}collection").
Proof.
  unfold iterate_listings_and_is_directories. cbv zeta. case_bool_decide as Hstatus;
    [|by intros ?%elem_of_nil].
  intros (node & Hnode & Hin)%for_yield_elem. split; [done|].
  apply list_elem_of_filter in Hnode as [Htag Hnode].
  apply listing_of_response_node_elem in Hin as (href_node & href & ? & ? & ? & ?).
  by exists node, href_node, href.
Qed.

Lemma listing_entries_and_flags_witness :
  let response := marker_outside_resourcetype in
  status_code response = 207%Z
  ∧ ∃ node href_node href,
      node ∈ ElementTree.children (content response)
      ∧ ElementTree.tag node = "{DAV:}response"
      ∧ ElementTree.find_descendant "{DAV:}href" node = Some href_node
      ∧ ElementTree.text href_node = Some href
      ∧ href_to_remote_path_components "/" "localhost" 8080 href = Ok ["a b"]
      ∧ (true = true
         ↔ ∃ d, d ∈ ElementTree.descendants node
                ∧ ElementTree.tag d = "{DAV:}collection").
Proof.
  apply (listing_entries_and_flags "/" "localhost" 8080
           (λ _, marker_outside_resourcetype) [] ["a b"] true).
  vm_compute. left.
Defined.

(** X12.  The listing generator decodes the multi-status document of a store:
    for entries whose components are valid segments it yields exactly the
    entries of the document, in order, each with its directory flag, and
    returns. *)
Theorem listing_decodes_multistatus (cwd host : string) (port : Z)
  (propfind : string → response) (target : path) (entries : list (path * bool)) :
  propfind (remote_path_components_to_href host port target) = multistatus entries →
  Forall (λ entry, Forall (λ x, valid_segment x = true) entry.1) entries →
  iterate_listings_and_is_directories cwd host port propfind target = yields entries.
Proof.
  intros Hresponse Hentries. unfold iterate_listings_and_is_directories. cbv zeta.
  rewrite Hresponse. by apply multistatus_listing.
Qed.

Lemma listing_decodes_multistatus_witness :
  iterate_listings_and_is_directories "/" "localhost" 8080
    (λ _, multistatus [(["d"], true); (["d"; "a b.txt"], false)]) ["d"]
  = yields [(["d"], true); (["d"; "a b.txt"], false)].
Proof.
  apply (listing_decodes_multistatus "/" "localhost" 8080
           (λ _, multistatus [(["d"], true); (["d"; "a b.txt"], false)]) ["d"]).
  - reflexivity.
  - repeat constructor.
Defined.

(** ** More on the get planner *)

Section GetOrder.

Context {St : Type}.
Variable listings : St → path → list (path * bool).
Variable st : St.

Implicit Types (target prefix file q : path) (acts : list GetAction) (a : GetAction).

Lemma strictly_inside_snoc prefix name : strictly_inside prefix (prefix ++ [name]).
Proof. by exists [name]. Qed.

Lemma strictly_inside_trans q1 q2 q3 :
  strictly_inside q1 q2 → strictly_inside q2 q3 → strictly_inside q1 q3.
Proof.
  intros (r1 & H1 & ->) (r2 & H2 & ->). exists (r1 ++ r2).
  split; [by destruct r1|by rewrite app_assoc].
Qed.

Lemma download_into_elem prefix file a :
  a ∈ (download_into prefix file).1 →
  ∃ name, last file = Some name ∧ a = DownloadRemoteFile file (prefix ++ [name]).
Proof.
  unfold download_into, COWList.last_item.
  destruct (last file) as [name|]; [|by intros ?%elem_of_nil].
  intros ->%list_elem_of_singleton. by exists name.
Qed.

(** where the actions come from, one level of the planner down *)
Lemma get_level_elem fuel target prefix a :
  a ∈ (iterate_get_actions listings (S fuel) st target prefix).1 →
  (∃ name, list_remote_file_or_directory listings st target = IsFile target
           ∧ last target = Some name
           ∧ a = DownloadRemoteFile target (prefix ++ [name]))
  ∨ ∃ files directories new_prefix,
      list_remote_file_or_directory listings st target = IsDirectory files directories
      ∧ match last target with
        | None => new_prefix = prefix
        | Some name => new_prefix = prefix ++ [name]
        end
      ∧ ((a = CreateLocalDirectory new_prefix ∧ target ≠ [])
         ∨ (∃ file name, file ∈ files ∧ last file = Some name
                         ∧ a = DownloadRemoteFile file (new_prefix ++ [name]))
         ∨ (∃ directory, directory ∈ directories
                         ∧ a ∈ (iterate_get_actions listings fuel st directory
                                  new_prefix).1)).
Proof.
  simpl. pose proof (classify_cases target (listings st target)) as Hcases.
  unfold list_remote_file_or_directory in *.
  destruct (classify target (listings st target)) as [files directories|file|].
  - intros Ha. right. exists files, directories.
    assert (Hcontents : ∀ new_prefix,
      a ∈ (and_then (for_yield (download_into new_prefix) files)
             (for_yield (λ d, iterate_get_actions listings fuel st d new_prefix)
                directories)).1 →
      (∃ file name, file ∈ files ∧ last file = Some name
                    ∧ a = DownloadRemoteFile file (new_prefix ++ [name]))
      ∨ (∃ directory, directory ∈ directories
                      ∧ a ∈ (iterate_get_actions listings fuel st directory
                               new_prefix).1)).
    { intros new_prefix [Hd|Hr]%and_then_elem.
      - apply for_yield_elem in Hd as (file & Hfile & Hd).
        apply download_into_elem in Hd as (name & Hname & ->). left. by exists file, name.
      - apply for_yield_elem in Hr as (directory & Hdir & Hr). right. by exists directory. }
    destruct target as [|x target'] eqn:Htarget using rev_ind.
    + exists prefix. split_and!; [done..|]. right. by apply Hcontents.
    + clear IHtarget'. rewrite last_snoc.
      assert (Htruthy : COWList.truthy (target' ++ [x]) = true) by by destruct target'.
      rewrite Htruthy in Ha. simpl in Ha. unfold COWList.last_item in Ha.
      rewrite last_snoc in Ha. exists (prefix ++ [x]). split_and!; [done..|].
      apply and_then_elem in Ha as [Ha|Ha].
      * apply list_elem_of_singleton in Ha. left. split; [done|]. by destruct target'.
      * right. by apply Hcontents.
  - destruct Hcases as [_ ->]. intros (name & Hname & ->)%download_into_elem.
    left. by exists name.
  - by intros ?%elem_of_nil.
Qed.

Lemma get_actions_inside fuel :
  ∀ target prefix a,
    a ∈ (iterate_get_actions listings fuel st target prefix).1 →
    strictly_inside prefix (get_action_local_path a).
Proof.
  induction fuel as [|fuel IH]; intros target prefix a; [by intros ?%elem_of_nil|].
  intros [(name & _ & _ & ->)|(files & directories & new_prefix & _ & Hnew & Ha)]
    %get_level_elem; [apply strictly_inside_snoc|].
  assert (Hlift : ∀ p, strictly_inside new_prefix p → strictly_inside prefix p).
  { destruct (last target) as [name|]; subst new_prefix; [|done].
    intros p. apply strictly_inside_trans, strictly_inside_snoc. }
  destruct Ha as [[-> Hne]|[(file & name & _ & _ & ->)|(directory & _ & Ha)]].
  - destruct (last target) as [name|] eqn:Hlast; subst new_prefix;
      [apply strictly_inside_snoc|].
    by apply last_None in Hlast.
  - apply Hlift, strictly_inside_snoc.
  - by apply Hlift, (IH directory).
Qed.

Lemma parents_created_first_app prefix acts1 acts2 :
  parents_created_first prefix acts1 →
  parents_created_first prefix acts2 →
  parents_created_first prefix (acts1 ++ acts2).
Proof.
  intros H1 H2 j a q Hj Hq Ha. apply lookup_app_Some in Hj as [Hj|[Hlen Hj]].
  - destruct (H1 j a q Hj Hq Ha) as (i & Hi & Hc). exists i. split; [done|].
    by apply lookup_app_l_Some.
  - destruct (H2 _ a q Hj Hq Ha) as (i & Hi & Hc). exists (length acts1 + i).
    split; [lia|]. rewrite lookup_app_r by lia. rewrite <-Hc. f_equal. lia.
Qed.

Lemma parents_created_first_and_then prefix (s1 s2 : stream GetAction) :
  parents_created_first prefix s1.1 →
  parents_created_first prefix s2.1 →
  parents_created_first prefix (and_then s1 s2).1.
Proof.
  intros H1 H2. unfold and_then. destruct (s1.2); [|done..].
  by apply parents_created_first_app.
Qed.

Lemma parents_created_first_for_yield {A} prefix (body : A → stream GetAction)
  (xs : list A) :
  (∀ x, x ∈ xs → parents_created_first prefix (body x).1) →
  parents_created_first prefix (for_yield body xs).1.
Proof.
  induction xs as [|x xs IH]; intros Hall.
  - by intros j a q ?.
  - rewrite for_yield_cons. apply parents_created_first_and_then.
    + apply Hall. left.
    + apply IH. intros y Hy. apply Hall. by right.
Qed.

Lemma parents_created_first_leaf prefix a name :
  get_action_local_path a = prefix ++ [name] → parents_created_first prefix [a].
Proof.
  intros Hlocal j b q Hj Hq Hb. apply list_lookup_singleton_Some in Hj as [-> <-].
  apply strictly_inside_length in Hq, Hb. rewrite Hlocal, length_app in Hb.
  simpl in Hb. lia.
Qed.

Lemma parents_created_first_below prefix name acts :
  parents_created_first (prefix ++ [name]) acts →
  (∀ a, a ∈ acts → strictly_inside (prefix ++ [name]) (get_action_local_path a)) →
  parents_created_first prefix (CreateLocalDirectory (prefix ++ [name]) :: acts).
Proof.
  intros Hacts Hinside [|j] a q Hj Hq Ha.
  - injection Hj as <-. apply strictly_inside_length in Hq, Ha.
    simpl in Ha. rewrite length_app in Ha. simpl in Ha. lia.
  - simpl in Hj. pose proof (Hinside a (list_elem_of_lookup_2 _ _ _ Hj)) as Hin.
    destruct Hq as (r1 & Hr1 & ->). destruct Ha as (r2 & Hr2 & Hlocal).
    destruct Hin as (rest & Hrest & Hlocal'). rewrite Hlocal' in Hlocal.
    rewrite <-!app_assoc in Hlocal. apply app_inv_head in Hlocal.
    destruct r1 as [|x r1]; [done|]. injection Hlocal as <- Hrest'.
    destruct r1 as [|y r1].
    + exists 0. split; [lia|done].
    + destruct (Hacts j a (prefix ++ [name] ++ y :: r1)) as (i & Hi & Hc).
      * done.
      * exists (y :: r1). by rewrite <-app_assoc.
      * exists r2. split; [done|]. rewrite Hlocal', Hrest'. by rewrite <-!app_assoc.
      * exists (S i). split; [lia|done].
Qed.

Lemma downloads_created_first prefix files :
  parents_created_first prefix (for_yield (download_into prefix) files).1.
Proof.
  apply parents_created_first_for_yield. intros file _.
  unfold download_into, COWList.last_item.
  destruct (last file) as [name|]; [|by intros j a q ?].
  by apply (parents_created_first_leaf _ _ name).
Qed.

Lemma contents_inside fuel new_prefix files directories a :
  a ∈ (and_then (for_yield (download_into new_prefix) files)
         (for_yield (λ d, iterate_get_actions listings fuel st d new_prefix)
            directories)).1 →
  strictly_inside new_prefix (get_action_local_path a).
Proof.
  intros [Ha|Ha]%and_then_elem; apply for_yield_elem in Ha as (x & _ & Ha).
  - apply download_into_elem in Ha as (name & _ & ->). apply strictly_inside_snoc.
  - by apply get_actions_inside in Ha.
Qed.

Lemma get_parents_created_first fuel :
  ∀ target prefix,
    parents_created_first prefix (iterate_get_actions listings fuel st target prefix).1.
Proof.
  induction fuel as [|fuel IH]; intros target prefix; [by intros j a q ?|].
  assert (Hcontents : ∀ files directories new_prefix,
    parents_created_first new_prefix
      (and_then (for_yield (download_into new_prefix) files)
         (for_yield (λ d, iterate_get_actions listings fuel st d new_prefix)
            directories)).1).
  { intros files directories new_prefix. apply parents_created_first_and_then.
    - apply downloads_created_first.
    - apply parents_created_first_for_yield. intros d _. apply IH. }
  simpl.
  destruct (list_remote_file_or_directory listings st target)
    as [files directories|file|].
  - destruct (COWList.truthy target) eqn:Htruthy; simpl; [|apply Hcontents].
    unfold COWList.last_item.
    destruct (last target) as [name|]; [|by intros j a q ?].
    unfold and_then at 1. cbn [yields fst snd app].
    apply parents_created_first_below; [apply Hcontents|].
    intros a. apply contents_inside.
  - unfold download_into, COWList.last_item.
    destruct (last file) as [name|]; [|by intros j a q ?].
    by apply (parents_created_first_leaf _ _ name).
  - by intros j a q ?.
Qed.

Lemma get_actions_listed fuel :
  ∀ target prefix a,
    a ∈ (iterate_get_actions listings fuel st target prefix).1 →
    ∃ t name,
      last t = Some name
      ∧ last (get_action_local_path a) = Some name
      ∧ match a with
        | DownloadRemoteFile remote _ => remote = t ∧ ∃ t', (t, false) ∈ listings st t'
        | CreateLocalDirectory _ => (t, true) ∈ listings st t
        end.
Proof.
  induction fuel as [|fuel IH]; intros target prefix a; [by intros ?%elem_of_nil|].
  pose proof (classify_cases target (listings st target)) as Hcases.
  intros [(name & Hlist & Hlast & ->)
         |(files & directories & new_prefix & Hlist & Hnew & Ha)]%get_level_elem;
    unfold list_remote_file_or_directory in Hlist; rewrite Hlist in Hcases.
  - destruct Hcases as [Hfile _]. exists target, name. simpl. rewrite last_snoc.
    split_and!; [done..|]. exists target. by apply listing_map_Some.
  - destruct Hcases as (Hdir & Hfiles & _).
    destruct Ha as [[-> Hne]|[(file & name & Hfile & Hlast & ->)|(directory & _ & Ha)]].
    + destruct (last target) as [name|] eqn:Hlast; [|by apply last_None in Hlast].
      subst new_prefix. exists target, name. simpl. rewrite last_snoc.
      split_and!; [done..|]. by apply listing_map_Some.
    + exists file, name. simpl. rewrite last_snoc. split_and!; [done..|].
      exists target. apply listing_map_Some. by apply Hfiles.
    + by apply IH in Ha.
Qed.

End GetOrder.

(** X13.  Every action of the get planner, also of a run that fails or is cut
    off later, writes strictly below the local prefix: its local path is the
    prefix followed by at least one more component. *)
Theorem get_writes_below_prefix {St : Type}
  (listings : St → path → list (path * bool)) (st : St) (fuel : nat)
  (target prefix : path) (a : GetAction) :
  a ∈ (iterate_get_actions listings fuel st target prefix).1 →
  ∃ rest, rest ≠ [] ∧ get_action_local_path a = prefix ++ rest.
Proof. apply get_actions_inside. Qed.

Lemma get_writes_below_prefix_witness :
  ∃ rest, rest ≠ [] ∧ ["out"; "b"; "c.txt"] = ["out"] ++ rest.
Proof.
  apply (get_writes_below_prefix scenario_listings () 3 ["b"] ["out"]
           (DownloadRemoteFile ["b"; "c.txt"] ["out"; "b"; "c.txt"])).
  vm_compute. right. left.
Defined.

(** X14.  The get planner creates a local directory before it writes into it:
    for every action, every directory strictly between the local prefix and
    the local path of the action has been created by an earlier action.  This
    holds for every target and every store, also for a run that fails or is
    cut off later. *)
Theorem get_creates_parents_first {St : Type}
  (listings : St → path → list (path * bool)) (st : St) (fuel : nat)
  (target prefix : path) :
  parents_created_first prefix (iterate_get_actions listings fuel st target prefix).1.
Proof. apply get_parents_created_first. Qed.

(** X15.  Every action of the get planner comes from a listing and keeps the
    remote name: a download fetches a path that some listing reports as a
    file, a created directory stands for a target that its own listing reports
    as a directory, and the local path ends in the last component of that
    remote path. *)
Theorem get_actions_follow_listings {St : Type}
  (listings : St → path → list (path * bool)) (st : St) (fuel : nat)
  (target prefix : path) (a : GetAction) :
  a ∈ (iterate_get_actions listings fuel st target prefix).1 →
  ∃ t name,
    last t = Some name
    ∧ last (get_action_local_path a) = Some name
    ∧ match a with
      | DownloadRemoteFile remote _ => remote = t ∧ ∃ t', (t, false) ∈ listings st t'
      | CreateLocalDirectory _ => (t, true) ∈ listings st t
      end.
Proof. apply get_actions_listed. Qed.

Lemma get_actions_follow_listings_witness :
  ∃ t name,
    last t = Some name
    ∧ last ["out"; "b"] = Some name
    ∧ (t, true) ∈ scenario_listings () t.
Proof.
  apply (get_actions_follow_listings scenario_listings () 3 ["b"] ["out"]
           (CreateLocalDirectory ["out"; "b"])).
  vm_compute. left.
Defined.

(** ** The get planner on a tree-shaped store *)

Section TreeStore.

Implicit Types (n root : rnode) (target prefix : path)
  (children : list (string * rnode)).

(** induction on a remote tree, with the hypothesis for every child *)
Lemma rnode_tree_ind (P : rnode → Prop) :
  P RemoteFile →
  (∀ children, Forall (λ c, P c.2) children → P (RemoteDirectory children)) →
  ∀ n, P n.
Proof.
  intros Hfile Hdir. fix IH 1. intros [|children]; [done|]. apply Hdir.
  induction children as [|[name r] children IHc]; constructor; [apply IH|apply IHc].
Qed.

Lemma remote_wf_directory children :
  RemoteTree.wf (RemoteDirectory children) = true
  ↔ NoDup children.*1 ∧ ∀ name r, (name, r) ∈ children → RemoteTree.wf r = true.
Proof.
  simpl. rewrite andb_true_iff, bool_decide_eq_true, forallb_forall.
  apply and_iff_compat_l. split.
  - intros Hall name r Hin. by apply (Hall (name, r)), list_elem_of_In.
  - intros Hall [name r] Hin. by apply (Hall name r), list_elem_of_In.
Qed.

Lemma remote_lookup_child_elem name r children :
  NoDup children.*1 → (name, r) ∈ children →
  RemoteTree.lookup_child name children = Some r.
Proof.
  induction children as [|[n' r'] children IH]; csimpl; [by intros _ ?%elem_of_nil|].
  intros [Hn' Hnd]%NoDup_cons [[= -> ->]|Hin]%elem_of_cons.
  - by rewrite decide_True.
  - rewrite decide_False; [by apply IH|]. intros ->. apply Hn'.
    apply list_elem_of_fmap. by exists (name, r).
Qed.

Lemma remote_lookup_child_Some name r children :
  RemoteTree.lookup_child name children = Some r → (name, r) ∈ children.
Proof.
  induction children as [|[n' r'] children IH]; simpl; [done|].
  case_decide as Hn; [intros [= ->]; subst; left|right; by apply IH].
Qed.

Lemma remote_resolve_app root a b :
  RemoteTree.resolve root (a ++ b)
  = RemoteTree.resolve root a ≫= λ n, RemoteTree.resolve n b.
Proof.
  revert root. induction a as [|x a IH]; intros root; [done|]. simpl.
  destruct root as [|children]; [done|].
  destruct (RemoteTree.lookup_child x children) as [r|]; [apply IH|done].
Qed.

Lemma remote_resolve_wf root target n :
  RemoteTree.wf root = true → RemoteTree.resolve root target = Some n →
  RemoteTree.wf n = true.
Proof.
  revert root. induction target as [|x target IH]; intros root Hwf; simpl.
  - by intros [= <-].
  - destruct root as [|children]; [done|].
    destruct (RemoteTree.lookup_child x children) as [r|] eqn:Hr; [|done].
    apply IH. apply remote_wf_directory in Hwf as [_ Hall].
    by apply (Hall x), remote_lookup_child_Some.
Qed.

Lemma remote_resolve_child root target children name r :
  RemoteTree.resolve root target = Some (RemoteDirectory children) →
  NoDup children.*1 → (name, r) ∈ children →
  RemoteTree.resolve root (target ++ [name]) = Some r.
Proof.
  intros Ht Hnd Hin. rewrite remote_resolve_app, Ht. simpl.
  by rewrite (remote_lookup_child_elem name r).
Qed.

Lemma pydict_set_fresh {V} (d : pydict.t V) k v :
  k ∉ d.*1 → pydict.set d k v = d ++ [(k, v)].
Proof.
  induction d as [|[k' v'] d IH]; csimpl; [done|].
  intros [Hk Hd]%not_elem_of_cons. rewrite decide_False by done. by rewrite IH.
Qed.

Lemma pydict_of_pairs_NoDup {V} (pairs : list (path * V)) :
  NoDup pairs.*1 → pydict.of_pairs pairs = pairs.
Proof.
  unfold pydict.of_pairs.
  enough (H : ∀ d, NoDup (d ++ pairs).*1 →
            foldl (λ d kv, pydict.set d kv.1 kv.2) d pairs = d ++ pairs)
    by apply (H []).
  induction pairs as [|[k v] pairs IH]; intros d Hnd; simpl; [by rewrite app_nil_r|].
  rewrite pydict_set_fresh.
  - rewrite IH; rewrite <-app_assoc; done.
  - rewrite fmap_app in Hnd. apply NoDup_app in Hnd as (_ & Hd & _).
    intros Hk. apply (Hd k Hk). left.
Qed.

Lemma child_entries_keys target children :
  NoDup children.*1 → NoDup (RemoteTree.child_entries target children).*1 ∧
  target ∉ (RemoteTree.child_entries target children).*1.
Proof.
  intros Hnd. unfold RemoteTree.child_entries. rewrite <-list_fmap_compose. split.
  - induction children as [|[name r] children IH]; csimpl; [constructor|].
    apply NoDup_cons in Hnd as [Hname Hnd]. constructor; [|by apply IH].
    intros ([name' r'] & Heq & Hin)%list_elem_of_fmap. simpl in Heq.
    apply app_inv_head in Heq as [= ->]. apply Hname, list_elem_of_fmap.
    by exists (name', r').
  - intros ([name r] & Heq & _)%list_elem_of_fmap. simpl in Heq.
    apply (f_equal length) in Heq. rewrite length_app in Heq. simpl in Heq. lia.
Qed.

Lemma files_of_child_entries target children :
  files_of (RemoteTree.child_entries target children)
  = (λ c, target ++ [c.1])
      <$> filter (λ c, RemoteTree.is_directory c.2 = false) children.
Proof.
  unfold files_of, RemoteTree.child_entries.
  induction children as [|[name r] children IH]; [done|]. rewrite fmap_cons.
  destruct r.
  - rewrite !filter_cons_True by done. rewrite !fmap_cons. by rewrite IH.
  - rewrite !filter_cons_False by done. by rewrite IH.
Qed.

Lemma directories_of_child_entries target children :
  directories_of (RemoteTree.child_entries target children)
  = (λ c, target ++ [c.1])
      <$> filter (λ c, RemoteTree.is_directory c.2 = true) children.
Proof.
  unfold directories_of, RemoteTree.child_entries.
  induction children as [|[name r] children IH]; [done|]. rewrite fmap_cons.
  destruct r.
  - rewrite !filter_cons_False by done. by rewrite IH.
  - rewrite !filter_cons_True by done. rewrite !fmap_cons. by rewrite IH.
Qed.

Lemma list_tree_directory root target children :
  RemoteTree.resolve root target = Some (RemoteDirectory children) →
  NoDup children.*1 →
  list_remote_file_or_directory (RemoteTree.listing root) () target
  = IsDirectory
      ((λ c, target ++ [c.1])
         <$> filter (λ c, RemoteTree.is_directory c.2 = false) children)
      ((λ c, target ++ [c.1])
         <$> filter (λ c, RemoteTree.is_directory c.2 = true) children).
Proof.
  intros Ht Hnd. unfold list_remote_file_or_directory, RemoteTree.listing.
  rewrite Ht.
  destruct (child_entries_keys target children Hnd) as [Hkeys Htarget].
  unfold classify. rewrite pydict_of_pairs_NoDup by (csimpl; by constructor).
  simpl. rewrite !decide_True by done. unfold pydict.items.
  rewrite classify_fold. simpl.
  by rewrite files_of_child_entries, directories_of_child_entries.
Qed.

Lemma list_tree_file root target :
  RemoteTree.resolve root target = Some RemoteFile →
  list_remote_file_or_directory (RemoteTree.listing root) () target = IsFile target.
Proof.
  intros Ht. unfold list_remote_file_or_directory, RemoteTree.listing.
  rewrite Ht. unfold classify. simpl. by rewrite decide_True.
Qed.

Lemma list_tree_missing root target :
  RemoteTree.resolve root target = None →
  list_remote_file_or_directory (RemoteTree.listing root) () target = NotFound.
Proof.
  intros Ht. unfold list_remote_file_or_directory, RemoteTree.listing.
  by rewrite Ht.
Qed.

Lemma tree_plan_spec root :
  RemoteTree.wf root = true →
  ∀ n target prefix,
    RemoteTree.resolve root target = Some n →
    RemoteTree.is_directory n = true →
    get_plan_spec (RemoteTree.listing root) () target prefix
      (RemoteTree.collection_plan target prefix n).
Proof.
  intros Hroot. induction n as [|children IH] using rnode_tree_ind; [done|].
  intros target prefix Ht _.
  pose proof (remote_resolve_wf root target _ Hroot Ht) as Hwf.
  apply remote_wf_directory in Hwf as [Hnd Hwf].
  set (new_prefix := match last target with
                     | None => prefix | Some name => prefix ++ [name] end).
  set (self := match last target with
               | None => [] | Some name => [CreateLocalDirectory (prefix ++ [name])]
               end).
  assert (Hplan : RemoteTree.collection_plan target prefix (RemoteDirectory children)
                  = self ++ RemoteTree.contents_plan target new_prefix
                              (RemoteDirectory children)).
  { unfold RemoteTree.collection_plan, self, new_prefix. by destruct (last target). }
  rewrite Hplan. simpl RemoteTree.contents_plan.
  eapply (plan_is_directory _ _ target prefix _ _ self new_prefix).
  - by apply list_tree_directory.
  - unfold self, new_prefix. by destruct (last target).
  - apply Forall2_fmap, Forall_Forall2_diag, Forall_forall. intros [name r] _.
    exists name. simpl. by rewrite last_snoc.
  - assert (Hsub : ∀ c, c ∈ children → c ∈ children) by done.
    revert Hsub. generalize children at 1 3 4. intros l Hsub.
    induction l as [|[name r] l IHl]; [constructor|].
    assert (Hin : (name, r) ∈ children) by (apply Hsub; left).
    assert (Hrest : ∀ c, c ∈ l → c ∈ children) by (intros c Hc; apply Hsub; by right).
    destruct r as [|sub].
    + rewrite filter_cons_False by done. simpl flat_map. by apply IHl.
    + rewrite filter_cons_True by done. rewrite fmap_cons. simpl flat_map.
      rewrite app_comm_cons. constructor; [|by apply IHl].
      rewrite Forall_forall in IH.
      specialize (IH (name, RemoteDirectory sub) Hin (target ++ [name]) new_prefix).
      unfold RemoteTree.collection_plan in IH. rewrite last_snoc in IH. apply IH; [|done].
      by apply (remote_resolve_child root target children).
Qed.

Lemma get_tree_plan root target prefix :
  RemoteTree.wf root = true →
  ∃ fuel0, ∀ fuel, fuel0 ≤ fuel →
    iterate_get_actions (RemoteTree.listing root) fuel () target prefix
    = match RemoteTree.resolve root target with
      | None => yields []
      | Some RemoteFile =>
          match last target with
          | Some name => yields [DownloadRemoteFile target (prefix ++ [name])]
          | None => raises IndexError
          end
      | Some (RemoteDirectory _ as n) => yields (RemoteTree.collection_plan target prefix n)
      end.
Proof.
  intros Hroot. destruct (RemoteTree.resolve root target) as [[|children]|] eqn:Ht.
  - exists 1. intros [|fuel] Hfuel; [lia|]. simpl.
    rewrite list_tree_file by done. unfold download_into, COWList.last_item.
    by destruct (last target).
  - apply iterate_get_actions_complete. by apply (tree_plan_spec root Hroot _ _ _ Ht).
  - exists 1. intros [|fuel] Hfuel; [lia|]. simpl.
    by rewrite list_tree_missing by done.
Qed.

End TreeStore.

(** X16.  On a store that is a tree with distinct names in every collection,
    the get planner terminates for every target, with any recursion depth from
    some bound on, and its plan mirrors the subtree of the target: nothing for
    a missing target, one download for a file, and for a collection its own
    local directory (unless it is the root), the downloads of its files and
    then, collection by collection, the plans of its collections.  Only a
    file at the root makes it raise. *)
Theorem get_mirrors_tree (root : rnode) (target prefix : path) :
  RemoteTree.wf root = true →
  ∃ fuel0, ∀ fuel, fuel0 ≤ fuel →
    iterate_get_actions (RemoteTree.listing root) fuel () target prefix
    = match RemoteTree.resolve root target with
      | None => yields []
      | Some RemoteFile =>
          match last target with
          | Some name => yields [DownloadRemoteFile target (prefix ++ [name])]
          | None => raises IndexError
          end
      | Some (RemoteDirectory _ as n) =>
          yields (RemoteTree.collection_plan target prefix n)
      end.
Proof. apply get_tree_plan. Qed.

Lemma get_mirrors_tree_witness :
  ∃ fuel0, ∀ fuel, fuel0 ≤ fuel →
    iterate_get_actions
      (RemoteTree.listing
         (RemoteDirectory
            [("d", RemoteDirectory
                     [("sub", RemoteDirectory [("c.txt", RemoteFile)]);
                      ("a.txt", RemoteFile)])]))
      fuel () ["d"] ["out"]
    = yields [CreateLocalDirectory ["out"; "d"];
              DownloadRemoteFile ["d"; "a.txt"] ["out"; "d"; "a.txt"];
              CreateLocalDirectory ["out"; "d"; "sub"];
              DownloadRemoteFile ["d"; "sub"; "c.txt"] ["out"; "d"; "sub"; "c.txt"]].
Proof.
  apply (get_mirrors_tree
           (RemoteDirectory
              [("d", RemoteDirectory
                       [("sub", RemoteDirectory [("c.txt", RemoteFile)]);
                        ("a.txt", RemoteFile)])])
           ["d"] ["out"]).
  reflexivity.
Defined.

(** ** More on the put planner *)

Section PutCoverage.

Implicit Types (acts : list PutAction) (prefix q : path) (i : inode)
  (entries : list (string * inode)).

Lemma names_partition entries :
  os.dirnames entries ++ os.filenames entries ≡ₚ entries.*1.
Proof.
  unfold os.dirnames, os.filenames.
  induction entries as [|[name sub] entries IH]; [done|].
  destruct (os.is_dir_entry (name, sub)) eqn:Hdir.
  - rewrite filter_cons_True, filter_cons_False by (by rewrite ?Hdir).
    csimpl. by rewrite IH.
  - rewrite filter_cons_False, filter_cons_True by (by rewrite ?Hdir).
    csimpl. by rewrite <-Permutation_middle, IH.
Qed.

Lemma elem_of_dirnames entries name :
  name ∈ os.dirnames entries
  ↔ ∃ l sub, (name, Directory l sub) ∈ entries.
Proof.
  unfold os.dirnames. rewrite list_elem_of_fmap. split.
  - intros ([n i] & -> & [Hdir Hin]%list_elem_of_filter).
    unfold os.is_dir_entry in Hdir. simpl in *. destruct i as [|l sub|]; try done.
    by exists l, sub.
  - intros (l & sub & Hin). exists (name, Directory l sub). split; [done|].
    by apply list_elem_of_filter.
Qed.

Lemma elem_of_filenames entries name :
  name ∈ os.filenames entries
  ↔ ∃ i, (name, i) ∈ entries ∧ os.is_dir_entry (name, i) = false.
Proof.
  unfold os.filenames. rewrite list_elem_of_fmap. split.
  - intros ([n i] & -> & [Hdir Hin]%list_elem_of_filter). by exists i.
  - intros (i & Hin & Hdir). exists (name, i). split; [done|].
    by apply list_elem_of_filter.
Qed.

Lemma lookup_entry_NoDup name i entries :
  NoDup entries.*1 → (name, i) ∈ entries → os.lookup_entry name entries = Some i.
Proof.
  induction entries as [|[n j] entries IH]; csimpl; [by intros _ ?%elem_of_nil|].
  intros [Hn Hnd]%NoDup_cons [[= -> ->]|Hin]%elem_of_cons.
  - by rewrite decide_True.
  - rewrite decide_False; [by apply IH|]. intros ->. apply Hn.
    apply list_elem_of_fmap. by exists (name, i).
Qed.

Lemma elem_of_entered_plans prefix top entries a :
  a ∈ subdirectory_plans prefix top entries
  ↔ ∃ name sub, (name, Directory false sub) ∈ entries
                ∧ a ∈ put_plan_spec (prefix ++ [name]) (posixpath.join2 top name)
                        (Directory false sub).
Proof.
  unfold subdirectory_plans. rewrite list_elem_of_In, in_flat_map. split.
  - intros ([name i] & Hentry & Hin). apply list_elem_of_In in Hentry, Hin.
    destruct i as [|[|] sub|]; try by apply elem_of_nil in Hin.
    by exists name, sub.
  - intros (name & sub & Hentry & Hin). exists (name, Directory false sub).
    by rewrite <-!list_elem_of_In.
Qed.

Lemma put_action_of_entry_below top prefix x names name i :
  put_action_of_entry (posixpath.join2 top x) (prefix ++ [x]) names name i
  = put_action_of_entry top prefix (x :: names) name i.
Proof.
  unfold put_action_of_entry. rewrite <-!app_assoc. by destruct i.
Qed.

(** the plan of a directory holds exactly the actions of the entries of the
    directories that the walk visits *)
Lemma put_plan_spec_walked i :
  ∀ prefix top a, wf_inode i = true →
    a ∈ put_plan_spec prefix top i
    ↔ ∃ names l entries name sub,
        walked i names = Some (Directory l entries)
        ∧ (name, sub) ∈ entries
        ∧ a = put_action_of_entry top prefix names name sub.
Proof.
  induction i as [| |l entries IH] using inode_tree_ind; intros prefix top a Hwf.
  - split; [by intros ?%elem_of_nil|]. by intros ([|x names] & ? & ? & ? & ? & ? & _).
  - split; [by intros ?%elem_of_nil|]. by intros ([|x names] & ? & ? & ? & ? & ? & _).
  - apply wf_inode_directory in Hwf as (Hnd & _ & Hsubs).
    rewrite Forall_forall in IH. rewrite Forall_forall in Hsubs.
    rewrite put_plan_spec_directory, !elem_of_app, !list_elem_of_fmap. split.
    + intros [[(d & -> & Hd)|(f & -> & Hf)]|Hsub].
      * apply elem_of_dirnames in Hd as (l' & sub & Hin).
        by exists [], l, entries, d, (Directory l' sub).
      * apply elem_of_filenames in Hf as (j & Hin & Hfile).
        exists [], l, entries, f, j. split_and!; [done..|].
        unfold os.is_dir_entry in Hfile. simpl in Hfile. by destruct j.
      * apply elem_of_entered_plans in Hsub as (x & sub & Hin & Ha).
        apply (IH _ Hin) in Ha
          as (names & l' & entries' & name & j & Hwalk & Hj & ->);
          [|by apply (Hsubs _ Hin)].
        exists (x :: names), l', entries', name, j. simpl.
        rewrite (lookup_entry_NoDup x (Directory false sub)) by done.
        by rewrite put_action_of_entry_below.
    + intros (names & l' & entries' & name & j & Hwalk & Hj & ->).
      destruct names as [|x names].
      * injection Hwalk as <- <-. unfold put_action_of_entry. simpl.
        destruct j as [|l' sub|].
        -- left. right. exists name. split; [done|]. apply elem_of_filenames.
           by exists RegularFile.
        -- left. left. exists name. split; [done|]. apply elem_of_dirnames.
           by exists l', sub.
        -- left. right. exists name. split; [done|]. apply elem_of_filenames.
           by exists Special.
      * right. simpl in Hwalk.
        destruct (os.lookup_entry x entries) as [[|[|] sub|]|] eqn:Hx; try done.
        apply lookup_entry_elem in Hx. apply elem_of_entered_plans.
        exists x, sub. split; [done|]. apply (IH _ Hx); [by apply (Hsubs _ Hx)|].
        exists names, l', entries', name, j.
        by rewrite put_action_of_entry_below.
Qed.

Lemma put_plan_spec_NoDup i :
  ∀ prefix top, wf_inode i = true →
    NoDup (put_action_path <$> put_plan_spec prefix top i).
Proof.
  induction i as [| |l entries IH] using inode_tree_ind; intros prefix top Hwf;
    [constructor..|].
  apply wf_inode_directory in Hwf as (Hnd & _ & Hsubs).
  rewrite put_plan_spec_directory, fmap_app. apply NoDup_app. split_and!.
  - rewrite fmap_app, <-!list_fmap_compose.
    change (put_action_path ∘ _) with (λ n : string, prefix ++ [n]).
    change (put_action_path ∘ _) with (λ n : string, prefix ++ [n]).
    rewrite <-fmap_app. apply NoDup_fmap_2; [|by rewrite names_partition].
    intros x y Heq. by apply app_inv_head in Heq as [= ->].
  - intros p (a & -> & Ha)%list_elem_of_fmap (b & Hb & Hsub)%list_elem_of_fmap.
    apply subdirectory_plans_inside in Hsub as (name & rest & _ & Hrest & Hpath).
    rewrite Hpath in Hb.
    assert (Hlen : length (put_action_path a) = S (length prefix)).
    { apply elem_of_app in Ha as [(d & -> & _)%list_elem_of_fmap
                                 |(f & -> & _)%list_elem_of_fmap];
        simpl; rewrite length_app; simpl; lia. }
    rewrite Hb, length_app in Hlen. simpl in Hlen. destruct rest; [done|].
    simpl in Hlen. lia.
  - unfold subdirectory_plans.
    induction entries as [|[name sub] entries IHe]; [constructor|].
    apply Forall_cons in IH as [IHsub IH]. simpl in IHsub.
    apply Forall_cons in Hsubs as [Hwfsub Hsubs]. simpl in Hwfsub.
    apply NoDup_cons in Hnd as [Hname Hnd].
    simpl flat_map. rewrite fmap_app. apply NoDup_app. split_and!.
    + destruct sub as [|[|] sub|]; try constructor. by apply IHsub.
    + intros p (a & -> & Ha)%list_elem_of_fmap (b & Hb & Hsub)%list_elem_of_fmap.
      apply subdirectory_plans_inside in Hsub as (name' & rest' & Hname' & _ & Hpath).
      assert (Hin : strictly_inside (prefix ++ [name]) (put_action_path a)).
      { destruct sub as [|[|] sub|]; try by apply elem_of_nil in Ha.
        by apply put_plan_spec_inside in Ha. }
      destruct Hin as (rest & _ & Hpa). rewrite <-Hb, Hpa, <-app_assoc in Hpath.
      apply app_inv_head in Hpath as [= -> _]. done.
    + by apply IHe.
Qed.

Lemma put_actions_cases cwd fs local_path prefix :
  posixpath.isabs cwd = true → wf_filesystem fs = true →
  let abs := posixpath.abspath cwd local_path in
  let basename := posixpath.basename abs in
  let acts := (iterate_put_actions cwd fs local_path prefix).1 in
  acts = []
  ∨ acts = [UploadLocalFile abs (prefix ++ [basename])]
  ∨ ∃ l entries,
      os.stat fs abs = Some (Directory l entries)
      ∧ wf_inode (Directory l entries) = true
      ∧ acts = CreateRemoteDirectory (prefix ++ [basename])
               :: put_plan_spec (prefix ++ [basename]) abs (Directory l entries).
Proof.
  intros Hcwd Hfs abs basename acts. subst acts.
  destruct (os.isfile fs abs) eqn:Hfile.
  { right. left. by rewrite iterate_put_file. }
  destruct (os.isdir fs abs) eqn:Hdir.
  2: { left. by rewrite iterate_put_unsupported. }
  destruct (decide (basename = "")) as [Hbase|Hbase].
  { left. by rewrite iterate_put_root. }
  unfold os.isdir in Hdir.
  destruct (os.stat fs abs) as [[|l entries|]|] eqn:Hstat; try done.
  right. right. exists l, entries. split_and!; [done| |].
  - by eapply resolve_wf; [apply Hfs|apply Hstat].
  - by rewrite (iterate_put_directory cwd fs local_path prefix Hcwd Hfs l entries).
Qed.

Lemma put_paths_NoDup cwd fs local_path prefix :
  posixpath.isabs cwd = true → wf_filesystem fs = true →
  NoDup (put_action_path <$> (iterate_put_actions cwd fs local_path prefix).1).
Proof.
  intros Hcwd Hfs.
  destruct (put_actions_cases cwd fs local_path prefix Hcwd Hfs)
    as [->|[->|(l & entries & _ & Hwf & ->)]].
  - constructor.
  - apply NoDup_singleton.
  - rewrite fmap_cons. constructor; [|by apply put_plan_spec_NoDup].
    intros (a & Heq & Ha)%list_elem_of_fmap.
    apply put_plan_spec_inside, strictly_inside_length in Ha.
    rewrite <-Heq in Ha. simpl in Ha. lia.
Qed.

Lemma put_walked_entries cwd fs local_path prefix l0 entries0 :
  posixpath.isabs cwd = true → wf_filesystem fs = true →
  let abs := posixpath.abspath cwd local_path in
  let basename := posixpath.basename abs in
  os.stat fs abs = Some (Directory l0 entries0) →
  basename ≠ "" →
  ∀ a, a ∈ (iterate_put_actions cwd fs local_path prefix).1
       ↔ a = CreateRemoteDirectory (prefix ++ [basename])
         ∨ ∃ names l entries name sub,
             walked (Directory l0 entries0) names = Some (Directory l entries)
             ∧ (name, sub) ∈ entries
             ∧ a = put_action_of_entry abs (prefix ++ [basename]) names name sub.
Proof.
  intros Hcwd Hfs abs basename Hstat Hbase a.
  rewrite (iterate_put_directory cwd fs local_path prefix Hcwd Hfs l0 entries0)
    by done.
  change (yields ?x).1 with x. rewrite elem_of_cons.
  apply or_iff_compat_l, put_plan_spec_walked.
  by eapply resolve_wf; [apply Hfs|apply Hstat].
Qed.

End PutCoverage.

(** X17.  On a file system with distinct names in every directory, no two
    actions of a put plan address the same remote path: nothing is uploaded
    or created twice, and no upload lands on a created directory. *)
Theorem put_paths_distinct (cwd : string) (fs : filesystem) (local_path : string)
  (prefix : path) :
  posixpath.isabs cwd = true →
  wf_filesystem fs = true →
  NoDup (put_action_path <$> (iterate_put_actions cwd fs local_path prefix).1).
Proof. apply put_paths_NoDup. Qed.

Lemma put_paths_distinct_witness :
  NoDup (put_action_path <$> (iterate_put_actions "/home/u" scenario_fs "a" ["dest"]).1).
Proof.
  apply (put_paths_distinct "/home/u" scenario_fs "a" ["dest"]); reflexivity.
Defined.

(** X18.  The put plan of a directory covers the tree that the walk visits,
    and nothing else: besides the creation of the directory itself, its
    actions are exactly one action for every entry of every directory reached
    from it through directories that are not symbolic links: a creation for
    a directory (also for a linked one, whose content is not visited), an
    upload for anything else, a special file included. *)
Theorem put_covers_walked_entries (cwd : string) (fs : filesystem)
  (local_path : string) (prefix : path) (l0 : bool) (entries0 : list (string * inode)) :
  posixpath.isabs cwd = true →
  wf_filesystem fs = true →
  os.stat fs (posixpath.abspath cwd local_path) = Some (Directory l0 entries0) →
  posixpath.basename (posixpath.abspath cwd local_path) ≠ "" →
  ∀ a, a ∈ (iterate_put_actions cwd fs local_path prefix).1
       ↔ a = CreateRemoteDirectory
               (prefix ++ [posixpath.basename (posixpath.abspath cwd local_path)])
         ∨ ∃ names l entries name sub,
             walked (Directory l0 entries0) names = Some (Directory l entries)
             ∧ (name, sub) ∈ entries
             ∧ a = put_action_of_entry (posixpath.abspath cwd local_path)
                     (prefix ++ [posixpath.basename (posixpath.abspath cwd local_path)])
                     names name sub.
Proof. apply put_walked_entries. Qed.

Lemma put_covers_walked_entries_witness :
  UploadLocalFile "/home/u/a/f.txt" ["u"; "a"; "f.txt"]
    ∈ (iterate_put_actions "/home" scenario_fs "u" []).1
  ↔ UploadLocalFile "/home/u/a/f.txt" ["u"; "a"; "f.txt"] = CreateRemoteDirectory ["u"]
    ∨ ∃ names l entries name sub,
        walked
          (Directory false
             [("a", Directory false
                      [("f.txt", RegularFile); ("sub", Directory false [])]);
              ("notes.txt", RegularFile);
              ("tty", Special)])
          names = Some (Directory l entries)
        ∧ (name, sub) ∈ entries
        ∧ UploadLocalFile "/home/u/a/f.txt" ["u"; "a"; "f.txt"]
          = put_action_of_entry "/home/u" ["u"] names name sub.
Proof.
  apply (put_covers_walked_entries "/home" scenario_fs "u" [] false
           [("a", Directory false
                    [("f.txt", RegularFile); ("sub", Directory false [])]);
            ("notes.txt", RegularFile);
            ("tty", Special)]);
    [reflexivity|reflexivity|reflexivity|discriminate].
Defined.

(** ** The commands *)

Section CommandFacts.

Implicit Types (s : gset path) (p q m : path).

Lemma chain_app q m : chain [] (q ++ m) = chain [] q ++ chain q m.
Proof.
  induction m as [|x m IH] using rev_ind.
  - rewrite app_nil_r. unfold chain at 3. simpl. by rewrite app_nil_r.
  - rewrite app_assoc, (chain_snoc [] (q ++ m)), (chain_snoc q m), IH.
    by rewrite <-!app_assoc.
Qed.

(** below the deepest collection that exists on the way to a missing one,
    nothing exists *)
Lemma missing_chain s p :
  p ≠ [] → p ∉ s →
  ∃ q m, p = q ++ m ∧ m ≠ [] ∧ DavStore.exists_collection s q = true
         ∧ ∀ x, x ∈ chain q m → x ∉ s.
Proof.
  induction p as [|a p IH] using rev_ind; [done|]. intros _ Hmiss.
  destruct (DavStore.exists_collection s p) eqn:Hp.
  - exists p, [a]. split_and!; [done..|].
    intros x Hx. apply elem_of_chain in Hx as (i & Hi & ->). simpl in Hi.
    by replace i with 1 by lia.
  - apply bool_decide_eq_false in Hp.
    destruct IH as (q & m & -> & Hm & Hq & Hall); [naive_solver..|].
    exists q, (m ++ [a]). split_and!; [by rewrite app_assoc|by destruct m|done|].
    intros x. rewrite chain_snoc, elem_of_app, list_elem_of_singleton.
    intros [Hx| ->]; [by apply Hall|by rewrite app_assoc].
Qed.

Lemma parents_exist_chain s p :
  parents_exist s → DavStore.exists_collection s p = true →
  ∀ x, x ∈ chain [] p → x ∈ s.
Proof.
  intros Hclosed. induction p as [|a p IH] using rev_ind.
  - intros _ x Hx. by apply elem_of_nil in Hx.
  - intros [Hnil|Hin]%bool_decide_eq_true; [by destruct p|].
    pose proof (Hclosed _ Hin) as Hparent. rewrite removelast_last in Hparent.
    intros x. rewrite chain_snoc, elem_of_app, list_elem_of_singleton.
    intros [Hx| ->]; [by apply IH|done].
Qed.

Lemma mkdir_parents (remote_directory_path : string) p s (log : list path) :
  remote_path_to_remote_path_components remote_directory_path = Ok p →
  parents_exist s →
  ∃ requests,
    mkdir (logging DavStore.mkcol) remote_directory_path true (s, log)
    = Ok (if COWList.truthy p && DavStore.exists_collection s p
          then ([Stderr ("cannot create remote directory " +:+ remote_directory_path)],
                (s, log ++ requests))
          else ([], (list_to_set (chain [] p) ∪ s, log ++ requests))).
Proof.
  intros Hparse Hclosed. unfold mkdir. rewrite Hparse. unfold bind.
  destruct (decide (p = [])) as [->|Hp].
  { exists []. rewrite create_directories_root, app_nil_r. simpl. do 3 f_equal.
    unfold chain. simpl. set_solver. }
  assert (Htruthy : COWList.truthy p = true) by by destruct p.
  rewrite Htruthy. cbn [andb].
  destruct (decide (p ∈ s)) as [Hin|Hmiss].
  - rewrite exists_collection_true by done.
    destruct (create_directories_existing p Hp s log (S (length p)))
      as (requests & -> & _); [|lia|by exists requests].
    apply parents_exist_chain; [done|by apply exists_collection_true].
  - rewrite exists_collection_false by done.
    destruct (missing_chain s p Hp Hmiss) as (q & m & -> & Hm & Hq & Hall).
    destruct (create_directories_chain q m Hm s log (S (length (q ++ m))) Hq Hall)
      as (requests & -> & _); [rewrite length_app; lia|].
    exists requests. simpl. do 3 f_equal. rewrite chain_app, list_to_set_app_L.
    pose proof (parents_exist_chain s q Hclosed Hq) as Hsub.
    apply set_eq. intros x. rewrite !elem_of_union, !elem_of_list_to_set.
    specialize (Hsub x). tauto.
Qed.

Context {St : Type}.
Variable listings : St → path → list (path * bool).
Variable st : St.



End CommandFacts.

(** X19.  The command [mkdir -p] on a store in which every collection lies in
    a collection of the store: when the target is the root or does not exist
    yet, it prints nothing and afterwards all collections on the way to the
    target exist; when the target exists already, it prints the diagnostic
    on the standard error and leaves the store as it was. *)
Theorem mkdir_parents_outcome (remote_directory_path : string) (p : path)
  (s : gset path) (log : list path) :
  remote_path_to_remote_path_components remote_directory_path = Ok p →
  parents_exist s →
  ∃ requests,
    mkdir (logging DavStore.mkcol) remote_directory_path true (s, log)
    = Ok (if COWList.truthy p && DavStore.exists_collection s p
          then ([Stderr ("cannot create remote directory " +:+ remote_directory_path)],
                (s, log ++ requests))
          else ([], (list_to_set (chain [] p) ∪ s, log ++ requests))).
Proof. apply mkdir_parents. Qed.

Lemma mkdir_parents_outcome_witness :
  ∃ requests,
    mkdir (logging DavStore.mkcol) "a/b" true ({[ ["a"] ]}, [])
    = Ok (if COWList.truthy ["a"; "b"] && DavStore.exists_collection {[ ["a"] ]} ["a"; "b"]
          then ([Stderr ("cannot create remote directory " +:+ "a/b")],
                ({[ ["a"] ]}, [] ++ requests))
          else ([], (list_to_set (chain [] ["a"; "b"]) ∪ {[ ["a"] ]}, [] ++ requests))).
Proof.
  apply (mkdir_parents_outcome "a/b" ["a"; "b"] {[ ["a"] ]} []).
  - reflexivity.
  - intros p ->%elem_of_singleton. reflexivity.
Defined.


